(** * TokenizedBuffer: incremental tokenization of a text buffer

    A shallow embedding of [src/tokenized-buffer.js] and the properties
    of its invalid-row scheduler, its scope-stack folder and its queries.

    Conventions of the embedding.
    - JavaScript numbers that hold rows, columns, tags and counts are
      integers of [Z].
    - [undefined] is [None]; a value that can also be [null] has a type
      of its own ([StackVal]).
    - An operation of the class is a function on the record [State] of
      the instance fields; what it emits, asserts, defers or asks of the
      grammar is appended to logs kept in the same record.
    - A call that raises is a [Throw] of [Completion]. *)

From Stdlib Require Import ZArith QArith Qround Qminmax Ascii String Lia.
From stdpp Require Import base option list list_numbers sorting strings gmap.

#[local] Open Scope Z_scope.

(** ** What the module gets from outside

    Rule stacks are values of the grammar engine, compared with
    [_.isEqual]; [basename] is [path.basename] of Node. *)

Class Platform := {
  RuleStack : Type;
  RuleStack_eq_dec :: EqDecision RuleStack;
  basename : string → string;
}.

(** ** JavaScript values *)

Inductive JsError := TypeError.

Inductive Completion (A : Type) :=
| Normal (a : A)
| Throw (e : JsError).
Arguments Normal {A} a.
Arguments Throw {A} e.

#[global] Instance Completion_ret : MRet Completion := λ A a, Normal a.

#[global] Instance Completion_bind : MBind Completion := λ A B k c,
  match c with
  | Normal a => k a
  | Throw e => Throw e
  end.

(** A rule stack as the code sees it: [undefined] (no line, or a line
    built without one), [null] (the null grammar returns it) or a stack
    object, which is truthy. *)
Inductive StackVal `{Platform} :=
| StackUndefined
| StackNull
| StackOf (s : RuleStack).

Definition truthy `{Platform} (v : StackVal) : bool :=
  match v with
  | StackOf _ => true
  | _ => false
  end.

(** [_.isEqual] on rule stacks: deep equality; [null] and [undefined]
    are equal to themselves only. *)
Definition isEqual `{Platform} (a b : StackVal) : bool :=
  match a, b with
  | StackUndefined, StackUndefined => true
  | StackNull, StackNull => true
  | StackOf x, StackOf y => bool_decide (x = y)
  | _, _ => false
  end.

(** ** Sparse arrays

    [this.tokenizedLines] is a JavaScript array with holes: a [length]
    and the properties that are set. A negative index is an ordinary
    property, kept by [length = 0] and by [splice]. *)
Module JsArray.

Record t (A : Type) := Make { props : gmap Z A; len : Z }.
Arguments Make {A} props len.
Arguments props {A} _.
Arguments len {A} _.

(** [new Array(n)] *)
Definition create {A} (n : Z) : t A := Make ∅ n.

(** [a[i]] *)
Definition get {A} (a : t A) (i : Z) : option A := props a !! i.

(** [a[i] = v] *)
Definition set {A} (a : t A) (i : Z) (v : A) : t A :=
  Make (<[i := v]> (props a))
       (if 0 <=? i then Z.max (len a) (i + 1) else len a).

(** The properties that are not indices. *)
Definition named {A} (a : t A) : gmap Z A :=
  filter (λ kv, kv.1 < 0) (props a).

(** The elements [a[0]], ..., [a[length - 1]]. *)
Definition elements {A} (a : t A) : list (option A) :=
  (λ i, props a !! i) <$> seqZ 0 (len a).

Fixpoint store {A} (i : Z) (l : list (option A)) (m : gmap Z A) : gmap Z A :=
  match l with
  | [] => m
  | Some v :: l' => <[i := v]> (store (i + 1) l' m)
  | None :: l' => store (i + 1) l' m
  end.

Definition ofElements {A} (others : gmap Z A) (l : list (option A)) : t A :=
  Make (store 0 l others) (Z.of_nat (length l)).

(** [a.length = 0] *)
Definition clear {A} (a : t A) : t A := Make (named a) 0.

(** [a.splice(start, deleteCount, ...items)], with the clamping of
    [Array.prototype.splice]. *)
Definition splice {A} (a : t A) (start deleteCount : Z)
    (items : list (option A)) : t A :=
  let actualStart :=
    if start <? 0 then Z.max (len a + start) 0 else Z.min start (len a) in
  let actualDelete :=
    Z.min (Z.max deleteCount 0) (len a - actualStart) in
  ofElements (named a)
    (take (Z.to_nat actualStart) (elements a) ++ items ++
     drop (Z.to_nat (actualStart + actualDelete)) (elements a)).

End JsArray.

(** ** The text buffer (package text-buffer)

    Line storage is modelled; [isRowBlank] and [nextNonBlankRow] are
    methods of the buffer object. *)
Module TextBuffer.

Record t := Make {
  lines : list string;
  lineEndings : list string;
  path : string;
  alive : bool;
  changeCount : Z;
  isRowBlank : Z → bool;
  nextNonBlankRow : Z → option Z;
}.

Definition getLineCount (b : t) : Z := Z.of_nat (length (lines b)).
Definition getLastRow (b : t) : Z := getLineCount b - 1.

Definition lineForRow (b : t) (row : Z) : option string :=
  if row <? 0 then None else lines b !! Z.to_nat row.

Definition lineEndingForRow (b : t) (row : Z) : option string :=
  if row <? 0 then None else lineEndings b !! Z.to_nat row.

Definition getPath (b : t) : string := path b.
Definition isAlive (b : t) : bool := alive b.

Definition getText (b : t) : string :=
  String.concat "" (zip_with String.append (lines b) (lineEndings b)).

End TextBuffer.

(** ** The grammar (package first-mate, or the null grammar) *)
Record Grammar `{Platform} := {
  name : string;
  scopeName : string;
  (** [tokenizeLine(text, ruleStack, firstLine, false)] gives
      [{tags, ruleStack}] *)
  tokenizeLine : option string → StackVal → bool → list Z * StackVal;
  scopeForId : Z → option string;
  startIdForScope : string → Z;
  endIdForScope : string → Z;
}.

(** ** Tokenized lines

    The fields of [new TokenizedLine({...})] that hold data; the
    [tokenIterator] and [grammar] fields refer to the shared objects of
    the buffer. *)
Record TokenizedLine `{Platform} := {
  openScopes : list Z;
  text : option string;
  tags : list Z;
  ruleStack : StackVal;
  lineEnding : option string;
}.

(** ** Effects *)

Inductive Event :=
| DidChangeGrammar
| DidTokenize
| DidInvalidateRange (startRow endRow : Z).

#[global] Instance Event_eq_dec : EqDecision Event.
Proof. solve_decision. Defined.

(** What [this.assert(false, message, enrich)] reports: the message and
    the fields that [enrich] puts on the error. *)
Record AssertionFailure := {
  message : string;
  grammarScopeName : string;
  unmatchedEndTag : option string;
  privateMetadataDescription : string;
  filePath : string;
  fileContents : string;
}.

(** ** Points, ranges and change events (package text-buffer)

    A range of text-buffer has its start at or before its end; the type
    carries it. *)
Record Point := { row : Z; column : Z }.

Record Range := {
  start : Point;
  end' : Point;
  ordered : (row start <=? row end') = true;
}.

Record ChangeEvent := { oldRange : Range; newRange : Range }.

(** ** The instance fields *)
Record State `{Platform} := MkState {
  alive : bool;
  buffer : TextBuffer.t;
  tabLength : Z;
  largeFileMode : bool;
  grammar : Grammar;
  tokenizedLines : JsArray.t TokenizedLine;
  invalidRows : list Z;
  fullyTokenized : bool;
  visible : bool;
  pendingChunk : bool;
  (** [this.chunkSize] is read by [tokenizeNextChunk] and
      [buildTokenizedLinesForRows]; the file has no assignment to it. It
      is a constant of the implementation, taken here as given: the
      properties say which of them need it positive. *)
  chunkSize : Z;
  changeCount : Z;
  (** events given to [this.emitter.emit], oldest first *)
  emitted : list Event;
  (** failed calls of [this.assert], oldest first *)
  assertions : list AssertionFailure;
  (** callbacks handed to [_.defer] and not yet run *)
  deferred : nat;
  (** rows given to [this.grammar.tokenizeLine], oldest first *)
  tokenizeCalls : list Z;
  (** values assigned to [this.fullyTokenized], oldest first *)
  fullyTokenizedWrites : list bool;
}.

Section Setters.
Context `{Platform}.

Definition with_alive (v : bool) (st : State) : State :=
  MkState _ v (buffer st) (tabLength st) (largeFileMode st) (grammar st)
    (tokenizedLines st) (invalidRows st) (fullyTokenized st) (visible st)
    (pendingChunk st) (chunkSize st) (changeCount st) (emitted st)
    (assertions st) (deferred st) (tokenizeCalls st) (fullyTokenizedWrites st).

Definition with_grammar (v : Grammar) (st : State) : State :=
  MkState _ (alive st) (buffer st) (tabLength st) (largeFileMode st) v
    (tokenizedLines st) (invalidRows st) (fullyTokenized st) (visible st)
    (pendingChunk st) (chunkSize st) (changeCount st) (emitted st)
    (assertions st) (deferred st) (tokenizeCalls st) (fullyTokenizedWrites st).

Definition with_tokenizedLines (v : JsArray.t TokenizedLine) (st : State) : State :=
  MkState _ (alive st) (buffer st) (tabLength st) (largeFileMode st) (grammar st)
    v (invalidRows st) (fullyTokenized st) (visible st)
    (pendingChunk st) (chunkSize st) (changeCount st) (emitted st)
    (assertions st) (deferred st) (tokenizeCalls st) (fullyTokenizedWrites st).

Definition with_invalidRows (v : list Z) (st : State) : State :=
  MkState _ (alive st) (buffer st) (tabLength st) (largeFileMode st) (grammar st)
    (tokenizedLines st) v (fullyTokenized st) (visible st)
    (pendingChunk st) (chunkSize st) (changeCount st) (emitted st)
    (assertions st) (deferred st) (tokenizeCalls st) (fullyTokenizedWrites st).

(** [this.fullyTokenized = v] *)
Definition with_fullyTokenized (v : bool) (st : State) : State :=
  MkState _ (alive st) (buffer st) (tabLength st) (largeFileMode st) (grammar st)
    (tokenizedLines st) (invalidRows st) v (visible st)
    (pendingChunk st) (chunkSize st) (changeCount st) (emitted st)
    (assertions st) (deferred st) (tokenizeCalls st)
    (fullyTokenizedWrites st ++ [v]).

Definition with_visible (v : bool) (st : State) : State :=
  MkState _ (alive st) (buffer st) (tabLength st) (largeFileMode st) (grammar st)
    (tokenizedLines st) (invalidRows st) (fullyTokenized st) v
    (pendingChunk st) (chunkSize st) (changeCount st) (emitted st)
    (assertions st) (deferred st) (tokenizeCalls st) (fullyTokenizedWrites st).

Definition with_pendingChunk (v : bool) (st : State) : State :=
  MkState _ (alive st) (buffer st) (tabLength st) (largeFileMode st) (grammar st)
    (tokenizedLines st) (invalidRows st) (fullyTokenized st) (visible st)
    v (chunkSize st) (changeCount st) (emitted st)
    (assertions st) (deferred st) (tokenizeCalls st) (fullyTokenizedWrites st).

Definition with_changeCount (v : Z) (st : State) : State :=
  MkState _ (alive st) (buffer st) (tabLength st) (largeFileMode st) (grammar st)
    (tokenizedLines st) (invalidRows st) (fullyTokenized st) (visible st)
    (pendingChunk st) (chunkSize st) v (emitted st)
    (assertions st) (deferred st) (tokenizeCalls st) (fullyTokenizedWrites st).

Definition with_emitted (v : list Event) (st : State) : State :=
  MkState _ (alive st) (buffer st) (tabLength st) (largeFileMode st) (grammar st)
    (tokenizedLines st) (invalidRows st) (fullyTokenized st) (visible st)
    (pendingChunk st) (chunkSize st) (changeCount st) v
    (assertions st) (deferred st) (tokenizeCalls st) (fullyTokenizedWrites st).

Definition with_assertions (v : list AssertionFailure) (st : State) : State :=
  MkState _ (alive st) (buffer st) (tabLength st) (largeFileMode st) (grammar st)
    (tokenizedLines st) (invalidRows st) (fullyTokenized st) (visible st)
    (pendingChunk st) (chunkSize st) (changeCount st) (emitted st)
    v (deferred st) (tokenizeCalls st) (fullyTokenizedWrites st).

Definition with_deferred (v : nat) (st : State) : State :=
  MkState _ (alive st) (buffer st) (tabLength st) (largeFileMode st) (grammar st)
    (tokenizedLines st) (invalidRows st) (fullyTokenized st) (visible st)
    (pendingChunk st) (chunkSize st) (changeCount st) (emitted st)
    (assertions st) v (tokenizeCalls st) (fullyTokenizedWrites st).

Definition with_tokenizeCalls (v : list Z) (st : State) : State :=
  MkState _ (alive st) (buffer st) (tabLength st) (largeFileMode st) (grammar st)
    (tokenizedLines st) (invalidRows st) (fullyTokenized st) (visible st)
    (pendingChunk st) (chunkSize st) (changeCount st) (emitted st)
    (assertions st) (deferred st) v (fullyTokenizedWrites st).

End Setters.

(** ** The tokenization engine *)
Section Engine.
Context `{Platform}.

Definition getLastRow (st : State) : Z := TextBuffer.getLastRow (buffer st).
Definition getLineCount (st : State) : Z := TextBuffer.getLineCount (buffer st).

Definition isNullGrammar (st : State) : bool :=
  String.eqb (name (grammar st)) "Null Grammar".

Definition emit (e : Event) (st : State) : State :=
  with_emitted (emitted st ++ [e]) st.

(** [_.defer] queues the callback; [deferredChunk] below is its body. *)
Definition tokenizeInBackground (st : State) : State :=
  if negb (visible st) || pendingChunk st || negb (alive st) then st
  else with_deferred (S (deferred st)) (with_pendingChunk true st).

Definition markTokenizationComplete (st : State) : State :=
  let st1 := if negb (fullyTokenized st) then emit DidTokenize st else st in
  with_fullyTokenized true st1.

Definition firstInvalidRow (st : State) : option Z := head (invalidRows st).

(** [while (this.invalidRows[0] <= row) this.invalidRows.shift()] *)
Fixpoint shiftUpTo (row : Z) (rows : list Z) : list Z :=
  match rows with
  | [] => []
  | r :: rows' => if r <=? row then shiftUpTo row rows' else rows
  end.

Definition validateRow (row : Z) (st : State) : State :=
  with_invalidRows (shiftUpTo row (invalidRows st)) st.

(** [push], then [sort((a, b) => a - b)]: ascending numeric order. *)
Definition invalidateRow (row : Z) (st : State) : State :=
  tokenizeInBackground
    (with_invalidRows (merge_sort Z.le (invalidRows st ++ [row])) st).

(** The callback of [updateInvalidRows]. Its third test, [row > end],
    is reached only when it is true. *)
Definition rebasedRow (start end' delta row : Z) : Z :=
  if row <? start then row
  else if (start <=? row) && (row <=? end') then end' + delta + 1
  else row + delta.

Definition updateInvalidRows (start end' delta : Z) (st : State) : State :=
  with_invalidRows (rebasedRow start end' delta <$> invalidRows st) st.

Definition stackForRow (st : State) (bufferRow : Z) : StackVal :=
  match JsArray.get (tokenizedLines st) bufferRow with
  | Some line => ruleStack line
  | None => StackUndefined
  end.

(** *** Folding a tag stream into a scope stack *)

(** Modelled from the spec: the hook [this.assert], given to the
    constructor, is not in the file; a failed assertion is reported
    with what the callback of the call puts on the error. *)
Definition reportUnmatched (tag : Z) (st : State) : State :=
  with_assertions
    (assertions st ++
     [{| message := "Encountered an unmatched scope end tag.";
         grammarScopeName := scopeName (grammar st);
         unmatchedEndTag := scopeForId (grammar st) tag;
         privateMetadataDescription :=
           "The contents of `" +:+
           basename (TextBuffer.getPath (buffer st)) +:+ "`";
         filePath := TextBuffer.getPath (buffer st);
         fileContents := TextBuffer.getText (buffer st) |}])
    st.

(** The inner [while (true)] of [scopesFromTags], on the stack listed
    from its top: each turn pops one entry; the loop leaves on the
    matching start tag, or with the stack empty and the assertion
    failed ([true]). *)
Fixpoint unwind (matchingStartTag : Z) (fromTop : list Z) : list Z * bool :=
  match fromTop with
  | [] => ([], true)
  | top :: below =>
      if top =? matchingStartTag then (below, false)
      else match below with
           | [] => ([], true)
           | _ => unwind matchingStartTag below
           end
  end.

Definition popUntil (matchingStartTag : Z) (scopes : list Z) : list Z * bool :=
  let '(below, unmatched) := unwind matchingStartTag (reverse scopes) in
  (reverse below, unmatched).

Fixpoint foldTags (tags : list Z) (scopes : list Z) (st : State)
    : list Z * State :=
  match tags with
  | [] => (scopes, st)
  | tag :: tags' =>
      if tag <? 0 then
        if Z.rem tag 2 =? -1 then foldTags tags' (scopes ++ [tag]) st
        else
          let matchingStartTag := tag + 1 in
          let '(scopes', unmatched) := popUntil matchingStartTag scopes in
          foldTags tags' scopes'
            (if unmatched then reportUnmatched tag st else st)
      else foldTags tags' scopes st
  end.

(** [startingScopes.slice()] is the list itself: a list is a value. The
    store of arrays and the copy are modelled in [Heap] below. *)
Definition scopesFromTags (startingScopes tags : list Z) (st : State)
    : list Z * State :=
  foldTags tags startingScopes st.

Definition openScopesForRow (bufferRow : Z) (st : State) : list Z * State :=
  match JsArray.get (tokenizedLines st) (bufferRow - 1) with
  | Some precedingLine =>
      scopesFromTags (openScopes precedingLine) (tags precedingLine) st
  | None => ([], st)
  end.

(** *** Building lines *)

(** The default value of [currentRuleStack] is taken when the argument
    is [undefined]. [openScopes] is always given. *)
Definition buildTokenizedLineForRowWithText (row : Z) (text : option string)
    (currentRuleStack : StackVal) (openScopes : list Z) (st : State)
    : TokenizedLine * State :=
  let currentRuleStack :=
    match currentRuleStack with
    | StackUndefined => stackForRow st (row - 1)
    | _ => currentRuleStack
    end in
  let lineEnding := TextBuffer.lineEndingForRow (buffer st) row in
  let '(tags, ruleStack) :=
    tokenizeLine (grammar st) text currentRuleStack (row =? 0) in
  ({| openScopes := openScopes; text := text; tags := tags;
      ruleStack := ruleStack; lineEnding := lineEnding |},
   with_tokenizeCalls (tokenizeCalls st ++ [row]) st).

Definition buildTokenizedLineForRow (row : Z) (ruleStack : StackVal)
    (openScopes : list Z) (st : State) : TokenizedLine * State :=
  buildTokenizedLineForRowWithText row
    (TextBuffer.lineForRow (buffer st) row) ruleStack openScopes st.

(** One turn of the [for] loop of [buildTokenizedLinesForRows]. *)
Definition buildStep (stopTokenizingAt : Z)
    (acc : StackVal * list Z * list (option TokenizedLine) * State)
    (row : Z) : StackVal * list Z * list (option TokenizedLine) * State :=
  let '(stack, scopes, built, st) := acc in
  if (truthy stack || (row =? 0)) && (row <? stopTokenizingAt) then
    let '(tokenizedLine, st1) :=
      buildTokenizedLineForRow row stack scopes st in
    let '(scopes', st2) :=
      scopesFromTags scopes (tags tokenizedLine) st1 in
    (ruleStack tokenizedLine, scopes', built ++ [Some tokenizedLine], st2)
  else (stack, scopes, built ++ [None], st).

Definition buildTokenizedLinesForRows (startRow endRow : Z)
    (startingStack : StackVal) (startingopenScopes : list Z) (st : State)
    : list (option TokenizedLine) * State :=
  let stopTokenizingAt := startRow + chunkSize st in
  let '(_, _, tokenizedLines, st1) :=
    foldl (buildStep stopTokenizingAt)
      (startingStack, startingopenScopes, [], st)
      (seqZ startRow (endRow - startRow + 1)) in
  let st2 :=
    if endRow >=? stopTokenizingAt
    then tokenizeInBackground (invalidateRow stopTokenizingAt st1)
    else st1 in
  (tokenizedLines, st2).

(** *** The background chunk *)

(** The inner [while (true)] of [tokenizeNextChunk]: gives [endRow],
    [filledRegion], what is left of [rowsRemaining], and the state.
    [fuel] bounds the turns. *)
Fixpoint tokenizeRows (fuel : nat) (lastRow row rowsRemaining : Z) (st : State)
    : option (Z * bool * Z * State) :=
  match fuel with
  | O => None
  | S fuel' =>
      let previousStack := stackForRow st row in
      let stack := stackForRow st (row - 1) in
      let '(scopes, st1) := openScopesForRow row st in
      let '(line, st2) := buildTokenizedLineForRow row stack scopes st1 in
      let st3 :=
        with_tokenizedLines (JsArray.set (tokenizedLines st2) row line) st2 in
      let rowsRemaining := rowsRemaining - 1 in
      if rowsRemaining =? 0 then Some (row, false, rowsRemaining, st3)
      else if (row =? lastRow) || isEqual (stackForRow st3 row) previousStack
      then Some (row, true, rowsRemaining, st3)
      else tokenizeRows fuel' lastRow (row + 1) rowsRemaining st3
  end.

(** The outer [while] of [tokenizeNextChunk]. The inner loop is given
    the turns that take it from [startRow] to [lastRow]. *)
Fixpoint tokenizeRegions (fuel : nat) (rowsRemaining : Z) (st : State)
    : option State :=
  match firstInvalidRow st with
  | Some startRow =>
      if rowsRemaining >? 0 then
        match fuel with
        | O => None
        | S fuel' =>
            let st1 := with_invalidRows (tail (invalidRows st)) st in
            let lastRow := getLastRow st1 in
            if startRow >? lastRow then tokenizeRegions fuel' rowsRemaining st1
            else
              match tokenizeRows (S (Z.to_nat (lastRow - startRow)))
                      lastRow startRow rowsRemaining st1 with
              | None => None
              | Some (endRow, filledRegion, rowsRemaining', st2) =>
                  let st3 := validateRow endRow st2 in
                  let st4 :=
                    if negb filledRegion then invalidateRow (endRow + 1) st3
                    else st3 in
                  let st5 :=
                    emit (DidInvalidateRange startRow (endRow + 1)) st4 in
                  tokenizeRegions fuel' rowsRemaining' st5
              end
        end
      else Some st
  | None => Some st
  end.

(** [None] would be a loop that used up its turns; [tokenizeNextChunk_total]
    shows there is none. *)
Definition tokenizeNextChunk (st : State) : option State :=
  st1 ← tokenizeRegions (length (invalidRows st)) (chunkSize st) st;
  Some (match firstInvalidRow st1 with
        | Some _ => tokenizeInBackground st1
        | None => markTokenizationComplete st1
        end).

(** The callback given to [_.defer] by [tokenizeInBackground]. *)
Definition deferredChunk (st : State) : option State :=
  let st1 := with_deferred (pred (deferred st)) (with_pendingChunk false st) in
  if alive st1 && TextBuffer.isAlive (buffer st1) then tokenizeNextChunk st1
  else Some st1.

(** *** Reset, visibility, destruction *)

Definition retokenizeLines (st : State) : State :=
  if negb (alive st) then st
  else
    let st1 := with_fullyTokenized false st in
    let st2 := with_tokenizedLines (JsArray.create (getLineCount st1)) st1 in
    let st3 := with_invalidRows [] st2 in
    if largeFileMode st3 || isNullGrammar st3
    then markTokenizationComplete st3
    else invalidateRow 0 st3.

Definition setVisible (v : bool) (st : State) : State :=
  let st1 := with_visible v st in
  if visible st1 && negb (isNullGrammar st1) && negb (largeFileMode st1)
  then tokenizeInBackground st1
  else st1.

(** [this.disposables.dispose()] ends the subscriptions, which are not
    fields of [State]. *)
Definition destroy (st : State) : State :=
  if negb (alive st) then st
  else
    let st1 := with_alive false st in
    with_tokenizedLines (JsArray.clear (tokenizedLines st1)) st1.

(** *** Edits *)

(** [_.spliceWithArray] of underscore-plus is [splice] with the items
    of the array. *)
Definition spliceWithArray {A} (originalArray : JsArray.t A)
    (start length : Z) (insertedArray : list (option A)) : JsArray.t A :=
  JsArray.splice originalArray start length insertedArray.

Definition bufferDidChange (e : ChangeEvent) (st : State) : State :=
  let st := with_changeCount (TextBuffer.changeCount (buffer st)) st in
  let delta := row (end' (newRange e)) - row (end' (oldRange e)) in
  let oldLineCount :=
    row (end' (oldRange e)) - row (start (oldRange e)) + 1 in
  let newLineCount :=
    row (end' (newRange e)) - row (start (newRange e)) + 1 in
  let start := row (start (oldRange e)) in
  let end' := row (end' (oldRange e)) in
  let st1 := updateInvalidRows start end' delta st in
  let previousEndStack := stackForRow st1 end' in
  if largeFileMode st1 || isNullGrammar st1 then
    with_tokenizedLines
      (spliceWithArray (tokenizedLines st1) start oldLineCount
         (replicate (Z.to_nat newLineCount) None))
      st1
  else
    let startingStack := stackForRow st1 (start - 1) in
    let '(scopes, st2) := openScopesForRow start st1 in
    let '(newTokenizedLines, st3) :=
      buildTokenizedLinesForRows start (end' + delta) startingStack scopes st2 in
    let st4 :=
      with_tokenizedLines
        (spliceWithArray (tokenizedLines st3) start oldLineCount newTokenizedLines)
        st3 in
    let newEndStack := stackForRow st4 (end' + delta) in
    if truthy newEndStack && negb (isEqual newEndStack previousEndStack)
    then invalidateRow (end' + delta + 1) st4
    else st4.

(** [setGrammar(grammar)] for a grammar object other than
    [this.grammar]; with the same object, or none, the method returns
    at once. The subscription to the updates of the grammar calls
    [retokenizeLines]. *)
Definition setGrammar (g : Grammar) (st : State) : State :=
  let st1 := with_grammar g st in
  emit DidChangeGrammar (retokenizeLines st1).

End Engine.

(** ** Queries *)

(** The methods of [TokenizedLine] (file [tokenized-line.js]) that the
    queries call. *)
Class LineMethods `{Platform} := {
  Token : Type;
  isComment : TokenizedLine → bool;
  tokenAtBufferColumn : TokenizedLine → Z → Token;
  tokenStartColumnForBufferColumn : TokenizedLine → Z → Z;
}.

(** The arguments of [new Range(new Point(r, c), new Point(r', c'))]; a
    column that was never assigned is [None]. *)
Inductive NewRange :=
| MkNewRange (startRow startColumn endRow : Z) (endColumn : option Z).

(** [s.split('.')] *)
Fixpoint split (sep : ascii) (s : string) : list string :=
  match s with
  | EmptyString => [EmptyString]
  | String c s' =>
      if Ascii.eqb c sep then EmptyString :: split sep s'
      else match split sep s' with
           | piece :: pieces => String c piece :: pieces
           | [] => [String c EmptyString]
           end
  end.

(** [selector.replace(/^\./, '')] *)
Definition withoutLeadingDot (selector : string) : string :=
  match selector with
  | String "."%char s' => s'
  | _ => selector
  end.

(** [_.isSubset] of underscore-plus *)
Definition isSubset (possibleSubset superset : list string) : bool :=
  forallb (λ element, existsb (String.eqb element) superset) possibleSubset.

(** [scopes.some(...)]: [scope.split] raises on a scope that is [null]. *)
Fixpoint someScopeMatches (targetClasses : list string)
    (scopes : list (option string)) : Completion bool :=
  match scopes with
  | [] => Normal false
  | None :: _ => Throw TypeError
  | Some scope :: scopes' =>
      if isSubset targetClasses (split "."%char scope) then Normal true
      else someScopeMatches targetClasses scopes'
  end.

Definition selectorMatchesAnyScope (selector : string)
    (scopes : list (option string)) : Completion bool :=
  someScopeMatches (split "."%char (withoutLeadingDot selector)) scopes.

Section Queries.
Context `{LineMethods}.

Definition tokenizedLineForRow (bufferRow : Z) (st : State)
    : Completion (option TokenizedLine) * State :=
  if (bufferRow >=? 0) && (bufferRow <=? TextBuffer.getLastRow (buffer st)) then
    match JsArray.get (tokenizedLines st) bufferRow with
    | Some tokenizedLine => (Normal (Some tokenizedLine), st)
    | None =>
        let text := TextBuffer.lineForRow (buffer st) bufferRow in
        let lineEnding := TextBuffer.lineEndingForRow (buffer st) bufferRow in
        match text with
        | None => (Throw TypeError, st)
        | Some chars =>
            let tags :=
              [startIdForScope (grammar st) (scopeName (grammar st));
               Z.of_nat (String.length chars);
               endIdForScope (grammar st) (scopeName (grammar st))] in
            let line :=
              {| openScopes := []; text := text; tags := tags;
                 ruleStack := StackUndefined; lineEnding := lineEnding |} in
            (Normal (Some line),
             with_tokenizedLines
               (JsArray.set (tokenizedLines st) bufferRow line) st)
        end
    end
  else (Normal None, st).

(** A method called on, or a pattern matched against, the line that
    [tokenizedLineForRow] returned: [undefined] raises. *)
Definition onLineForRow {A} (bufferRow : Z)
    (k : TokenizedLine → State → Completion A * State) (st : State)
    : Completion A * State :=
  match tokenizedLineForRow bufferRow st with
  | (Normal (Some line), st1) => k line st1
  | (Normal None, st1) => (Throw TypeError, st1)
  | (Throw e, st1) => (Throw e, st1)
  end.

Definition tokenForPosition (position : Point) (st : State)
    : Completion Token * State :=
  onLineForRow (row position)
    (λ line st1, (Normal (tokenAtBufferColumn line (column position)), st1)) st.

Definition tokenStartPositionForPosition (position : Point) (st : State)
    : Completion Point * State :=
  onLineForRow (row position)
    (λ line st1,
       (Normal {| row := row position;
                  column := tokenStartColumnForBufferColumn line (column position) |},
        st1)) st.

(** The first loop of [bufferRangeForScopeAtPosition]: gives
    [tokenIndex], [scopes], [startColumn] and [endColumn] at its exit. *)
Fixpoint findSpan (g : Grammar) (positionColumn : Z) (tags : list Z)
    (tokenIndex : nat) (scopes : list (option string))
    (startColumn : Z) (endColumn : option Z)
    : nat * list (option string) * Z * option Z :=
  match tags with
  | [] => (tokenIndex, scopes, startColumn, endColumn)
  | tag :: tags' =>
      if tag <? 0 then
        if Z.rem tag 2 =? -1
        then findSpan g positionColumn tags' (S tokenIndex)
               (scopes ++ [scopeForId g tag]) startColumn endColumn
        else findSpan g positionColumn tags' (S tokenIndex)
               (removelast scopes) startColumn endColumn
      else
        let endColumn := startColumn + tag in
        if endColumn >=? positionColumn
        then (tokenIndex, scopes, startColumn, Some endColumn)
        else findSpan g positionColumn tags' (S tokenIndex) scopes
               endColumn (Some endColumn)
  end.

(** The second loop, over the tags before [tokenIndex], last first. *)
Fixpoint expandLeft (g : Grammar) (selector : string) (tagsBefore : list Z)
    (startScopes : list (option string)) (startColumn : Z) : Completion Z :=
  match tagsBefore with
  | [] => Normal startColumn
  | tag :: tags' =>
      if tag <? 0 then
        if Z.rem tag 2 =? -1
        then expandLeft g selector tags' (removelast startScopes) startColumn
        else expandLeft g selector tags'
               (startScopes ++ [scopeForId g tag]) startColumn
      else
        matches ← selectorMatchesAnyScope selector startScopes;
        if negb matches then Normal startColumn
        else expandLeft g selector tags' startScopes (startColumn - tag)
  end.

(** The third loop, over the tags after [tokenIndex]. *)
Fixpoint expandRight (g : Grammar) (selector : string) (tagsAfter : list Z)
    (endScopes : list (option string)) (endColumn : option Z)
    : Completion (option Z) :=
  match tagsAfter with
  | [] => Normal endColumn
  | tag :: tags' =>
      if tag <? 0 then
        if Z.rem tag 2 =? -1
        then expandRight g selector tags'
               (endScopes ++ [scopeForId g tag]) endColumn
        else expandRight g selector tags' (removelast endScopes) endColumn
      else
        matches ← selectorMatchesAnyScope selector endScopes;
        if negb matches then Normal endColumn
        else expandRight g selector tags' endScopes
               ((λ c, c + tag) <$> endColumn)
  end.

Definition bufferRangeForScopeAtPosition (selector : string)
    (position : Point) (st : State) : Completion (option NewRange) * State :=
  onLineForRow (row position)
    (λ line st1,
       let g := grammar st1 in
       let scopes := scopeForId g <$> openScopes line in
       let '(tokenIndex, scopes, startColumn, endColumn) :=
         findSpan g (column position) (tags line) 0 scopes 0 None in
       (matches ← selectorMatchesAnyScope selector scopes;
        if negb matches then Normal None
        else
          startColumn ← expandLeft g selector
            (reverse (take tokenIndex (tags line))) scopes startColumn;
          endColumn ← expandRight g selector
            (drop (S tokenIndex) (tags line)) scopes endColumn;
          Normal (Some (MkNewRange (row position) startColumn
                          (row position) endColumn)),
        st1)) st.

(** *** Indentation and folds

    Indent levels are quotients; [tabLength] is a positive integer. *)

Fixpoint indentLengthOf (tabLength : Z) (chars : string) (indentLength : Z) : Z :=
  match chars with
  | EmptyString => indentLength
  | String char chars' =>
      if Ascii.eqb char "009"%char
      then indentLengthOf tabLength chars'
             (indentLength + (tabLength - Z.rem indentLength tabLength))
      else if Ascii.eqb char " "%char
      then indentLengthOf tabLength chars' (indentLength + 1)
      else indentLength
  end.

Definition indentLevelForLine (line : option string) (tabLength : Z)
    : Completion Q :=
  match line with
  | None => Throw TypeError
  | Some chars =>
      Normal (inject_Z (indentLengthOf tabLength chars 0) / inject_Z tabLength)%Q
  end.

Definition isEmptyLine (line : option string) : bool :=
  match line with
  | Some EmptyString => true
  | _ => false
  end.

Definition ceil (q : Q) : Q := inject_Z (Qceiling q).

(** [while (nextRow < lineCount)], with the turns left to [lineCount]. *)
Fixpoint indentOfNextLine (turns : nat) (nextRow : Z) (st : State)
    (indentLevel : Q) : Completion Q :=
  match turns with
  | O => Normal indentLevel
  | S turns' =>
      let nextLine := TextBuffer.lineForRow (buffer st) nextRow in
      if negb (isEmptyLine nextLine)
      then level ← indentLevelForLine nextLine (tabLength st); Normal (ceil level)
      else indentOfNextLine turns' (nextRow + 1) st indentLevel
  end.

(** [while (previousRow >= 0)], with the turns left to row 0. *)
Fixpoint indentOfPreviousLine (turns : nat) (previousRow : Z) (st : State)
    (indentLevel : Q) : Completion Q :=
  match turns with
  | O => Normal indentLevel
  | S turns' =>
      let previousLine := TextBuffer.lineForRow (buffer st) previousRow in
      if negb (isEmptyLine previousLine)
      then level ← indentLevelForLine previousLine (tabLength st);
           Normal (Qmax (ceil level) indentLevel)
      else indentOfPreviousLine turns' (previousRow - 1) st indentLevel
  end.

Definition indentLevelForRow (bufferRow : Z) (st : State) : Completion Q :=
  let line := TextBuffer.lineForRow (buffer st) bufferRow in
  if isEmptyLine line then
    indentLevel ← indentOfNextLine
      (Z.to_nat (getLineCount st - (bufferRow + 1))) (bufferRow + 1) st 0%Q;
    indentOfPreviousLine (Z.to_nat bufferRow) (bufferRow - 1) st indentLevel
  else indentLevelForLine line (tabLength st).

(** The three tests of the inner [if] have no effect; [nextRow == null]
    is taken first. *)
Definition isFoldableCodeAtRow (row : Z) (st : State) : Completion bool :=
  if (row >=? 0) && (row <=? TextBuffer.getLastRow (buffer st)) then
    let nextRow := TextBuffer.nextNonBlankRow (buffer st) row in
    let tokenizedLine := JsArray.get (tokenizedLines st) row in
    match nextRow with
    | None => Normal false
    | Some next =>
        if TextBuffer.isRowBlank (buffer st) row ||
           from_option isComment false tokenizedLine
        then Normal false
        else
          ofNext ← indentLevelForRow next st;
          ofRow ← indentLevelForRow row st;
          Normal (if Qlt_le_dec ofRow ofNext then true else false)
    end
  else Normal false.

End Queries.

(** ** The store of arrays

    In the program a scope stack is an array object: [openScopes] of a
    line, the argument [startingScopes] and the result of
    [scopesFromTags] are references, and [push] and [pop] change the
    array in place. [Heap] models the references: a store from locations
    to the elements of the array at that location. *)
Module Heap.
Section Heap.
Context `{Platform}.

Definition loc := positive.

(** [a.slice()]: a new array with the elements of [a] *)
Definition slice (a : loc) (σ : gmap loc (list Z))
    : option (loc * gmap loc (list Z)) :=
  elems ← σ !! a;
  let fresh_loc := fresh (dom σ) in
  Some (fresh_loc, <[fresh_loc := elems]> σ).

(** [a.push(v)] *)
Definition push (a : loc) (v : Z) (σ : gmap loc (list Z)) : gmap loc (list Z) :=
  alter (λ elems, elems ++ [v]) a σ.

(** [a.pop()]: the last element, or [undefined] *)
Definition pop (a : loc) (σ : gmap loc (list Z))
    : option Z * gmap loc (list Z) :=
  match σ !! a with
  | Some elems => (last elems, <[a := removelast elems]> σ)
  | None => (None, σ)
  end.

(** [a.length] *)
Definition length (a : loc) (σ : gmap loc (list Z)) : Z :=
  match σ !! a with
  | Some elems => Z.of_nat (List.length elems)
  | None => 0
  end.

(** The inner [while (true)] of [scopesFromTags]. *)
Fixpoint popLoop (fuel : nat) (scopes : loc) (matchingStartTag tag : Z)
    (σ : gmap loc (list Z)) (st : State) : option (gmap loc (list Z) * State) :=
  match fuel with
  | O => None
  | S fuel' =>
      let '(popped, σ1) := pop scopes σ in
      if bool_decide (popped = Some matchingStartTag) then Some (σ1, st)
      else if length scopes σ1 =? 0 then Some (σ1, reportUnmatched tag st)
      else popLoop fuel' scopes matchingStartTag tag σ1 st
  end.

(** The [for] loop of [scopesFromTags]. Every turn of the inner loop
    pops, so the length of the stack bounds its turns. *)
Fixpoint foldTags (tags : list Z) (scopes : loc)
    (σ : gmap loc (list Z)) (st : State) : option (gmap loc (list Z) * State) :=
  match tags with
  | [] => Some (σ, st)
  | tag :: tags' =>
      if tag <? 0 then
        if Z.rem tag 2 =? -1 then foldTags tags' scopes (push scopes tag σ) st
        else
          let matchingStartTag := tag + 1 in
          '(σ1, st1) ←
            popLoop (S (Z.to_nat (length scopes σ))) scopes matchingStartTag tag σ st;
          foldTags tags' scopes σ1 st1
      else foldTags tags' scopes σ st
  end.

Definition scopesFromTags (startingScopes : loc) (tags : list Z)
    (σ : gmap loc (list Z)) (st : State)
    : option (loc * gmap loc (list Z) * State) :=
  '(scopes, σ1) ← slice startingScopes σ;
  '(σ2, st1) ← foldTags tags scopes σ1 st;
  Some (scopes, σ2, st1).

End Heap.
End Heap.


(** ** Statements used by the properties *)
Section Statements.
Context `{Platform}.

(** The fields that tokenizing and folding never write. *)
Definition schedule (st : State) :=
  (alive st, buffer st, tabLength st, largeFileMode st, grammar st,
   invalidRows st, fullyTokenized st, visible st, pendingChunk st,
   chunkSize st, changeCount st, emitted st, deferred st,
   fullyTokenizedWrites st).

(** What the failed assertion carries. *)
Definition unmatchedFailure (st : State) (close : Z) : AssertionFailure :=
  {| message := "Encountered an unmatched scope end tag.";
     grammarScopeName := scopeName (grammar st);
     unmatchedEndTag := scopeForId (grammar st) close;
     privateMetadataDescription :=
       "The contents of `" +:+
       basename (TextBuffer.getPath (buffer st)) +:+ "`";
     filePath := TextBuffer.getPath (buffer st);
     fileContents := TextBuffer.getText (buffer st) |}.

(** What the specification asks of an unmatched close: the fold of the
    line stops there, with the stack empty. *)
Definition stopsAtUnmatchedClose : Prop :=
  ∀ (st : State) (startingScopes before after : list Z) (close : Z),
    close < 0 → Z.rem close 2 ≠ -1 →
    (close + 1) ∉ (scopesFromTags startingScopes before st).1 →
    (scopesFromTags startingScopes (before ++ close :: after) st).1 = [].

(** *** The background chunk as a relation

    [regions rowsRemaining st st'] follows the outer loop of
    [tokenizeNextChunk] from [st] to the state [st'] at its exit. *)
Inductive regions : Z → State → State → Prop :=
| regions_exit rowsRemaining st :
    invalidRows st = [] ∨ rowsRemaining <= 0 →
    regions rowsRemaining st st
| regions_skip rowsRemaining st startRow rest st' :
    invalidRows st = startRow :: rest →
    0 < rowsRemaining →
    getLastRow st < startRow →
    regions rowsRemaining (with_invalidRows rest st) st' →
    regions rowsRemaining st st'
| regions_tokenize rowsRemaining st startRow rest
      endRow filledRegion rowsRemaining' st2 st' :
    invalidRows st = startRow :: rest →
    0 < rowsRemaining →
    startRow <= getLastRow st →
    tokenizeRows (S (Z.to_nat (getLastRow st - startRow))) (getLastRow st)
      startRow rowsRemaining (with_invalidRows rest st)
    = Some (endRow, filledRegion, rowsRemaining', st2) →
    regions rowsRemaining'
      (emit (DidInvalidateRange startRow (endRow + 1))
         (if negb filledRegion
          then invalidateRow (endRow + 1) (validateRow endRow st2)
          else validateRow endRow st2))
      st' →
    regions rowsRemaining st st'.

(** How far an invalid row is from the end of the buffer, and the sum
    over the invalid rows: what is left to do. *)
Definition rowWeight (lastRow r : Z) : nat :=
  Z.to_nat (Z.max 1 (lastRow + 2 - r)).

Definition pending (st : State) : nat :=
  sum_list_with (rowWeight (getLastRow st)) (invalidRows st).

(** [n] invocations of [tokenizeNextChunk], one after the other. *)
Fixpoint tokenizeChunks (n : nat) (st : State) : option State :=
  match n with
  | O => Some st
  | S n' => st1 ← tokenizeNextChunk st; tokenizeChunks n' st1
  end.

(** The rows that an invocation gave to the grammar. *)
Definition tokenizedBy (st st' : State) (rows : list Z) : Prop :=
  tokenizeCalls st' = tokenizeCalls st ++ rows.

(** What the specification asks of one invocation: when an invalid row
    exists, an invalid row is tokenized. *)
Definition everyChunkTokenizesAnInvalidRow : Prop :=
  ∀ (st st1 : State),
    0 < chunkSize st →
    invalidRows st ≠ [] →
    tokenizeNextChunk st = Some st1 →
    ∃ r rows, r ∈ invalidRows st ∧ tokenizedBy st st1 (r :: rows).

(** *** Sequences of scheduler operations *)
Inductive SchedulerCall :=
| CallInvalidateRow (row : Z)
| CallValidateRow (row : Z)
| CallUpdateInvalidRows (start end' delta : Z)
| CallTokenizeNextChunk.

Definition callScheduler (c : SchedulerCall) (st : State) : option State :=
  match c with
  | CallInvalidateRow row => Some (invalidateRow row st)
  | CallValidateRow row => Some (validateRow row st)
  | CallUpdateInvalidRows start end' delta =>
      Some (updateInvalidRows start end' delta st)
  | CallTokenizeNextChunk => tokenizeNextChunk st
  end.

Fixpoint callsScheduler (cs : list SchedulerCall) (st : State) : option State :=
  match cs with
  | [] => Some st
  | c :: cs' => st1 ← callScheduler c st; callsScheduler cs' st1
  end.

(** [bufferDidChange] calls [updateInvalidRows] with the rows of an
    edit: the old range is [start..end], the new one [start..end + delta]. *)
Definition rowsOfAnEdit (c : SchedulerCall) : Prop :=
  match c with
  | CallUpdateInvalidRows start end' delta =>
      start <= end' ∧ start <= end' + delta
  | _ => True
  end.

(** What the specification asks of [invalidRows]. *)
Definition invalidRowsShape (st : State) : Prop :=
  Sorted Z.le (invalidRows st)
  ∧ NoDup (invalidRows st)
  ∧ Forall (λ r, r < getLineCount st) (invalidRows st).

Definition invalidRowsShapeIsKept : Prop :=
  ∀ (cs : list SchedulerCall) (st st' : State),
    invalidRowsShape st → callsScheduler cs st = Some st' →
    invalidRowsShape st'.

End Statements.

Section QueryStatements.
Context `{LineMethods}.

(** The placeholder line that [tokenizedLineForRow] makes for a row
    whose text is [chars]. *)
Definition placeholderLine (st : State) (bufferRow : Z) (chars : string)
    : TokenizedLine :=
  {| openScopes := [];
     text := Some chars;
     tags := [startIdForScope (grammar st) (scopeName (grammar st));
              Z.of_nat (String.length chars);
              endIdForScope (grammar st) (scopeName (grammar st))];
     ruleStack := StackUndefined;
     lineEnding := TextBuffer.lineEndingForRow (buffer st) bufferRow |}.

(** What the specification asks of a placeholder: its one span has a
    positive length. *)
Definition placeholderSpanIsPositive : Prop :=
  ∀ (st : State) (bufferRow : Z),
    0 <= bufferRow <= getLastRow st →
    JsArray.get (tokenizedLines st) bufferRow = None →
    ∃ line st' span,
      tokenizedLineForRow bufferRow st = (Normal (Some line), st')
      ∧ tags line = [startIdForScope (grammar st) (scopeName (grammar st));
                     span;
                     endIdForScope (grammar st) (scopeName (grammar st))]
      ∧ 0 < span.

Definition raises {A} (result : Completion A * State) : Prop :=
  ∃ e, result.1 = Throw e.

(** What the specification asks of the queries at a row outside
    [0, lastRow]: nothing is returned and nothing is raised. *)
Definition outOfRangeQueriesAreQuiet : Prop :=
  ∀ (st : State) (selector : string) (position : Point),
    row position < 0 ∨ getLastRow st < row position →
    (tokenizedLineForRow (row position) st).1 = Normal None
    ∧ ¬ raises (tokenForPosition position st)
    ∧ ¬ raises (tokenStartPositionForPosition position st)
    ∧ ¬ raises (bufferRangeForScopeAtPosition selector position st)
    ∧ isFoldableCodeAtRow (row position) st = Normal false.

End QueryStatements.

Section Executions.
Context `{Platform}.

(** What the specification asks of [retokenizeLines] in large-file mode
    or with the null grammar. *)
Definition retokenizeLinesCompletesAtOnce : Prop :=
  ∀ (st : State),
    largeFileMode st = true ∨ isNullGrammar st = true →
    fullyTokenized (retokenizeLines st) = true
    ∧ invalidRows (retokenizeLines st) = [].

(** The edits [edits], first one first. *)
Definition bufferDidChanges (edits : list ChangeEvent) (st : State) : State :=
  foldl (λ st e, bufferDidChange e st) st edits.

(** *** Executions

    The operations that write instance fields, called in any order. *)
Inductive Call :=
| CallSetGrammar (g : Grammar)
| CallRetokenizeLines
| CallSetVisible (v : bool)
| CallTokenizeInBackground
| CallDeferredChunk
| CallMarkTokenizationComplete
| CallBufferDidChange (e : ChangeEvent)
| CallTokenizedLineForRow (bufferRow : Z)
| CallDestroy
| CallScheduler (c : SchedulerCall).

Definition perform (c : Call) (st : State) : option State :=
  match c with
  | CallSetGrammar g => Some (setGrammar g st)
  | CallRetokenizeLines => Some (retokenizeLines st)
  | CallSetVisible v => Some (setVisible v st)
  | CallTokenizeInBackground => Some (tokenizeInBackground st)
  | CallDeferredChunk => deferredChunk st
  | CallMarkTokenizationComplete => Some (markTokenizationComplete st)
  | CallBufferDidChange e => Some (bufferDidChange e st)
  | CallTokenizedLineForRow bufferRow => Some (tokenizedLineForRow bufferRow st).2
  | CallDestroy => Some (destroy st)
  | CallScheduler c => callScheduler c st
  end.

Fixpoint performAll (cs : list Call) (st : State) : option State :=
  match cs with
  | [] => Some st
  | c :: cs' => st1 ← perform c st; performAll cs' st1
  end.

(** The number of times that a sequence of assignments to a flag takes
    it from [false] to [true]; [previous] is the value before the
    first assignment. *)
Fixpoint risingEdges (previous : bool) (writes : list bool) : nat :=
  match writes with
  | [] => 0
  | w :: writes' =>
      (if negb previous && w then 1 else 0) + risingEdges w writes'
  end.

Definition didTokenizeCount (st : State) : nat :=
  count_occ Event_eq_dec (emitted st) DidTokenize.

(** The flag is the last value assigned to it, and [did-tokenize] was
    emitted once for each of its changes from [false] to [true]. *)
Definition tracked (st : State) : Prop :=
  fullyTokenized st = default false (last (fullyTokenizedWrites st))
  ∧ didTokenizeCount st = risingEdges false (fullyTokenizedWrites st).

End Executions.

(** ** More of the class *)
Section MoreQueries.
Context `{LineMethods}.

(** The [for] loop of [tokenizedLinesForRows], over the rows left. *)
Fixpoint pushLinesForRows (rows : list Z) (result : list (option TokenizedLine))
    (st : State) : Completion (list (option TokenizedLine)) * State :=
  match rows with
  | [] => (Normal result, st)
  | row :: rows' =>
      match tokenizedLineForRow row st with
      | (Normal line, st1) => pushLinesForRows rows' (result ++ [line]) st1
      | (Throw e, st1) => (Throw e, st1)
      end
  end.

Definition tokenizedLinesForRows (startRow endRow : Z) (st : State)
    : Completion (list (option TokenizedLine)) * State :=
  pushLinesForRows (seqZ startRow (endRow - startRow + 1)) [] st.

(** [a && b] on a line that may be missing: [undefined] when it is. *)
Definition commentAt (st : State) (row : Z) : option bool :=
  isComment <$> JsArray.get (tokenizedLines st) row.

(** The value of the conjunction of [isFoldableCommentAtRow]:
    a boolean, or [undefined] ([None]) when the line of [row], or of
    the next row, is missing. *)
Definition isFoldableCommentAtRow (row : Z) (st : State) : option bool :=
  let previousRow := row - 1 in
  let nextRow := row + 1 in
  if negb (default false (commentAt st previousRow)) then
    match commentAt st row with
    | Some true => commentAt st nextRow
    | other => other
    end
  else Some false.

(** [a || b]: [b] when [a] is [false]. *)
Definition isFoldableAtRow (row : Z) (st : State) : Completion (option bool) :=
  foldableCode ← isFoldableCodeAtRow row st;
  Normal (if (foldableCode : bool) then Some true
          else isFoldableCommentAtRow row st).

End MoreQueries.

Section ClassNames.
Context `{Platform}.

(** [toFirstMateScopeId] of [first-mate-helpers.js], which is not in
    the file. *)
Variable toFirstMateScopeId : Z → Z.

(** [scope.replace(/\./g, ' syntax--')] *)
Fixpoint replaceDots (scope : string) : string :=
  match scope with
  | EmptyString => EmptyString
  | String c scope' =>
      if Ascii.eqb c "."%char then " syntax--" +:+ replaceDots scope'
      else String c (replaceDots scope')
  end.

Definition prefixed (scope : string) : string :=
  "syntax--" +:+ replaceDots scope.

(** A string in a condition: the empty string is falsy. *)
Definition nonEmpty (s : string) : bool :=
  match s with
  | EmptyString => false
  | _ => true
  end.

(** [classNameForScopeId], with the map [prefixedScopes] of the module
    as a state of its own: the class name or [null], and the map. *)
Definition classNameForScopeId (id : Z) (st : State)
    (prefixedScopes : gmap string string)
    : option string * gmap string string :=
  match scopeForId (grammar st) (toFirstMateScopeId id) with
  | Some scope =>
      if nonEmpty scope then
        match prefixedScopes !! scope with
        | Some prefixedScope =>
            if nonEmpty prefixedScope then (Some prefixedScope, prefixedScopes)
            else (Some (prefixed scope), <[scope := prefixed scope]> prefixedScopes)
        | None =>
            (Some (prefixed scope), <[scope := prefixed scope]> prefixedScopes)
        end
      else (None, prefixedScopes)
  | None => (None, prefixedScopes)
  end.

End ClassNames.

Section Construction.
Context `{Platform}.

(** The constructor, for the fields of [State]: the assignments, then
    [setGrammar] of the grammar given ([params.grammar || NullGrammar]),
    which is not yet [this.grammar]. The fields that the constructor
    does not assign are [undefined], which reads as [false], as no
    array and as no count; [chunkSize] is the constant that the file
    reads and does not assign. The [id], the emitter and the
    registration with the buffer are not fields of [State]. *)
Definition construct (buffer : TextBuffer.t) (tabLength : Z)
    (largeFileMode : bool) (g : Grammar) (chunkSize : Z) : State :=
  setGrammar g
    {| alive := true;
       buffer := buffer;
       tabLength := tabLength;
       largeFileMode := largeFileMode;
       grammar := g;
       tokenizedLines := JsArray.create 0;
       invalidRows := [];
       fullyTokenized := false;
       visible := false;
       pendingChunk := false;
       chunkSize := chunkSize;
       changeCount := 0;
       emitted := [];
       assertions := [];
       deferred := 0;
       tokenizeCalls := [];
       fullyTokenizedWrites := [] |}.

(** The deferred callbacks, run one after the other while one is
    queued, [n] at most. *)
Fixpoint runDeferred (n : nat) (st : State) : option State :=
  match n with
  | O => Some st
  | S n' =>
      match deferred st with
      | O => Some st
      | S _ => st1 ← deferredChunk st; runDeferred n' st1
      end
  end.

(** *** Tokenizing the buffer in one pass

    The line of each row, built from the rule stack and the scopes
    that the line before it leaves; the first row starts with no stack
    and no scope. [tokenizedUpTo n] lists the lines of the rows before
    [n], the last row first. *)
Definition lineAfter (st : State) (row : Z) (stack : StackVal)
    (scopes : list Z) : TokenizedLine :=
  let '(tags, ruleStack) :=
    tokenizeLine (grammar st) (TextBuffer.lineForRow (buffer st) row)
      stack (row =? 0) in
  {| openScopes := scopes;
     text := TextBuffer.lineForRow (buffer st) row;
     tags := tags;
     ruleStack := ruleStack;
     lineEnding := TextBuffer.lineEndingForRow (buffer st) row |}.

Fixpoint tokenizedUpTo (st : State) (n : nat) : list TokenizedLine :=
  match n with
  | O => []
  | S n' =>
      match tokenizedUpTo st n' with
      | [] => [lineAfter st 0 StackUndefined []]
      | previous :: earlier =>
          lineAfter st (Z.of_nat n') (ruleStack previous)
            (scopesFromTags (openScopes previous) (tags previous) st).1
          :: previous :: earlier
      end
  end.

(** The line of [row] in the one-pass tokenization. *)
Definition onePassLine (st : State) (row : Z) : option TokenizedLine :=
  if row <? 0 then None else head (tokenizedUpTo st (S (Z.to_nat row))).

End Construction.

(** ** Statements used by the further properties *)
Section MoreStatements.
Context `{Platform}.

(** Tag streams in which every scope that is opened is closed, in
    order: spans, and pairs of a start tag (odd, negative) and its end
    tag (the start tag minus one) around such a stream. *)
Inductive wellNested : list Z → Prop :=
| wellNested_nil : wellNested []
| wellNested_span span rest :
    0 <= span → wellNested rest → wellNested (span :: rest)
| wellNested_scope startTag inner rest :
    startTag < 0 → Z.rem startTag 2 = -1 →
    wellNested inner → wellNested rest →
    wellNested (startTag :: inner ++ (startTag - 1) :: rest).

Definition isWhitespace (c : ascii) : bool :=
  Ascii.eqb c "009"%char || Ascii.eqb c " "%char.

(** [n] copies of a character. *)
Fixpoint repeated (c : ascii) (n : nat) : string :=
  match n with
  | O => EmptyString
  | S n' => String c (repeated c n')
  end.

(** The number of tabs and spaces that a line starts with. *)
Fixpoint leadingWhitespace (chars : string) : nat :=
  match chars with
  | EmptyString => O
  | String c chars' =>
      if isWhitespace c then S (leadingWhitespace chars') else O
  end.

(** The columns of a tag stream: the sum of its spans. *)
Fixpoint spanTotal (tags : list Z) : Z :=
  match tags with
  | [] => 0
  | tag :: tags' => if tag <? 0 then spanTotal tags' else tag + spanTotal tags'
  end.

(** The test of [tokenizedLineForRow] and [isFoldableCodeAtRow]: [row]
    is a row of the buffer. *)
Definition inBuffer (st : State) (row : Z) : bool :=
  (row >=? 0) && (row <=? TextBuffer.getLastRow (buffer st)).

(** The lines that [st] has in its cache are in the cache of [st'],
    for the same buffer and grammar. *)
Definition cacheGrows (st st' : State) : Prop :=
  buffer st' = buffer st ∧ grammar st' = grammar st
  ∧ ∀ row line,
      JsArray.get (tokenizedLines st) row = Some line →
      JsArray.get (tokenizedLines st') row = Some line.

(** The cache of [st] has the one-pass lines of [ref] at the rows
    before [k], and nothing at any other index. *)
Definition tokenizedThrough (ref st : State) (k : Z) : Prop :=
  buffer st = buffer ref ∧ grammar st = grammar ref
  ∧ (∀ r, 0 <= r < k →
       JsArray.get (tokenizedLines st) r = onePassLine ref r)
  ∧ (∀ r, r < 0 ∨ k <= r → JsArray.get (tokenizedLines st) r = None).

(** A first tokenization under way: the rows before [k] are done, and
    [k] is the one invalid row, until no row is left. *)
Definition firstPass (ref st : State) : Prop :=
  ∃ k, 0 <= k <= getLineCount ref
    ∧ tokenizedThrough ref st k
    ∧ (invalidRows st = [k]
       ∨ (invalidRows st = [] ∧ k = getLineCount ref))
    ∧ tokenizeCalls st = tokenizeCalls ref ++ seqZ 0 k.

(** The cache of [st] is up to date: every row of the buffer has its
    line of the one-pass tokenization of [ref]. *)
Definition upToDate (ref st : State) : Prop :=
  buffer st = buffer ref ∧ grammar st = grammar ref
  ∧ JsArray.get (tokenizedLines st) (-1) = None
  ∧ ∀ r, 0 <= r <= getLastRow ref →
      JsArray.get (tokenizedLines st) r = onePassLine ref r.

(** The two caches hold the same lines. *)
Definition sameLines (st st' : State) : Prop :=
  ∀ r, JsArray.get (tokenizedLines st') r = JsArray.get (tokenizedLines st) r.

(** No line of the one-pass tokenization ends with the rule stack
    [undefined]. *)
Definition stacksDefined (ref : State) : Prop :=
  Forall (λ line, ruleStack line ≠ StackUndefined)
    (tokenizedUpTo ref (Z.to_nat (getLineCount ref))).

(** At most one callback is queued, and [pendingChunk] says whether
    one is. *)
Definition debounced (st : State) : Prop :=
  deferred st = if pendingChunk st then 1%nat else 0%nat.

(** The rows that the [did-invalidate-range] events of a list
    announce: the rows from the start of each range to the row before
    its end. *)
Definition rowsOfEvent (e : Event) : list Z :=
  match e with
  | DidInvalidateRange startRow endRow => seqZ startRow (endRow - startRow)
  | _ => []
  end.

Definition rowsAnnounced (events : list Event) : list Z :=
  events ≫= rowsOfEvent.

(** What is announced by a chunk: ranges of rows of the buffer, not
    empty. *)
Definition announcesRows (st : State) (e : Event) : Prop :=
  match e with
  | DidInvalidateRange startRow endRow =>
      startRow < endRow <= getLineCount st
  | DidTokenize => True
  | DidChangeGrammar => False
  end.

(** A direct call of [invalidateRow], which the class makes from its
    own methods only. *)
Definition invalidatesDirectly (c : Call) : bool :=
  match c with
  | CallScheduler (CallInvalidateRow _) => true
  | _ => false
  end.

(** Every class name in the map of the module is the one that
    [classNameForScopeId] computes for its scope. *)
Definition prefixesCached (prefixedScopes : gmap string string) : Prop :=
  ∀ scope prefixedScope,
    prefixedScopes !! scope = Some prefixedScope →
    prefixedScope = prefixed scope.

End MoreStatements.

(** ** A concrete instance

    A grammar with one nested scope, block comments opened by the line
    [/*] and closed by the line [*/], and small buffers. *)
Module Examples.

Definition platform : Platform :=
  {| RuleStack := nat; basename := λ path, path |}.

#[local] Existing Instance platform.

Definition rootScope : string := "source.example".
Definition commentScope : string := "comment.block.example".

(** The rule stack is the nesting depth; a line that starts without a
    stack starts at depth 0. *)
Definition exampleTokenizeLine (text : option string) (stack : StackVal)
    (firstLine : bool) : list Z * StackVal :=
  let depth := match stack with StackOf d => d | _ => O end in
  let opening := if firstLine then [-1] else [] in
  let chars := default EmptyString text in
  let span := Z.of_nat (String.length chars) in
  if String.eqb chars "/*" then (opening ++ [-3; span], StackOf (S depth))
  else if String.eqb chars "*/" then (opening ++ [span; -4], StackOf (pred depth))
  else (opening ++ [span], StackOf depth).

Definition exampleScopeForId (id : Z) : option string :=
  if (id =? -1) || (id =? -2) then Some rootScope
  else if (id =? -3) || (id =? -4) then Some commentScope
  else None.

Definition exampleGrammar : Grammar :=
  {| name := "Example";
     scopeName := rootScope;
     tokenizeLine := exampleTokenizeLine;
     scopeForId := exampleScopeForId;
     startIdForScope := λ scope, if String.eqb scope rootScope then -1 else -3;
     endIdForScope := λ scope, if String.eqb scope rootScope then -2 else -4 |}.

Definition nullGrammar : Grammar :=
  {| name := "Null Grammar";
     scopeName := "text.plain.null-grammar";
     tokenizeLine := λ text _ _,
       ([-1; Z.of_nat (String.length (default EmptyString text)); -2], StackNull);
     scopeForId := λ id,
       if (id =? -1) || (id =? -2) then Some "text.plain.null-grammar" else None;
     startIdForScope := λ _, -1;
     endIdForScope := λ _, -2 |}.

Definition newline : string := String "010"%char EmptyString.

Definition bufferOf (lines : list string) : TextBuffer.t :=
  {| TextBuffer.lines := lines;
     TextBuffer.lineEndings :=
       replicate (pred (length lines)) newline ++ [EmptyString];
     TextBuffer.path := "/tmp/example.txt";
     TextBuffer.alive := true;
     TextBuffer.changeCount := 0;
     TextBuffer.isRowBlank := λ row,
       bool_decide (lines !! Z.to_nat row = Some EmptyString);
     TextBuffer.nextNonBlankRow := λ row,
       (λ offset, row + 1 + Z.of_nat offset) <$>
         (fst <$> list_find (λ line, line ≠ EmptyString)
                    (drop (Z.to_nat (row + 1)) lines)) |}.

(** The fields after [retokenizeLines] on a live, visible instance,
    with [invalidRows] as given. *)
Definition stateOf (g : Grammar) (lines : list string) (chunkSize : Z)
    (invalidRows : list Z) : State :=
  {| alive := true;
     buffer := bufferOf lines;
     tabLength := 2;
     largeFileMode := false;
     grammar := g;
     tokenizedLines := JsArray.create (Z.of_nat (length lines));
     invalidRows := invalidRows;
     fullyTokenized := false;
     visible := true;
     pendingChunk := false;
     chunkSize := chunkSize;
     changeCount := 0;
     emitted := [];
     assertions := [];
     deferred := 0;
     tokenizeCalls := [];
     fullyTokenizedWrites := [false] |}.

Definition commentBuffer : list string := ["/*"; "foo"; "*/"; "bar"].

(** The range from the start of row [startRow] to the start of the
    row [more] rows after it. *)
Definition rangeOf (startRow more : nat) : Range :=
  {| start := {| row := Z.of_nat startRow; column := 0 |};
     end' := {| row := Z.of_nat (startRow + more); column := 0 |};
     ordered := proj2 (Z.leb_le _ _) (inj_le _ _ (Nat.le_add_r startRow more)) |}.

(** The comment buffer, tokenized by three chunks of two rows. *)
Definition tokenized : State :=
  default (stateOf exampleGrammar commentBuffer 2 [0])
    (tokenizeChunks 3 (stateOf exampleGrammar commentBuffer 2 [0])).

(** The same lines in the cache, after the first line of the buffer
    was replaced by [x]. *)
Definition firstLineReplaced : State :=
  with_tokenizedLines (tokenizedLines tokenized)
    (stateOf exampleGrammar ["x"; "foo"; "*/"; "bar"] 2 []).

Definition editOfRow (r : nat) : ChangeEvent :=
  {| oldRange := rangeOf r 0; newRange := rangeOf r 0 |}.

(** A buffer of one line and chunks of one row, after the first
    chunk. *)
Definition oneLineAfterFirstChunk : State :=
  default (stateOf exampleGrammar ["a"] 1 [0])
    (tokenizeNextChunk (stateOf exampleGrammar ["a"] 1 [0])).

(** The fields at the start of the constructor. *)
Definition newInstance : State :=
  {| alive := true;
     buffer := bufferOf commentBuffer;
     tabLength := 2;
     largeFileMode := false;
     grammar := nullGrammar;
     tokenizedLines := JsArray.create 0;
     invalidRows := [];
     fullyTokenized := false;
     visible := false;
     pendingChunk := false;
     chunkSize := 2;
     changeCount := 0;
     emitted := [];
     assertions := [];
     deferred := 0;
     tokenizeCalls := [];
     fullyTokenizedWrites := [] |}.

Definition lineMethods : LineMethods :=
  {| Token := Z;
     isComment := λ line, bool_decide (-3 ∈ tags line ∨ -3 ∈ openScopes line);
     tokenAtBufferColumn := λ line column, column;
     tokenStartColumnForBufferColumn := λ line column, 0 |}.

End Examples.


(** ** Further instances *)
Module MoreExamples.

#[local] Existing Instance Examples.platform.
#[local] Existing Instance Examples.lineMethods.

(** The comment buffer after [retokenizeLines], visible, with its
    first chunk queued. *)
Definition queued : State :=
  tokenizeInBackground
    (Examples.stateOf Examples.exampleGrammar Examples.commentBuffer 2 [0]).

(** A new instance on the comment buffer in large-file mode. *)
Definition largeFile : State :=
  construct (Examples.bufferOf Examples.commentBuffer) 2 true
    Examples.exampleGrammar 2.

(** A live instance on the comment buffer, before [retokenizeLines]. *)
Definition fresh : State :=
  Examples.stateOf Examples.exampleGrammar Examples.commentBuffer 2 [].

(** A tag stream with a comment scope inside the root scope. *)
Definition nestedTags : list Z := [-1; 3; -3; 2; -4; -2].

(** The map of the module after the class name of the root scope was
    asked for. *)
Definition oneClassName : gmap string string :=
  {[ Examples.rootScope := prefixed Examples.rootScope ]}.

(** The comment buffer, tokenized, with rows made invalid again. *)
Definition rowInvalidated : State :=
  with_invalidRows [1] Examples.tokenized.

Definition rowsInvalidated : State :=
  with_invalidRows [1; 3] Examples.tokenized.

End MoreExamples.
(** * Properties *)

(** ** What an operation leaves alone *)
Section Frames.
Context `{Platform}.


Lemma reportUnmatched_schedule tag st :
  schedule (reportUnmatched tag st) = schedule st.
Proof. reflexivity. Qed.

Lemma foldTags_schedule tags : ∀ scopes st,
  schedule (foldTags tags scopes st).2 = schedule st
  ∧ tokenizedLines (foldTags tags scopes st).2 = tokenizedLines st
  ∧ tokenizeCalls (foldTags tags scopes st).2 = tokenizeCalls st.
Proof.
  induction tags as [|tag tags IH]; intros scopes st; simpl; [done|].
  destruct (tag <? 0); [|apply IH].
  destruct (Z.rem tag 2 =? -1); [apply IH|].
  destruct (popUntil (tag + 1) scopes) as [scopes' unmatched].
  destruct unmatched; [|apply IH].
  destruct (IH scopes' (reportUnmatched tag st)) as (-> & -> & ->). done.
Qed.

Lemma foldTags_app tags1 tags2 scopes st :
  foldTags (tags1 ++ tags2) scopes st =
  foldTags tags2 (foldTags tags1 scopes st).1 (foldTags tags1 scopes st).2.
Proof.
  revert scopes st.
  induction tags1 as [|tag tags1 IH]; intros scopes st; simpl; [done|].
  destruct (tag <? 0); [|apply IH].
  destruct (Z.rem tag 2 =? -1); [apply IH|].
  destruct (popUntil (tag + 1) scopes) as [scopes' unmatched]. apply IH.
Qed.

Lemma unwind_absent matchingStartTag fromTop :
  matchingStartTag ∉ fromTop → unwind matchingStartTag fromTop = ([], true).
Proof.
  induction fromTop as [|top below IH]; intros Habsent; simpl; [done|].
  apply not_elem_of_cons in Habsent as [Hne Hbelow].
  destruct (Z.eqb_spec top matchingStartTag) as [->|_]; [done|].
  destruct below; [done|]. by apply IH.
Qed.

Lemma popUntil_absent matchingStartTag scopes :
  matchingStartTag ∉ scopes → popUntil matchingStartTag scopes = ([], true).
Proof.
  intros Habsent. unfold popUntil.
  rewrite unwind_absent; [done|]. by rewrite elem_of_reverse.
Qed.

Lemma scopesFromTags_schedule startingScopes tags st :
  schedule (scopesFromTags startingScopes tags st).2 = schedule st
  ∧ tokenizedLines (scopesFromTags startingScopes tags st).2 = tokenizedLines st
  ∧ tokenizeCalls (scopesFromTags startingScopes tags st).2 = tokenizeCalls st.
Proof. apply foldTags_schedule. Qed.

Lemma openScopesForRow_schedule bufferRow st :
  schedule (openScopesForRow bufferRow st).2 = schedule st
  ∧ tokenizedLines (openScopesForRow bufferRow st).2 = tokenizedLines st
  ∧ tokenizeCalls (openScopesForRow bufferRow st).2 = tokenizeCalls st.
Proof.
  unfold openScopesForRow.
  destruct (JsArray.get (tokenizedLines st) (bufferRow - 1)); [|done].
  apply scopesFromTags_schedule.
Qed.

End Frames.

(** Splits [schedule st' = schedule st] into the equations of the fields. *)
Ltac fields_of H :=
  unfold schedule in H;
  injection H as ? ? ? ? ? ? ? ? ? ? ? ? ? ?.

(** ** Rebasing invalid rows over an edit *)
Section Rebase.
Context `{Platform}.

Lemma rebasedRow_third_test (start end' row : Z) :
  ¬ row < start → ¬ (start <= row <= end') → row > end'.
Proof. lia. Qed.

(** C4. [updateInvalidRows start end delta] maps the invalid row stored
    at each position to its rebased value: a row before [start] is
    kept, a row of [start..end] becomes [end + delta + 1], a row after
    [end] is moved by [delta]. The rows of an edit have
    [start <= end]. *)
Theorem updateInvalidRows_rebases (start end' delta : Z) (st : State)
    (i : nat) (r : Z) :
  start <= end' →
  invalidRows st !! i = Some r →
  ∃ r', invalidRows (updateInvalidRows start end' delta st) !! i = Some r'
    ∧ (r < start → r' = r)
    ∧ (start <= r <= end' → r' = end' + delta + 1)
    ∧ (r > end' → r' = r + delta).
Proof.
  intros Hrange Hr. exists (rebasedRow start end' delta r). split.
  - simpl. by rewrite list_lookup_fmap, Hr.
  - unfold rebasedRow.
    destruct (Z.ltb_spec r start), (Z.leb_spec start r), (Z.leb_spec r end');
      simpl; repeat split; intros; lia.
Qed.

Lemma updateInvalidRows_length start end' delta st :
  length (invalidRows (updateInvalidRows start end' delta st)) =
  length (invalidRows st).
Proof. simpl. by rewrite length_fmap. Qed.

End Rebase.

(** ** Unmatched scope end tags *)
Section UnmatchedClose.
Context `{Platform}.



(** C2, as the code has it. At a close tag whose start tag is not on
    the stack, [scopesFromTags] pops the stack empty and reports a
    failed assertion with the scope name of the grammar, the scope of
    the close tag, the path and the text of the buffer. It then goes on
    with the tags that follow, from the empty stack: the result is the
    fold of those tags. *)
Theorem scopesFromTags_unmatched_close (st : State)
    (startingScopes before after : list Z) (close : Z) :
  close < 0 → Z.rem close 2 ≠ -1 →
  (close + 1) ∉ (scopesFromTags startingScopes before st).1 →
  let st1 := (scopesFromTags startingScopes before st).2 in
  let reported :=
    with_assertions (assertions st1 ++ [unmatchedFailure st close]) st1 in
  scopesFromTags startingScopes (before ++ [close]) st = ([], reported)
  ∧ scopesFromTags startingScopes (before ++ close :: after) st =
    scopesFromTags [] after reported.
Proof.
  intros Hneg Heven Habsent st1 reported.
  assert (Hstep : ∀ rest,
    foldTags (close :: rest) (scopesFromTags startingScopes before st).1 st1
    = foldTags rest [] reported).
  { intros rest. simpl.
    destruct (Z.ltb_spec close 0); [|lia].
    destruct (Z.eqb_spec (Z.rem close 2) (-1)); [done|].
    rewrite popUntil_absent by done.
    f_equal. unfold reported, reportUnmatched, unmatchedFailure.
    destruct (scopesFromTags_schedule startingScopes before st) as (Hs & _).
    fold st1 in Hs. fields_of Hs. congruence. }
  unfold scopesFromTags in *. split.
  - rewrite foldTags_app. apply (Hstep []).
  - rewrite foldTags_app. apply Hstep.
Qed.

End UnmatchedClose.

(** ** The argument of [scopesFromTags] is not written *)
Section Aliasing.
Context `{Platform}.
Implicit Types (σ : gmap Heap.loc (list Z)) (a scopes : Heap.loc).

Lemma push_stored σ a elems v :
  σ !! a = Some elems → Heap.push a v σ = <[a := elems ++ [v]]> σ.
Proof.
  intros Ha. apply map_eq. intros b. unfold Heap.push.
  destruct (decide (a = b)) as [->|Hne].
  - by rewrite lookup_alter_eq, lookup_insert_eq, Ha.
  - by rewrite lookup_alter_ne, lookup_insert_ne.
Qed.

Lemma popUntil_snoc matchingStartTag below top :
  popUntil matchingStartTag (below ++ [top]) =
  if top =? matchingStartTag then (below, false)
  else match below with
       | [] => ([], true)
       | _ => popUntil matchingStartTag below
       end.
Proof.
  unfold popUntil. rewrite reverse_snoc. simpl.
  destruct (top =? matchingStartTag); [by rewrite reverse_involutive|].
  destruct (reverse below) as [|x l] eqn:Hrev.
  - apply (f_equal reverse) in Hrev. rewrite reverse_involutive in Hrev.
    by subst.
  - by destruct below as [|y below].
Qed.

(** The loop on the store does what [popUntil] does on the elements. *)
Lemma popLoop_popUntil scopes matchingStartTag tag elems : ∀ σ st fuel,
  σ !! scopes = Some elems →
  (length elems < fuel)%nat →
  Heap.popLoop fuel scopes matchingStartTag tag σ st =
  Some (<[scopes := (popUntil matchingStartTag elems).1]> σ,
        if (popUntil matchingStartTag elems).2
        then reportUnmatched tag st else st).
Proof.
  induction elems as [|top below IH] using rev_ind; intros σ st fuel Hσ Hfuel.
  - destruct fuel as [|fuel]; [simpl in Hfuel; lia|].
    simpl. unfold Heap.pop. rewrite Hσ. simpl.
    unfold Heap.length. by rewrite lookup_insert_eq.
  - destruct fuel as [|fuel]; [lia|].
    rewrite length_app in Hfuel. simpl in Hfuel.
    simpl. unfold Heap.pop. rewrite Hσ, last_snoc, removelast_last.
    rewrite popUntil_snoc.
    destruct (Z.eqb_spec top matchingStartTag) as [->|Hne].
    + by rewrite bool_decide_eq_true_2.
    + rewrite bool_decide_eq_false_2 by congruence.
      unfold Heap.length. rewrite lookup_insert_eq.
      destruct below as [|x below]; [done|].
      simpl Z.of_nat. destruct (Z.eqb_spec (Z.of_nat (S (length below))) 0); [lia|].
      rewrite (IH (<[scopes := x :: below]> σ) st fuel).
      * by rewrite insert_insert_eq.
      * by rewrite lookup_insert_eq.
      * simpl in *. lia.
Qed.

Lemma heap_foldTags_foldTags scopes tags : ∀ elems σ st,
  σ !! scopes = Some elems →
  Heap.foldTags tags scopes σ st =
  Some (<[scopes := (foldTags tags elems st).1]> σ, (foldTags tags elems st).2).
Proof.
  induction tags as [|tag tags IH]; intros elems σ st Hσ;
    cbn [Heap.foldTags foldTags].
  - by rewrite insert_id.
  - destruct (tag <? 0); [|by apply IH].
    destruct (Z.rem tag 2 =? -1).
    + rewrite (push_stored _ _ elems) by done.
      rewrite (IH (elems ++ [tag])) by apply lookup_insert_eq.
      by rewrite insert_insert_eq.
    + rewrite (popLoop_popUntil _ _ _ elems).
      * destruct (popUntil (tag + 1) elems) as [elems' unmatched]. simpl.
        rewrite (IH elems') by apply lookup_insert_eq.
        by rewrite insert_insert_eq.
      * done.
      * unfold Heap.length. rewrite Hσ. lia.
Qed.

(** C10. [scopesFromTags] works on a copy: for every store, every
    array [startingScopes] in it and every tag stream, the call returns
    the location of a new array that holds the folded stack; the array
    at [startingScopes] has the elements it had, and so has every other
    array of the store. The folded stack is the one that the fold on
    values computes. *)
Theorem scopesFromTags_keeps_startingScopes σ (startingScopes : Heap.loc)
    (elems tags : list Z) (st : State) :
  σ !! startingScopes = Some elems →
  ∃ scopes σ' st',
    Heap.scopesFromTags startingScopes tags σ st = Some (scopes, σ', st')
    ∧ σ' !! startingScopes = Some elems
    ∧ σ !! scopes = None
    ∧ (∀ a, a ≠ scopes → σ' !! a = σ !! a)
    ∧ σ' !! scopes = Some (scopesFromTags elems tags st).1
    ∧ st' = (scopesFromTags elems tags st).2.
Proof.
  intros Hσ.
  set (scopes := fresh (dom σ)).
  assert (Hfresh : σ !! scopes = None).
  { apply not_elem_of_dom. apply is_fresh. }
  assert (Hne : scopes ≠ startingScopes) by congruence.
  exists scopes, (<[scopes := (scopesFromTags elems tags st).1]> σ),
    (scopesFromTags elems tags st).2.
  split; [|split; [|split; [|split; [|split]]]].
  - unfold Heap.scopesFromTags, Heap.slice. rewrite Hσ. simpl.
    fold scopes.
    rewrite (heap_foldTags_foldTags _ _ elems) by apply lookup_insert_eq.
    simpl. by rewrite insert_insert_eq.
  - by rewrite lookup_insert_ne.
  - done.
  - intros a Ha. by rewrite lookup_insert_ne.
  - by rewrite lookup_insert_eq.
  - done.
Qed.

End Aliasing.

(** ** Queries at a row *)
Section QueryProperties.
Context `{LineMethods}.

Lemma JsArray_get_set {A} (a : JsArray.t A) i j v :
  JsArray.get (JsArray.set a i v) j =
  if decide (i = j) then Some v else JsArray.get a j.
Proof. unfold JsArray.get, JsArray.set. simpl. apply lookup_insert. Qed.

Lemma lineForRow_in_range (b : TextBuffer.t) (bufferRow : Z) :
  0 <= bufferRow <= TextBuffer.getLastRow b →
  ∃ chars, TextBuffer.lineForRow b bufferRow = Some chars.
Proof.
  intros Hrange. unfold TextBuffer.lineForRow.
  destruct (Z.ltb_spec bufferRow 0); [lia|].
  apply lookup_lt_is_Some.
  unfold TextBuffer.getLastRow, TextBuffer.getLineCount in Hrange. lia.
Qed.

Lemma tokenizedLineForRow_out_of_range (st : State) (bufferRow : Z) :
  bufferRow < 0 ∨ getLastRow st < bufferRow →
  tokenizedLineForRow bufferRow st = (Normal None, st).
Proof.
  intros Hout. unfold tokenizedLineForRow, getLastRow in *.
  destruct (Z.geb_spec bufferRow 0),
    (Z.leb_spec bufferRow (TextBuffer.getLastRow (buffer st))); simpl;
    first [done | lia].
Qed.

(** C6, as the code has it. For a row of the buffer, [tokenizedLineForRow]
    returns the cached line and changes nothing when the slot holds
    one. When the slot is empty it returns a new line, stored in the
    slot and in no other: no open scopes, and as tags the start tag of
    the root scope of the grammar, one span that is the length of the
    text of the row, and the end tag of the root scope. The span is
    positive exactly when the text is not empty; for an empty line it
    is 0. *)
Theorem tokenizedLineForRow_placeholder (st : State) (bufferRow : Z) :
  0 <= bufferRow <= getLastRow st →
  match JsArray.get (tokenizedLines st) bufferRow with
  | Some cached =>
      tokenizedLineForRow bufferRow st = (Normal (Some cached), st)
  | None =>
      ∃ chars,
        TextBuffer.lineForRow (buffer st) bufferRow = Some chars
        ∧ let line := placeholderLine st bufferRow chars in
          let st' :=
            with_tokenizedLines
              (JsArray.set (tokenizedLines st) bufferRow line) st in
          tokenizedLineForRow bufferRow st = (Normal (Some line), st')
          ∧ JsArray.get (tokenizedLines st') bufferRow = Some line
          ∧ (∀ other, other ≠ bufferRow →
               JsArray.get (tokenizedLines st') other =
               JsArray.get (tokenizedLines st) other)
          ∧ openScopes line = []
          ∧ tags line =
            [startIdForScope (grammar st) (scopeName (grammar st));
             Z.of_nat (String.length chars);
             endIdForScope (grammar st) (scopeName (grammar st))]
          ∧ (0 < Z.of_nat (String.length chars) ↔ chars ≠ EmptyString)
  end.
Proof.
  intros Hrange. unfold getLastRow in Hrange.
  destruct (JsArray.get (tokenizedLines st) bufferRow) as [cached|] eqn:Hslot.
  - unfold tokenizedLineForRow. rewrite Hslot.
    destruct (Z.geb_spec bufferRow 0),
      (Z.leb_spec bufferRow (TextBuffer.getLastRow (buffer st))); simpl;
      first [done | lia].
  - destruct (lineForRow_in_range (buffer st) bufferRow Hrange) as [chars Hchars].
    exists chars. split; [done|]. cbv zeta.
    split; [|split; [|split; [|split; [|split]]]].
    + unfold tokenizedLineForRow. rewrite Hslot, Hchars.
      destruct (Z.geb_spec bufferRow 0),
        (Z.leb_spec bufferRow (TextBuffer.getLastRow (buffer st))); simpl;
        first [done | lia].
    + simpl. rewrite JsArray_get_set. by rewrite decide_True.
    + intros other Hother. simpl. rewrite JsArray_get_set.
      by rewrite decide_False.
    + done.
    + done.
    + destruct chars; simpl; split; intros; first [done | lia].
Qed.

(** C3, as the code has it. At a row outside [0, lastRow],
    [tokenizedLineForRow] returns nothing and [isFoldableCodeAtRow]
    returns [false]; neither raises and the state is as before.
    [tokenForPosition], [tokenStartPositionForPosition] and
    [bufferRangeForScopeAtPosition] have no test of the row: each uses
    the line that [tokenizedLineForRow] did not return and raises a
    [TypeError]. *)
Theorem queries_out_of_range (st : State) (selector : string)
    (position : Point) :
  row position < 0 ∨ getLastRow st < row position →
  tokenizedLineForRow (row position) st = (Normal None, st)
  ∧ isFoldableCodeAtRow (row position) st = Normal false
  ∧ tokenForPosition position st = (Throw TypeError, st)
  ∧ tokenStartPositionForPosition position st = (Throw TypeError, st)
  ∧ bufferRangeForScopeAtPosition selector position st = (Throw TypeError, st).
Proof.
  intros Hout.
  pose proof (tokenizedLineForRow_out_of_range st (row position) Hout) as Hline.
  split; [done|]. split.
  - unfold isFoldableCodeAtRow, getLastRow in *.
    destruct (Z.geb_spec (row position) 0),
      (Z.leb_spec (row position) (TextBuffer.getLastRow (buffer st))); simpl;
      first [done | lia].
  - unfold tokenForPosition, tokenStartPositionForPosition,
      bufferRangeForScopeAtPosition, onLineForRow.
    by rewrite Hline.
Qed.

End QueryProperties.

(** ** The background chunk *)
Section Chunk.
Context `{Platform}.

Lemma buildTokenizedLineForRow_state row stack scopes (st : State) :
  (buildTokenizedLineForRow row stack scopes st).2 =
  with_tokenizeCalls (tokenizeCalls st ++ [row]) st.
Proof.
  unfold buildTokenizedLineForRow, buildTokenizedLineForRowWithText.
  by destruct (tokenizeLine _ _ _ _).
Qed.

(** The inner loop returns: it leaves at [lastRow] at the latest. *)
Lemma tokenizeRows_returns fuel : ∀ lastRow row rowsRemaining (st : State),
  row <= lastRow →
  (Z.to_nat (lastRow - row) < fuel)%nat →
  ∃ endRow filledRegion rowsRemaining' st',
    tokenizeRows fuel lastRow row rowsRemaining st
    = Some (endRow, filledRegion, rowsRemaining', st')
    ∧ row <= endRow <= lastRow
    ∧ rowsRemaining' = rowsRemaining - (endRow - row + 1)
    ∧ (filledRegion = false ↔ rowsRemaining' = 0)
    ∧ (0 < rowsRemaining → 0 <= rowsRemaining')
    ∧ schedule st' = schedule st
    ∧ tokenizeCalls st' = tokenizeCalls st ++ seqZ row (endRow - row + 1).
Proof.
  induction fuel as [|fuel IH]; intros lastRow row rr st Hrow Hfuel; [lia|].
  cbn [tokenizeRows].
  destruct (openScopesForRow row st) as [scopes st1] eqn:Hopen.
  destruct (openScopesForRow_schedule row st) as (Hs1 & Hl1 & Hc1).
  rewrite Hopen in Hs1, Hl1, Hc1. simpl in Hs1, Hl1, Hc1.
  destruct (buildTokenizedLineForRow row (stackForRow st (row - 1)) scopes st1)
    as [line st2] eqn:Hbuild.
  pose proof (buildTokenizedLineForRow_state row
                (stackForRow st (row - 1)) scopes st1) as Hst2.
  rewrite Hbuild in Hst2. simpl in Hst2. subst st2.
  set (st3 := with_tokenizedLines _ _).
  assert (Hs3 : schedule st3 = schedule st) by (rewrite <- Hs1; done).
  assert (Hc3 : tokenizeCalls st3 = tokenizeCalls st ++ [row])
    by (simpl; by rewrite Hc1).
  destruct (Z.eqb_spec (rr - 1) 0) as [Hzero|Hnonzero].
  { exists row, false, (rr - 1), st3.
    replace (row - row + 1) with 1 by lia.
    repeat split; first [done | lia | idtac]. }
  destruct ((row =? lastRow) || isEqual (stackForRow st3 row) (stackForRow st row))
    eqn:Hstop.
  { exists row, true, (rr - 1), st3.
    replace (row - row + 1) with 1 by lia.
    repeat split; first [done | lia | idtac]. }
  apply orb_false_iff in Hstop as [Hlast _].
  apply Z.eqb_neq in Hlast.
  destruct (IH lastRow (row + 1) (rr - 1) st3) as
    (endRow & filled & rr' & st' & Hrun & Hend & Hrr & Hfilled & Hpos & Hs & Hc);
    [lia|lia|].
  exists endRow, filled, rr', st'.
  split; [done|]. split; [lia|]. split; [lia|]. split; [done|].
  split; [intros; apply Hpos; lia|]. split; [congruence|].
  rewrite Hc, Hc3, <- app_assoc. f_equal.
  rewrite (seqZ_cons row) by lia. simpl. do 2 f_equal; lia.
Qed.

(** More turns than needed change nothing. *)
Lemma tokenizeRows_more_fuel fuel : ∀ fuel' lastRow row rowsRemaining
    (st : State) result,
  tokenizeRows fuel lastRow row rowsRemaining st = Some result →
  (fuel <= fuel')%nat →
  tokenizeRows fuel' lastRow row rowsRemaining st = Some result.
Proof.
  induction fuel as [|fuel IH]; intros fuel' lastRow row rr st result Hrun Hle;
    [done|].
  destruct fuel' as [|fuel']; [lia|].
  cbn [tokenizeRows] in *.
  destruct (openScopesForRow row st) as [scopes st1].
  destruct (buildTokenizedLineForRow _ _ _ _) as [line st2].
  destruct (rr - 1 =? 0); [done|].
  destruct (_ || _); [done|].
  eapply IH; [done|lia].
Qed.

Lemma tokenizeRegions_more_fuel fuel : ∀ fuel' rowsRemaining (st st' : State),
  tokenizeRegions fuel rowsRemaining st = Some st' →
  (fuel <= fuel')%nat →
  tokenizeRegions fuel' rowsRemaining st = Some st'.
Proof.
  induction fuel as [|fuel IH]; intros fuel' rr st st' Hrun Hle.
  - destruct fuel'; simpl in *; [done|].
    destruct (firstInvalidRow st); [|done].
    by destruct (rr >? 0).
  - destruct fuel' as [|fuel']; [lia|].
    cbn [tokenizeRegions] in *.
    destruct (firstInvalidRow st) as [startRow|]; [|done].
    destruct (rr >? 0); [|done].
    destruct (startRow >? _); [eapply IH; [done|lia]|].
    destruct (tokenizeRows _ _ _ _ _) as [[[[endRow filled] rr'] st2]|]; [|done].
    eapply IH; [done|lia].
Qed.

Lemma tokenizeRegions_exit fuel rowsRemaining (st : State) :
  invalidRows st = [] ∨ rowsRemaining <= 0 →
  tokenizeRegions fuel rowsRemaining st = Some st.
Proof.
  intros Hexit. destruct fuel; simpl; unfold firstInvalidRow;
    destruct (invalidRows st) as [|startRow rest]; simpl; try done;
    destruct Hexit as [?|?]; try done;
    by destruct (Z.gtb_spec rowsRemaining 0); [lia|].
Qed.

Lemma shiftUpTo_length row rows :
  (length (shiftUpTo row rows) <= length rows)%nat.
Proof.
  induction rows as [|r rows IH]; simpl; [done|].
  destruct (r <=? row); simpl; lia.
Qed.

(** The outer loop returns, and [regions] describes its run. *)
Lemma tokenizeRegions_regions fuel : ∀ rowsRemaining (st : State),
  (length (invalidRows st) <= fuel)%nat →
  ∃ st', tokenizeRegions fuel rowsRemaining st = Some st'
         ∧ regions rowsRemaining st st'.
Proof.
  induction fuel as [|fuel IH]; intros rr st Hfuel.
  { exists st. assert (invalidRows st = []) by (by apply nil_length_inv; lia).
    split; [apply tokenizeRegions_exit | apply regions_exit]; auto. }
  destruct (invalidRows st) as [|startRow rest] eqn:Hrows.
  { exists st. split; [apply tokenizeRegions_exit | apply regions_exit]; auto. }
  destruct (Z.gtb_spec rr 0) as [Hrr|Hrr]; cycle 1.
  { exists st. split; [apply tokenizeRegions_exit | apply regions_exit]; auto. }
  cbn [tokenizeRegions]. unfold firstInvalidRow. rewrite Hrows.
  change (head (startRow :: rest)) with (Some startRow).
  change (tail (startRow :: rest)) with rest. cbv beta iota.
  destruct (Z.gtb_spec rr 0) as [_|?]; [|lia].
  change (getLastRow (with_invalidRows rest st)) with (getLastRow st).
  simpl in Hfuel.
  destruct (Z.gtb_spec startRow (getLastRow st)) as [Hskip|Hin].
  - destruct (IH rr (with_invalidRows rest st)) as (st' & Hrun & Hreg);
      [simpl; lia|].
    exists st'. split; [done|].
    eapply regions_skip; eauto; lia.
  - destruct (tokenizeRows_returns (S (Z.to_nat (getLastRow st - startRow)))
                (getLastRow st) startRow rr (with_invalidRows rest st))
      as (endRow & filled & rr' & st2 & Hrows2 & Hend & Hrr' & Hfilled & Hpos & Hs & Hc);
      [lia|lia|].
    rewrite Hrows2.
    assert (Hrest : invalidRows st2 = rest) by (by fields_of Hs).
    destruct filled.
    + destruct (IH rr' (emit (DidInvalidateRange startRow (endRow + 1))
                         (validateRow endRow st2))) as (st' & Hrun & Hreg).
      { simpl. etrans; [apply shiftUpTo_length|]. rewrite Hrest. lia. }
      exists st'. split; [done|].
      by eapply (regions_tokenize _ _ startRow rest endRow true rr' st2);
        [done|lia|lia|done|].
    + assert (rr' = 0) as -> by (by apply Hfilled).
      eexists. split; [apply tokenizeRegions_exit; lia|].
      eapply (regions_tokenize _ _ startRow rest endRow false 0 st2);
        [done|lia|lia|done|].
      apply regions_exit. lia.
Qed.

(** [tokenizeNextChunk] returns on every state. *)
Lemma tokenizeNextChunk_total (st : State) :
  ∃ st1, regions (chunkSize st) st st1
    ∧ tokenizeNextChunk st =
      Some (match firstInvalidRow st1 with
            | Some _ => tokenizeInBackground st1
            | None => markTokenizationComplete st1
            end).
Proof.
  destruct (tokenizeRegions_regions (length (invalidRows st)) (chunkSize st) st)
    as (st1 & Hrun & Hreg); [done|].
  exists st1. split; [done|]. unfold tokenizeNextChunk. by rewrite Hrun.
Qed.

Lemma tokenizeRows_facts lastRow startRow rowsRemaining (st : State)
    endRow filledRegion rowsRemaining' st2 :
  startRow <= lastRow →
  tokenizeRows (S (Z.to_nat (lastRow - startRow))) lastRow startRow
    rowsRemaining st = Some (endRow, filledRegion, rowsRemaining', st2) →
  startRow <= endRow <= lastRow
  ∧ rowsRemaining' = rowsRemaining - (endRow - startRow + 1)
  ∧ (filledRegion = false ↔ rowsRemaining' = 0)
  ∧ (0 < rowsRemaining → 0 <= rowsRemaining')
  ∧ schedule st2 = schedule st
  ∧ tokenizeCalls st2 = tokenizeCalls st ++ seqZ startRow (endRow - startRow + 1).
Proof.
  intros Hrow Hrun.
  destruct (tokenizeRows_returns (S (Z.to_nat (lastRow - startRow)))
              lastRow startRow rowsRemaining st)
    as (? & ? & ? & ? & Hrun' & Hfacts); [lia|lia|].
  rewrite Hrun in Hrun'. by simplify_eq.
Qed.

Lemma invalidateRow_invalidRows row (st : State) :
  invalidRows (invalidateRow row st) = merge_sort Z.le (invalidRows st ++ [row]).
Proof.
  unfold invalidateRow, tokenizeInBackground.
  by destruct (negb _ || _ || negb _).
Qed.

(** The fields that [tokenizeInBackground] leaves as they are. *)
Lemma tokenizeInBackground_fields (st : State) :
  let st' := tokenizeInBackground st in
  buffer st' = buffer st ∧ chunkSize st' = chunkSize st
  ∧ grammar st' = grammar st ∧ largeFileMode st' = largeFileMode st
  ∧ invalidRows st' = invalidRows st
  ∧ tokenizedLines st' = tokenizedLines st
  ∧ fullyTokenized st' = fullyTokenized st
  ∧ fullyTokenizedWrites st' = fullyTokenizedWrites st
  ∧ emitted st' = emitted st
  ∧ tokenizeCalls st' = tokenizeCalls st.
Proof.
  unfold tokenizeInBackground. by destruct (negb _ || _ || negb _).
Qed.

Lemma invalidateRow_fields row (st : State) :
  let st' := invalidateRow row st in
  buffer st' = buffer st ∧ chunkSize st' = chunkSize st
  ∧ grammar st' = grammar st ∧ largeFileMode st' = largeFileMode st
  ∧ tokenizedLines st' = tokenizedLines st
  ∧ fullyTokenized st' = fullyTokenized st
  ∧ fullyTokenizedWrites st' = fullyTokenizedWrites st
  ∧ emitted st' = emitted st
  ∧ tokenizeCalls st' = tokenizeCalls st.
Proof.
  unfold invalidateRow, tokenizeInBackground.
  by destruct (negb _ || _ || negb _).
Qed.

(** What the outer loop leaves as it is. It emits ranges only. *)
Lemma regions_fields rowsRemaining (st st' : State) :
  regions rowsRemaining st st' →
  buffer st' = buffer st ∧ chunkSize st' = chunkSize st
  ∧ grammar st' = grammar st ∧ largeFileMode st' = largeFileMode st
  ∧ fullyTokenized st' = fullyTokenized st
  ∧ fullyTokenizedWrites st' = fullyTokenizedWrites st
  ∧ count_occ Event_eq_dec (emitted st') DidTokenize =
    count_occ Event_eq_dec (emitted st) DidTokenize.
Proof.
  induction 1 as [rr st _
                 |rr st startRow rest st' _ _ _ _ IH
                 |rr st startRow rest endRow filled rr' st2 st' _ _ Hin Hrun _ IH].
  - done.
  - apply IH.
  - destruct (tokenizeRows_facts _ _ _ _ _ _ _ _ Hin Hrun) as (_ & _ & _ & _ & Hs & _).
    fields_of Hs.
    destruct IH as (-> & -> & -> & -> & -> & -> & ->).
    destruct filled; simpl.
    + rewrite count_occ_app. simpl. rewrite Nat.add_0_r.
      repeat split; congruence.
    + destruct (invalidateRow_fields (endRow + 1) (validateRow endRow st2))
        as (-> & -> & -> & -> & _ & -> & -> & -> & _).
      rewrite count_occ_app. simpl. rewrite Nat.add_0_r.
      repeat split; congruence.
Qed.

Lemma shiftUpTo_suffix row rows : shiftUpTo row rows `suffix_of` rows.
Proof.
  induction rows as [|r rows IH]; simpl; [done|].
  destruct (r <=? row); [by apply suffix_cons_r | done].
Qed.

Lemma pending_suffix (f : Z → nat) rows rows' :
  rows' `suffix_of` rows → (sum_list_with f rows' <= sum_list_with f rows)%nat.
Proof. intros [front ->]. rewrite sum_list_with_app. lia. Qed.

(** Every turn of the outer loop brings [pending] down. *)
Lemma regions_pending rowsRemaining (st st' : State) :
  regions rowsRemaining st st' →
  (pending st' <= pending st)%nat
  ∧ (0 < rowsRemaining → invalidRows st ≠ [] → (pending st' < pending st)%nat).
Proof.
  intros Hreg. pose proof (regions_fields _ _ _ Hreg) as Hall. revert Hall.
  induction Hreg as [rr st Hexit
                 |rr st startRow rest st' Hrows Hrr Hskip Hreg IH
                 |rr st startRow rest endRow filled rr' st2 st' Hrows Hrr Hin Hrun Hreg IH];
    intros Hall.
  - split; [done|]. intros ? ?. destruct Hexit; [done|lia].
  - destruct (IH (regions_fields _ _ _ Hreg)) as [Hle _].
    assert (pending (with_invalidRows rest st) < pending st)%nat.
    { unfold pending. rewrite Hrows. simpl.
      change (getLastRow (with_invalidRows rest st)) with (getLastRow st).
      unfold rowWeight at 2. lia. }
    split; intros; lia.
  - destruct (tokenizeRows_facts _ _ _ _ _ _ _ _ Hin Hrun)
      as (Hend & _ & _ & _ & Hs & _).
    fields_of Hs. simpl in *.
    destruct (IH (regions_fields _ _ _ Hreg)) as [Hle _].
    set (st5 := emit _ _) in *.
    assert (pending st5 < pending st)%nat; [|split; intros; lia].
    assert (Hlast : getLastRow st5 = getLastRow st).
    { unfold getLastRow, st5. simpl.
      destruct filled; simpl; [congruence|].
      destruct (invalidateRow_fields (endRow + 1) (validateRow endRow st2))
        as (-> & _). simpl. congruence. }
    unfold pending. rewrite Hlast, Hrows. simpl.
    pose proof (pending_suffix (rowWeight (getLastRow st)) _ _
                  (shiftUpTo_suffix endRow rest)) as Hshift.
    assert (Hstart : (2 <= rowWeight (getLastRow st) startRow)%nat)
      by (unfold rowWeight; lia).
    destruct filled; simpl.
    + replace (invalidRows st2) with rest by done. lia.
    + rewrite invalidateRow_invalidRows, merge_sort_Permutation.
      rewrite sum_list_with_app. simpl.
      replace (invalidRows st2) with rest by done.
      assert (rowWeight (getLastRow st) (endRow + 1)
              < rowWeight (getLastRow st) startRow)%nat
        by (unfold rowWeight; lia).
      lia.
Qed.

(** The rows that the outer loop gives to the grammar: no more than
    [rowsRemaining], and an invalid row first. *)
Lemma regions_calls rowsRemaining (st st' : State) :
  regions rowsRemaining st st' →
  ∃ rows,
    tokenizedBy st st' rows
    ∧ Z.of_nat (length rows) <= Z.max 0 rowsRemaining
    ∧ (0 < rowsRemaining →
       (∃ r, r ∈ invalidRows st ∧ r <= getLastRow st) →
       ∃ r rows', rows = r :: rows' ∧ r ∈ invalidRows st).
Proof.
  unfold tokenizedBy.
  induction 1 as [rr st Hexit
                 |rr st startRow rest st' Hrows Hrr Hskip _ IH
                 |rr st startRow rest endRow filled rr' st2 st' Hrows Hrr Hin Hrun _ IH].
  - exists []. rewrite app_nil_r. split; [done|]. split; [simpl; lia|].
    intros ? (r & Hr & _). destruct Hexit as [Hnil|?]; [|lia].
    rewrite Hnil in Hr. by apply elem_of_nil in Hr.
  - destruct IH as (rows & Hcalls & Hlen & Hfirst).
    exists rows. split; [done|]. split; [done|].
    intros _ (r & Hr & Hle). rewrite Hrows in Hr.
    apply elem_of_cons in Hr as [->|Hr]; [lia|].
    destruct Hfirst as (r' & rows' & -> & Hr'); [done|by exists r|].
    exists r', rows'. split; [done|]. rewrite Hrows. by right.
  - destruct (tokenizeRows_facts _ _ _ _ _ _ _ _ Hin Hrun)
      as (Hend & Hrr' & _ & Hpos & _ & Hcalls).
    destruct IH as (rows & Hcalls' & Hlen & _).
    assert (Hmid : tokenizeCalls
              (emit (DidInvalidateRange startRow (endRow + 1))
                 (if negb filled
                  then invalidateRow (endRow + 1) (validateRow endRow st2)
                  else validateRow endRow st2)) = tokenizeCalls st2).
    { destruct filled; simpl; [done|].
      by destruct (invalidateRow_fields (endRow + 1) (validateRow endRow st2))
        as (_ & _ & _ & _ & _ & _ & _ & _ & ->). }
    rewrite Hmid, Hcalls in Hcalls'. simpl in Hcalls'.
    exists (seqZ startRow (endRow - startRow + 1) ++ rows).
    split; [by rewrite Hcalls', app_assoc|].
    split.
    + rewrite length_app, length_seqZ. specialize (Hpos Hrr). lia.
    + intros _ _. rewrite (seqZ_cons startRow) by lia.
      eexists _, _. split; [done|]. rewrite Hrows. by left.
Qed.

Lemma shiftUpTo_sorted row rows :
  Sorted Z.le rows → Sorted Z.le (shiftUpTo row rows).
Proof.
  induction rows as [|r rows IH]; intros Hsorted; simpl; [done|].
  destruct (r <=? row); [|done].
  apply IH. by apply Sorted_inv in Hsorted as [? _].
Qed.

Lemma invalidateRow_sorted row (st : State) :
  Sorted Z.le (invalidRows (invalidateRow row st)).
Proof. rewrite invalidateRow_invalidRows. apply Sorted_merge_sort, _. Qed.

Lemma regions_sorted rowsRemaining (st st' : State) :
  regions rowsRemaining st st' →
  Sorted Z.le (invalidRows st) → Sorted Z.le (invalidRows st').
Proof.
  induction 1 as [rr st Hexit
                 |rr st startRow rest st' Hrows Hrr Hskip _ IH
                 |rr st startRow rest endRow filled rr' st2 st' Hrows Hrr Hin Hrun _ IH];
    intros Hsorted.
  - done.
  - apply IH. simpl. rewrite Hrows in Hsorted.
    by apply Sorted_inv in Hsorted as [? _].
  - apply IH.
    destruct (tokenizeRows_facts _ _ _ _ _ _ _ _ Hin Hrun)
      as (_ & _ & _ & _ & Hs & _).
    fields_of Hs.
    destruct filled; simpl.
    + apply shiftUpTo_sorted. replace (invalidRows st2) with rest by done.
      rewrite Hrows in Hsorted. by apply Sorted_inv in Hsorted as [? _].
    + apply invalidateRow_sorted.
Qed.

Lemma markTokenizationComplete_fields (st : State) :
  let st' := markTokenizationComplete st in
  buffer st' = buffer st ∧ chunkSize st' = chunkSize st
  ∧ grammar st' = grammar st ∧ largeFileMode st' = largeFileMode st
  ∧ invalidRows st' = invalidRows st
  ∧ tokenizedLines st' = tokenizedLines st
  ∧ fullyTokenized st' = true
  ∧ tokenizeCalls st' = tokenizeCalls st
  ∧ deferred st' = deferred st ∧ pendingChunk st' = pendingChunk st.
Proof. unfold markTokenizationComplete. by destruct (negb _). Qed.

Lemma tokenizeNextChunk_sorted (st st' : State) :
  tokenizeNextChunk st = Some st' →
  Sorted Z.le (invalidRows st) → Sorted Z.le (invalidRows st').
Proof.
  intros Hrun Hsorted.
  destruct (tokenizeNextChunk_total st) as (st1 & Hreg & Heq).
  rewrite Heq in Hrun. injection Hrun as <-.
  pose proof (regions_sorted _ _ _ Hreg Hsorted) as Hsorted1.
  destruct (firstInvalidRow st1).
  - by destruct (tokenizeInBackground_fields st1) as (_ & _ & _ & _ & -> & _).
  - by destruct (markTokenizationComplete_fields st1) as (_ & _ & _ & _ & -> & _).
Qed.

Lemma rebasedRow_monotone start end' delta r1 r2 :
  start <= end' → start <= end' + delta → r1 <= r2 →
  rebasedRow start end' delta r1 <= rebasedRow start end' delta r2.
Proof.
  intros ? ? ?. unfold rebasedRow.
  destruct (Z.ltb_spec r1 start), (Z.ltb_spec r2 start),
    (Z.leb_spec start r1), (Z.leb_spec start r2),
    (Z.leb_spec r1 end'), (Z.leb_spec r2 end'); simpl; lia.
Qed.

(** C5, as the code has it. After every sequence of [invalidateRow],
    [validateRow], [tokenizeNextChunk] and of [updateInvalidRows] with
    the rows of an edit, started with [invalidRows] in ascending order,
    every call returns and [invalidRows] is in ascending order. The
    order is not strict and the rows have no bound. *)
Theorem invalidRows_stay_sorted (cs : list SchedulerCall) (st : State) :
  Sorted Z.le (invalidRows st) →
  Forall rowsOfAnEdit cs →
  ∃ st', callsScheduler cs st = Some st' ∧ Sorted Z.le (invalidRows st').
Proof.
  intros Hsorted Hedits. revert st Hsorted.
  induction Hedits as [|c cs Hc _ IH]; intros st Hsorted; [by exists st|].
  simpl. destruct c as [row|row|start end' delta|]; simpl.
  - apply IH, invalidateRow_sorted.
  - apply IH. simpl. by apply shiftUpTo_sorted.
  - apply IH. simpl. destruct Hc as [? ?].
    eapply Sorted_fmap; [|done].
    intros. by apply rebasedRow_monotone.
  - destruct (tokenizeNextChunk_total st) as (st1 & Hreg & Heq).
    rewrite Heq. simpl. apply IH.
    eapply tokenizeNextChunk_sorted; done.
Qed.

(** Invalid rows past the end of the buffer are dropped untokenized. *)
Lemma regions_past rowsRemaining (st st' : State) :
  regions rowsRemaining st st' →
  Forall (λ r, getLastRow st < r) (invalidRows st) →
  tokenizeCalls st' = tokenizeCalls st.
Proof.
  induction 1 as [rr st Hexit
                 |rr st startRow rest st' Hrows Hrr Hskip _ IH
                 |rr st startRow rest endRow filled rr' st2 st' Hrows Hrr Hin Hrun _ IH];
    intros Hpast.
  - done.
  - rewrite IH; [done|]. simpl. rewrite Hrows in Hpast.
    by apply Forall_cons in Hpast as [_ ?].
  - rewrite Hrows in Hpast. apply Forall_cons in Hpast as [? _]. lia.
Qed.

Lemma regions_of_no_rows rowsRemaining (st st' : State) :
  regions rowsRemaining st st' → invalidRows st = [] → st' = st.
Proof. destruct 1; congruence. Qed.

(** One invocation: it returns, with at most [chunkSize] rows given to
    the grammar, the first of them an invalid row when an invalid row
    of the buffer exists. *)
Lemma tokenizeNextChunk_rows (st : State) :
  0 < chunkSize st →
  ∃ st1 rows,
    tokenizeNextChunk st = Some st1
    ∧ tokenizedBy st st1 rows
    ∧ Z.of_nat (length rows) <= chunkSize st
    ∧ ((∃ r, r ∈ invalidRows st ∧ r <= getLastRow st) →
       ∃ r rows', rows = r :: rows' ∧ r ∈ invalidRows st).
Proof.
  intros Hsize.
  destruct (tokenizeNextChunk_total st) as (st1 & Hreg & Heq).
  destruct (regions_calls _ _ _ Hreg) as (rows & Hcalls & Hlen & Hfirst).
  eexists _, rows. split; [done|]. split; [|split; [lia|auto]].
  unfold tokenizedBy in *. rewrite <- Hcalls.
  destruct (firstInvalidRow st1).
  - by destruct (tokenizeInBackground_fields st1)
      as (_ & _ & _ & _ & _ & _ & _ & _ & _ & ->).
  - by destruct (markTokenizationComplete_fields st1)
      as (_ & _ & _ & _ & _ & _ & _ & -> & _).
Qed.

Lemma tokenizeNextChunk_fields (st st' : State) :
  tokenizeNextChunk st = Some st' →
  buffer st' = buffer st ∧ chunkSize st' = chunkSize st.
Proof.
  intros Hrun.
  destruct (tokenizeNextChunk_total st) as (st1 & Hreg & Heq).
  rewrite Heq in Hrun. injection Hrun as <-.
  destruct (regions_fields _ _ _ Hreg) as (Hb & Hc & _).
  destruct (firstInvalidRow st1).
  - destruct (tokenizeInBackground_fields st1) as (-> & -> & _). done.
  - destruct (markTokenizationComplete_fields st1) as (-> & -> & _). done.
Qed.

Lemma tokenizeChunks_fields n : ∀ (st st' : State),
  tokenizeChunks n st = Some st' →
  buffer st' = buffer st ∧ chunkSize st' = chunkSize st.
Proof.
  induction n as [|n IH]; intros st st' Hrun; simpl in Hrun.
  - by injection Hrun as <-.
  - destruct (tokenizeNextChunk st) as [st1|] eqn:Hone; [|done].
    simpl in Hrun.
    destruct (tokenizeNextChunk_fields _ _ Hone) as [<- <-]. by apply IH.
Qed.

(** With no invalid row left and the flag set, invocations change
    neither. *)
Lemma tokenizeChunks_when_done n : ∀ (st : State),
  invalidRows st = [] → fullyTokenized st = true →
  ∃ st', tokenizeChunks n st = Some st'
         ∧ invalidRows st' = [] ∧ fullyTokenized st' = true.
Proof.
  induction n as [|n IH]; intros st Hrows Hflag; [by exists st|].
  simpl.
  destruct (tokenizeNextChunk_total st) as (st1 & Hreg & Heq).
  apply regions_of_no_rows in Hreg as ->; [|done].
  rewrite Heq. unfold firstInvalidRow. rewrite Hrows. simpl.
  destruct (markTokenizationComplete_fields st)
    as (_ & _ & _ & _ & Hrows' & _ & Hflag' & _).
  apply IH; congruence.
Qed.

Lemma tokenizeChunks_drain n : ∀ (st : State),
  0 < chunkSize st → (pending st < n)%nat →
  ∃ st', tokenizeChunks n st = Some st'
         ∧ invalidRows st' = [] ∧ fullyTokenized st' = true.
Proof.
  induction n as [|n IH]; intros st Hsize Hpending; [lia|].
  simpl.
  destruct (tokenizeNextChunk_total st) as (st1 & Hreg & Heq).
  rewrite Heq. simpl.
  destruct (regions_fields _ _ _ Hreg) as (Hbuffer & Hchunk & _).
  unfold firstInvalidRow.
  destruct (invalidRows st1) as [|r rest] eqn:Hrows1; simpl.
  - destruct (markTokenizationComplete_fields st1)
      as (_ & _ & _ & _ & Hrows' & _ & Hflag' & _).
    apply tokenizeChunks_when_done; congruence.
  - destruct (tokenizeInBackground_fields st1)
      as (Hb & Hc & _ & _ & Hr & _).
    apply IH; [congruence|].
    assert (invalidRows st ≠ []).
    { intros Hnil. apply regions_of_no_rows in Hreg; [|done]. congruence. }
    destruct (regions_pending _ _ _ Hreg) as [_ Hless].
    specialize (Hless Hsize ltac:(done)).
    unfold pending, getLastRow in *. rewrite Hb, Hr. lia.
Qed.

(** C1, as the code has it. Let [chunkSize] be positive. From every
    state (every buffer, every content of [invalidRows]) every
    invocation of [tokenizeNextChunk] returns; after more than
    [pending st] invocations [invalidRows] is empty and [fullyTokenized]
    is true. Each invocation gives at most [chunkSize] rows to the
    grammar. When an invalid row of the buffer (at most [lastRow])
    exists, the first row it tokenizes is an invalid row; when all
    invalid rows are past [lastRow] it tokenizes none. *)
Theorem tokenizeNextChunk_drains (st : State) :
  0 < chunkSize st →
  (∀ n, (pending st < n)%nat →
     ∃ st', tokenizeChunks n st = Some st'
            ∧ invalidRows st' = [] ∧ fullyTokenized st' = true)
  ∧ (∀ k st_k, tokenizeChunks k st = Some st_k →
       ∃ st1 rows,
         tokenizeNextChunk st_k = Some st1
         ∧ tokenizedBy st_k st1 rows
         ∧ Z.of_nat (length rows) <= chunkSize st
         ∧ ((∃ r, r ∈ invalidRows st_k ∧ r <= getLastRow st_k) →
            ∃ r rows', rows = r :: rows' ∧ r ∈ invalidRows st_k)
         ∧ (Forall (λ r, getLastRow st_k < r) (invalidRows st_k) →
            rows = [])).
Proof.
  intros Hsize. split.
  - intros n Hn. by apply tokenizeChunks_drain.
  - intros k st_k Hk.
    destruct (tokenizeChunks_fields _ _ _ Hk) as [_ Hchunk].
    rewrite <- Hchunk in *.
    destruct (tokenizeNextChunk_rows st_k Hsize)
      as (st1 & rows & Hrun & Hcalls & Hlen & Hfirst).
    exists st1, rows. repeat split; try done.
    intros Hpast.
    destruct (tokenizeNextChunk_total st_k) as (st2 & Hreg & Heq).
    pose proof (regions_past _ _ _ Hreg Hpast) as Hsame.
    unfold tokenizedBy in Hcalls.
    rewrite Heq in Hrun. injection Hrun as <-.
    assert (Hcalls2 : tokenizeCalls st2 = tokenizeCalls st_k ++ rows).
    { rewrite <- Hcalls. destruct (firstInvalidRow st2).
      - by destruct (tokenizeInBackground_fields st2)
          as (_ & _ & _ & _ & _ & _ & _ & _ & _ & ->).
      - by destruct (markTokenizationComplete_fields st2)
          as (_ & _ & _ & _ & _ & _ & _ & -> & _). }
    rewrite Hsame in Hcalls2.
    apply (f_equal length) in Hcalls2. rewrite length_app in Hcalls2.
    destruct rows; [done|simpl in Hcalls2; lia].
Qed.

End Chunk.

(** ** Edits *)
Section Edits.
Context `{Platform}.

Lemma isEqual_eq (a b : StackVal) : isEqual a b = true ↔ a = b.
Proof.
  destruct a, b; simpl; try (split; [discriminate|discriminate]);
    try done.
  rewrite bool_decide_eq_true. split; congruence.
Qed.

Lemma truthy_stack (v : StackVal) :
  truthy v = true ↔ v ≠ StackUndefined ∧ v ≠ StackNull.
Proof. destruct v; simpl; split; try done; intros [? ?]; done. Qed.

Lemma buildStep_fields stopTokenizingAt acc (row : Z) :
  let st := acc.2 in
  let st' := (buildStep stopTokenizingAt acc row).2 in
  schedule st' = schedule st ∧ tokenizedLines st' = tokenizedLines st.
Proof.
  destruct acc as [[[stack scopes] built] st]. cbn [snd]. unfold buildStep.
  destruct ((truthy stack || (row =? 0)) && (row <? stopTokenizingAt)); [|done].
  destruct (buildTokenizedLineForRow row stack scopes st) as [line st1] eqn:Hbuild.
  pose proof (buildTokenizedLineForRow_state row stack scopes st) as Hst1.
  rewrite Hbuild in Hst1. cbn [snd] in Hst1. subst st1.
  destruct (scopesFromTags scopes (tags line) _) as [scopes' st2] eqn:Hfold.
  pose proof (scopesFromTags_schedule scopes (tags line)
                (with_tokenizeCalls (tokenizeCalls st ++ [row]) st)) as Hs.
  rewrite Hfold in Hs. cbn [snd] in Hs |- *.
  destruct Hs as (Hs & Hl & _). by rewrite Hs, Hl.
Qed.

Lemma buildSteps_fields stopTokenizingAt rows : ∀ acc,
  let st := acc.2 in
  let st' := (foldl (buildStep stopTokenizingAt) acc rows).2 in
  schedule st' = schedule st ∧ tokenizedLines st' = tokenizedLines st.
Proof.
  induction rows as [|row rows IH]; intros acc; cbn [foldl]; [done|].
  destruct (IH (buildStep stopTokenizingAt acc row)) as [Hs Hl].
  cbv zeta. rewrite Hs, Hl. apply buildStep_fields.
Qed.

(** What [buildTokenizedLinesForRows] does to the state: it invalidates
    the row [startRow + chunkSize] when the rows go past it. *)
Lemma buildTokenizedLinesForRows_fields startRow endRow stack scopes (st : State) :
  let st' := (buildTokenizedLinesForRows startRow endRow stack scopes st).2 in
  tokenizedLines st' = tokenizedLines st
  ∧ invalidRows st' =
    (if endRow >=? startRow + chunkSize st
     then merge_sort Z.le (invalidRows st ++ [startRow + chunkSize st])
     else invalidRows st)
  ∧ fullyTokenized st' = fullyTokenized st
  ∧ fullyTokenizedWrites st' = fullyTokenizedWrites st
  ∧ emitted st' = emitted st
  ∧ largeFileMode st' = largeFileMode st
  ∧ grammar st' = grammar st.
Proof.
  unfold buildTokenizedLinesForRows.
  pose proof (buildSteps_fields (startRow + chunkSize st)
                (seqZ startRow (endRow - startRow + 1))
                (stack, scopes, [], st)) as Hfold.
  destruct (foldl _ _ _) as [[[stack' scopes'] built] st1].
  simpl in Hfold. destruct Hfold as [Hs Hl]. fields_of Hs.
  destruct (endRow >=? startRow + chunkSize st); simpl; [|done].
  destruct (tokenizeInBackground_fields
              (invalidateRow (startRow + chunkSize st) st1))
    as (_ & _ & -> & -> & -> & -> & -> & -> & -> & _).
  rewrite invalidateRow_invalidRows.
  destruct (invalidateRow_fields (startRow + chunkSize st) st1)
    as (_ & _ & -> & -> & -> & -> & -> & -> & _).
  repeat split; congruence.
Qed.

(** [bufferDidChange] outside large-file mode and the null grammar:
    the state [st4] after the splice, then the test of the spill. *)
Lemma bufferDidChange_rebuilt (e : ChangeEvent) (st : State) :
  largeFileMode st = false →
  isNullGrammar st = false →
  let startRow := row (start (oldRange e)) in
  let endRow := row (end' (oldRange e)) in
  let delta := row (end' (newRange e)) - row (end' (oldRange e)) in
  let rebased := rebasedRow startRow endRow delta <$> invalidRows st in
  ∃ st4,
    invalidRows st4 =
      (if endRow + delta >=? startRow + chunkSize st
       then merge_sort Z.le (rebased ++ [startRow + chunkSize st])
       else rebased)
    ∧ fullyTokenized st4 = fullyTokenized st
    ∧ fullyTokenizedWrites st4 = fullyTokenizedWrites st
    ∧ emitted st4 = emitted st
    ∧ bufferDidChange e st =
      if truthy (stackForRow st4 (endRow + delta)) &&
         negb (isEqual (stackForRow st4 (endRow + delta))
                 (stackForRow st endRow))
      then invalidateRow (endRow + delta + 1) st4
      else st4.
Proof.
  intros Hlarge Hnull startRow endRow delta rebased.
  unfold bufferDidChange. cbv zeta.
  fold delta. fold endRow. fold startRow.
  set (st0 := with_changeCount _ st).
  set (st1 := updateInvalidRows startRow endRow delta st0).
  assert (Hmode : largeFileMode st1 || isNullGrammar st1 = false).
  { unfold isNullGrammar in *. simpl. by rewrite Hlarge, Hnull. }
  rewrite Hmode.
  destruct (openScopesForRow startRow st1) as [scopes st2] eqn:Hopen.
  destruct (openScopesForRow_schedule startRow st1) as (Hs2 & Hl2 & _).
  rewrite Hopen in Hs2, Hl2. cbn [snd] in Hs2, Hl2. fields_of Hs2.
  destruct (buildTokenizedLinesForRows startRow (endRow + delta)
              (stackForRow st1 (startRow - 1)) scopes st2)
    as [newTokenizedLines st3] eqn:Hbuild.
  pose proof (buildTokenizedLinesForRows_fields startRow (endRow + delta)
                (stackForRow st1 (startRow - 1)) scopes st2) as Hst3.
  rewrite Hbuild in Hst3. cbn [snd] in Hst3.
  destruct Hst3 as (_ & Hrows3 & Hflag3 & Hwrites3 & Hemitted3 & _).
  eexists. split; [|split; [|split; [|split; [|reflexivity]]]].
  - simpl. rewrite Hrows3.
    replace (chunkSize st2) with (chunkSize st) by done.
    by replace (invalidRows st2) with rebased.
  - simpl. rewrite Hflag3. done.
  - simpl. rewrite Hwrites3. done.
  - simpl. rewrite Hemitted3. done.
Qed.

(** C7. Outside large-file mode and with a grammar that is not the
    null grammar, [bufferDidChange] rebuilds the rows of the edit and
    then invalidates the row [end + delta + 1] exactly when the rule
    stack now at row [end + delta] is a stack (neither [undefined] nor
    [null]) and differs from the rule stack that row [end] had before
    the edit: in that case [invalidRows] is the rebuilt list with that
    row added, in order; otherwise it is the rebuilt list. The rebuilt
    list is the rebased invalid rows, with the row [start + chunkSize]
    added when the edit goes past it. *)
Theorem bufferDidChange_spill (e : ChangeEvent) (st : State) :
  largeFileMode st = false →
  isNullGrammar st = false →
  let startRow := row (start (oldRange e)) in
  let endRow := row (end' (oldRange e)) in
  let delta := row (end' (newRange e)) - row (end' (oldRange e)) in
  let st' := bufferDidChange e st in
  let previousEndStack := stackForRow st endRow in
  let newEndStack := stackForRow st' (endRow + delta) in
  let rebased := rebasedRow startRow endRow delta <$> invalidRows st in
  let rebuilt :=
    if endRow + delta >=? startRow + chunkSize st
    then merge_sort Z.le (rebased ++ [startRow + chunkSize st])
    else rebased in
  let spills :=
    newEndStack ≠ StackUndefined ∧ newEndStack ≠ StackNull
    ∧ newEndStack ≠ previousEndStack in
  (spills → invalidRows st' = merge_sort Z.le (rebuilt ++ [endRow + delta + 1]))
  ∧ (¬ spills → invalidRows st' = rebuilt).
Proof.
  intros Hlarge Hnull. cbv zeta.
  destruct (bufferDidChange_rebuilt e st Hlarge Hnull)
    as (st4 & Hrebuilt & _ & _ & _ & Hrun).
  cbv zeta in Hrebuilt, Hrun.
  rewrite Hrun, <- Hrebuilt. clear Hrun Hrebuilt.
  set (delta := row (end' (newRange e)) - row (end' (oldRange e))).
  set (endRow := row (end' (oldRange e))).
  assert (Hnew : ∀ b : bool,
    stackForRow (if b then invalidateRow (endRow + delta + 1) st4 else st4)
      (endRow + delta) = stackForRow st4 (endRow + delta)).
  { intros [|]; [|done]. unfold stackForRow.
    by destruct (invalidateRow_fields (endRow + delta + 1) st4)
      as (_ & _ & _ & _ & -> & _). }
  rewrite Hnew.
  destruct (truthy (stackForRow st4 (endRow + delta))) eqn:Htruthy;
    destruct (isEqual (stackForRow st4 (endRow + delta))
                (stackForRow st endRow)) eqn:Hequal; simpl.
  - apply isEqual_eq in Hequal. split; [intros (_ & _ & ?); done|done].
  - split; [|intros Hnot; destruct Hnot].
    + intros _. by rewrite invalidateRow_invalidRows.
    + apply truthy_stack in Htruthy as [? ?]. repeat split; try done.
      intros Heq. apply isEqual_eq in Heq. congruence.
  - split; [|done]. intros (? & ? & _).
    assert (truthy (stackForRow st4 (endRow + delta)) = true)
      by (by apply truthy_stack). congruence.
  - split; [|done]. intros (? & ? & _).
    assert (truthy (stackForRow st4 (endRow + delta)) = true)
      by (by apply truthy_stack). congruence.
Qed.

End Edits.

(** ** Large files and the null grammar *)
Section LargeFiles.
Context `{Platform}.

Lemma bufferDidChange_large (e : ChangeEvent) (st : State) :
  largeFileMode st = true ∨ isNullGrammar st = true →
  let st' := bufferDidChange e st in
  invalidRows st' =
    rebasedRow (row (start (oldRange e))) (row (end' (oldRange e)))
      (row (end' (newRange e)) - row (end' (oldRange e))) <$> invalidRows st
  ∧ largeFileMode st' = largeFileMode st
  ∧ grammar st' = grammar st
  ∧ fullyTokenized st' = fullyTokenized st
  ∧ fullyTokenizedWrites st' = fullyTokenizedWrites st
  ∧ emitted st' = emitted st
  ∧ deferred st' = deferred st
  ∧ pendingChunk st' = pendingChunk st.
Proof.
  intros Hmode. cbv zeta. unfold bufferDidChange. cbv zeta.
  set (st0 := with_changeCount _ st).
  set (st1 := updateInvalidRows _ _ _ st0).
  assert (largeFileMode st1 || isNullGrammar st1 = true) as ->; [|done].
  unfold isNullGrammar in *. simpl.
  destruct Hmode as [-> | ->]; [done|apply orb_true_r].
Qed.

Lemma bufferDidChanges_large (edits : list ChangeEvent) : ∀ (st : State),
  largeFileMode st = true ∨ isNullGrammar st = true →
  invalidRows st = [] →
  let st' := bufferDidChanges edits st in
  invalidRows st' = []
  ∧ fullyTokenized st' = fullyTokenized st
  ∧ deferred st' = deferred st
  ∧ pendingChunk st' = pendingChunk st.
Proof.
  induction edits as [|e edits IH]; intros st Hmode Hrows; [done|].
  cbv zeta.
  change (bufferDidChanges (e :: edits) st)
    with (bufferDidChanges edits (bufferDidChange e st)).
  destruct (bufferDidChange_large e st Hmode)
    as (Hrows1 & Hlarge & Hgrammar & Hflag & _ & _ & Hdeferred & Hpending).
  destruct (IH (bufferDidChange e st)) as (-> & -> & -> & ->).
  - unfold isNullGrammar in *. by rewrite Hlarge, Hgrammar.
  - by rewrite Hrows1, Hrows.
  - by rewrite Hflag, Hdeferred, Hpending.
Qed.

(** C8, as the code has it. On an instance that is alive, in
    large-file mode or with the null grammar, [retokenizeLines] leaves
    [fullyTokenized] true and [invalidRows] empty and defers no chunk;
    after any edits given to [bufferDidChange], [invalidRows] is still
    empty, [fullyTokenized] still true and no chunk is deferred. On a
    destroyed instance [retokenizeLines] returns at once. *)
Theorem retokenizeLines_large_file (st : State) (edits : list ChangeEvent) :
  largeFileMode st = true ∨ isNullGrammar st = true →
  (alive st = true →
   let st1 := retokenizeLines st in
   fullyTokenized st1 = true ∧ invalidRows st1 = []
   ∧ deferred st1 = deferred st ∧ pendingChunk st1 = pendingChunk st
   ∧ let st2 := bufferDidChanges edits st1 in
     invalidRows st2 = [] ∧ fullyTokenized st2 = true
     ∧ deferred st2 = deferred st ∧ pendingChunk st2 = pendingChunk st)
  ∧ (alive st = false → retokenizeLines st = st).
Proof.
  intros Hmode. split; intros Halive; cbv zeta.
  - assert (Hrun : retokenizeLines st =
      markTokenizationComplete
        (with_invalidRows []
           (with_tokenizedLines (JsArray.create (getLineCount st))
              (with_fullyTokenized false st)))).
    { unfold retokenizeLines. rewrite Halive. simpl.
      unfold isNullGrammar in *. simpl.
      by destruct Hmode as [-> | ->]; [|rewrite orb_true_r]. }
    destruct (markTokenizationComplete_fields
                (with_invalidRows []
                   (with_tokenizedLines (JsArray.create (getLineCount st))
                      (with_fullyTokenized false st))))
      as (_ & _ & Hgrammar & Hlarge & Hrows & _ & Hflag & _ & Hdeferred & Hpending).
    rewrite <- Hrun in *. simpl in *.
    destruct (bufferDidChanges_large edits (retokenizeLines st))
      as (-> & -> & -> & ->).
    + unfold isNullGrammar in *. by rewrite Hlarge, Hgrammar.
    + done.
    + done.
  - unfold retokenizeLines. by rewrite Halive.
Qed.

End LargeFiles.

(** ** The [did-tokenize] event *)
Section DidTokenize.
Context `{Platform}.

Lemma risingEdges_snoc writes : ∀ previous w,
  risingEdges previous (writes ++ [w]) =
  (risingEdges previous writes +
   (if negb (default previous (last writes)) && w then 1 else 0))%nat.
Proof.
  induction writes as [|x writes IH]; intros previous w; simpl; [lia|].
  rewrite IH, last_cons. destruct (last writes); simpl; lia.
Qed.

(** An operation that neither assigns the flag nor emits the event. *)
Lemma tracked_quiet (st st' : State) :
  fullyTokenized st' = fullyTokenized st →
  fullyTokenizedWrites st' = fullyTokenizedWrites st →
  didTokenizeCount st' = didTokenizeCount st →
  tracked st → tracked st'.
Proof. unfold tracked. intros -> -> ->. done. Qed.

Lemma tracked_markTokenizationComplete (st : State) :
  tracked st → tracked (markTokenizationComplete st).
Proof.
  unfold tracked, markTokenizationComplete, didTokenizeCount.
  intros [Hflag Hcount].
  destruct (fullyTokenized st) eqn:Hft; simpl;
    rewrite last_snoc, risingEdges_snoc, <- Hflag; simpl.
  - split; [done|lia].
  - rewrite count_occ_app. simpl. split; [done|lia].
Qed.

Lemma tracked_clear (st : State) :
  tracked st → tracked (with_fullyTokenized false st).
Proof.
  unfold tracked, didTokenizeCount. intros [Hflag Hcount]. simpl.
  rewrite last_snoc, risingEdges_snoc, andb_false_r. split; [done|lia].
Qed.

Lemma tracked_tokenizeInBackground (st : State) :
  tracked st → tracked (tokenizeInBackground st).
Proof.
  destruct (tokenizeInBackground_fields st)
    as (_ & _ & _ & _ & _ & _ & ? & ? & Hemitted & _).
  apply tracked_quiet; try done. unfold didTokenizeCount. by rewrite Hemitted.
Qed.

Lemma tracked_invalidateRow row (st : State) :
  tracked st → tracked (invalidateRow row st).
Proof.
  destruct (invalidateRow_fields row st)
    as (_ & _ & _ & _ & _ & ? & ? & Hemitted & _).
  apply tracked_quiet; try done. unfold didTokenizeCount. by rewrite Hemitted.
Qed.

Lemma tracked_retokenizeLines (st : State) :
  tracked st → tracked (retokenizeLines st).
Proof.
  intros Htracked. unfold retokenizeLines.
  destruct (negb (alive st)); [done|].
  apply tracked_clear in Htracked.
  match goal with
  | |- context [if ?c then _ else _] => destruct c
  end.
  - by apply tracked_markTokenizationComplete.
  - by apply tracked_invalidateRow.
Qed.

Lemma tracked_tokenizeNextChunk (st st' : State) :
  tokenizeNextChunk st = Some st' → tracked st → tracked st'.
Proof.
  intros Hrun Htracked.
  destruct (tokenizeNextChunk_total st) as (st1 & Hreg & Heq).
  rewrite Heq in Hrun. injection Hrun as <-.
  destruct (regions_fields _ _ _ Hreg) as (_ & _ & _ & _ & ? & ? & ?).
  assert (tracked st1) by (by eapply tracked_quiet).
  destruct (firstInvalidRow st1).
  - by apply tracked_tokenizeInBackground.
  - by apply tracked_markTokenizationComplete.
Qed.

Lemma tracked_bufferDidChange (e : ChangeEvent) (st : State) :
  tracked st → tracked (bufferDidChange e st).
Proof.
  destruct (largeFileMode st) eqn:Hlarge;
    [|destruct (isNullGrammar st) eqn:Hnull].
  - destruct (bufferDidChange_large e st) as (_ & _ & _ & ? & ? & Hemitted & _);
      [by left|].
    apply tracked_quiet; try done. unfold didTokenizeCount. by rewrite Hemitted.
  - destruct (bufferDidChange_large e st) as (_ & _ & _ & ? & ? & Hemitted & _);
      [by right|].
    apply tracked_quiet; try done. unfold didTokenizeCount. by rewrite Hemitted.
  - destruct (bufferDidChange_rebuilt e st Hlarge Hnull)
      as (st4 & _ & ? & ? & Hemitted & ->).
    intros Htracked.
    assert (tracked st4).
    { eapply tracked_quiet; try done. unfold didTokenizeCount. by rewrite Hemitted. }
    destruct (truthy _ && negb _); [by apply tracked_invalidateRow|done].
Qed.

Lemma tracked_perform (c : Call) (st st' : State) :
  perform c st = Some st' → tracked st → tracked st'.
Proof.
  destruct c as [g| |v| | | |e|bufferRow| |[row|row|start end' delta|]];
    simpl; intros Hrun Htracked; try (injection Hrun as <-).
  - unfold setGrammar.
    assert (tracked (retokenizeLines (with_grammar g st)))
      by (by apply tracked_retokenizeLines).
    eapply tracked_quiet; [..|done]; try done.
    unfold didTokenizeCount, emit. simpl. rewrite count_occ_app. simpl. lia.
  - by apply tracked_retokenizeLines.
  - unfold setVisible.
    destruct (_ && _ && _); [by apply tracked_tokenizeInBackground|done].
  - by apply tracked_tokenizeInBackground.
  - unfold deferredChunk in Hrun.
    destruct (_ && _); [|by injection Hrun as <-].
    by eapply tracked_tokenizeNextChunk.
  - by apply tracked_markTokenizationComplete.
  - by apply tracked_bufferDidChange.
  - unfold tokenizedLineForRow.
    destruct (_ && _); [|done].
    destruct (JsArray.get _ _); [done|].
    by destruct (TextBuffer.lineForRow _ _).
  - unfold destroy. by destruct (negb _).
  - by apply tracked_invalidateRow.
  - done.
  - done.
  - by eapply tracked_tokenizeNextChunk.
Qed.

Lemma perform_returns (c : Call) (st : State) : is_Some (perform c st).
Proof.
  destruct c as [g| |v| | | |e|bufferRow| |[row|row|start end' delta|]];
    simpl; try done.
  - unfold deferredChunk. destruct (_ && _); [|done].
    destruct (tokenizeNextChunk_total
                (with_deferred (Init.Nat.pred (deferred st))
                   (with_pendingChunk false st))) as (? & _ & ->). done.
  - destruct (tokenizeNextChunk_total st) as (? & _ & ->). done.
Qed.

(** C9. Take an instance on which [fullyTokenized] was never assigned
    and [did-tokenize] never emitted. Whatever operations are called on
    it, in whatever order, all return, and the number of [did-tokenize]
    events emitted is the number of times an assignment took
    [fullyTokenized] from false to true. In the state reached,
    [markTokenizationComplete] emits nothing when [fullyTokenized] is
    true, and [did-tokenize] alone when it is false. *)
Theorem did_tokenize_once_per_transition (cs : list Call) (st : State) :
  fullyTokenized st = false →
  fullyTokenizedWrites st = [] →
  didTokenizeCount st = 0%nat →
  ∃ st',
    performAll cs st = Some st'
    ∧ didTokenizeCount st' = risingEdges false (fullyTokenizedWrites st')
    ∧ (fullyTokenized st' = true →
       emitted (markTokenizationComplete st') = emitted st')
    ∧ (fullyTokenized st' = false →
       emitted (markTokenizationComplete st') = emitted st' ++ [DidTokenize]).
Proof.
  intros Hflag Hwrites Hcount.
  assert (Htracked : tracked st).
  { unfold tracked. by rewrite Hflag, Hwrites, Hcount. }
  clear Hflag Hwrites Hcount. revert st Htracked.
  induction cs as [|c cs IH]; intros st Htracked.
  - exists st. split; [done|]. split; [apply Htracked|].
    unfold markTokenizationComplete. split; intros ->; done.
  - destruct (perform_returns c st) as [st1 Hrun].
    simpl. rewrite Hrun. simpl. apply IH.
    by eapply tracked_perform.
Qed.

End DidTokenize.

(** * Further properties *)

(** ** The list of invalid rows *)
Section InvalidRows.
Context `{Platform}.

Lemma filter_above_all (row : Z) (rows : list Z) :
  Forall (λ r, row < r) rows → filter (λ r, row < r) rows = rows.
Proof.
  induction 1 as [|r rows Hr _ IH]; [done|].
  by rewrite filter_cons_True, IH.
Qed.

(** X1. On a sorted list, [validateRow row] removes the rows up to
    [row] and keeps the others: what is left is the invalid rows
    after [row], in their order. *)
Theorem validateRow_keeps_rows_after (row : Z) (st : State) :
  Sorted Z.le (invalidRows st) →
  invalidRows (validateRow row st) = filter (λ r, row < r) (invalidRows st).
Proof.
  simpl. intros Hsorted. apply Sorted_StronglySorted in Hsorted; [|apply _].
  induction Hsorted as [|r rows _ IH Hall]; simpl; [done|].
  destruct (Z.leb_spec r row).
  - rewrite filter_cons_False by lia. apply IH.
  - symmetry. apply filter_above_all. constructor; [lia|].
    eapply Forall_impl; [exact Hall|]. simpl. intros. lia.
Qed.

(** X2. [invalidateRow row] adds [row] to the invalid rows and loses
    none: the new list is a permutation of [row] and the old rows, in
    ascending order whatever the order was; the cache, the flag and
    the events are as before. *)
Theorem invalidateRow_adds_row (row : Z) (st : State) :
  invalidRows (invalidateRow row st) ≡ₚ row :: invalidRows st
  ∧ Sorted Z.le (invalidRows (invalidateRow row st))
  ∧ tokenizedLines (invalidateRow row st) = tokenizedLines st
  ∧ fullyTokenized (invalidateRow row st) = fullyTokenized st
  ∧ emitted (invalidateRow row st) = emitted st.
Proof.
  destruct (invalidateRow_fields row st)
    as (_ & _ & _ & _ & Hlines & Hflag & _ & Hemitted & _).
  split; [|split; [apply invalidateRow_sorted|done]].
  rewrite invalidateRow_invalidRows, merge_sort_Permutation.
  by rewrite Permutation_app_comm.
Qed.

End InvalidRows.

(** ** Folding well-nested tags *)
Section WellNested.
Context `{Platform}.

Lemma popUntil_top scopes startTag :
  popUntil startTag (scopes ++ [startTag]) = (scopes, false).
Proof. by rewrite popUntil_snoc, Z.eqb_refl. Qed.

(** X3. Folding a well-nested tag stream fails no assertion and
    returns the stack it started with, whatever that stack is. *)
Theorem scopesFromTags_well_nested (tags : list Z) :
  wellNested tags →
  ∀ (startingScopes : list Z) (st : State),
    scopesFromTags startingScopes tags st = (startingScopes, st).
Proof.
  unfold scopesFromTags.
  induction 1 as [|span rest Hspan _ IH
                 |startTag inner rest Hneg Hodd _ IHinner _ IHrest];
    intros scopes st.
  - done.
  - simpl. destruct (Z.ltb_spec span 0); [lia|]. apply IH.
  - cbn [foldTags].
    destruct (Z.ltb_spec startTag 0); [|lia].
    rewrite Hodd. simpl (-1 =? -1).  cbv iota.
    rewrite foldTags_app, IHinner. cbn [fst snd foldTags].
    destruct (Z.ltb_spec (startTag - 1) 0); [|lia].
    assert ((Z.rem (startTag - 1) 2 =? -1) = false) as ->.
    { apply Z.eqb_neq. revert Hodd.
      Z.to_euclidean_division_equations. lia. }
    replace (startTag - 1 + 1) with startTag by lia.
    rewrite popUntil_top. apply IHrest.
Qed.

End WellNested.

(** ** Indentation *)
Section Indentation.
Context `{LineMethods}.

(** X4. The indent level of a line is read off its leading
    whitespace: what follows the first character that is neither a
    tab nor a space does not matter. *)
Theorem indentLevelForLine_leading_whitespace (tabLength : Z)
    (leading rest : string) (c : ascii) :
  isWhitespace c = false →
  indentLevelForLine (Some (leading +:+ String c rest)) tabLength =
  indentLevelForLine (Some leading) tabLength.
Proof.
  intros Hc. unfold indentLevelForLine. do 3 f_equal.
  generalize 0 as indentLength.
  induction leading as [|d leading IH]; intros indentLength; simpl.
  - unfold isWhitespace in Hc. apply orb_false_iff in Hc as [-> ->]. done.
  - destruct (Ascii.eqb d "009"%char); [apply IH|].
    destruct (Ascii.eqb d " "%char); [apply IH|done].
Qed.

Lemma indentLengthOf_spaces tabLength n rest indentLength :
  indentLengthOf tabLength (repeated " "%char n +:+ rest) indentLength =
  indentLengthOf tabLength rest (indentLength + Z.of_nat n).
Proof.
  revert indentLength. induction n as [|n IH]; intros indentLength.
  - simpl. f_equal. lia.
  - cbn [repeated String.append]. simpl. rewrite IH. f_equal. lia.
Qed.

Lemma indentLengthOf_tabs tabLength k rest m :
  0 < tabLength → 0 <= m →
  indentLengthOf tabLength (repeated "009"%char k +:+ rest) (m * tabLength) =
  indentLengthOf tabLength rest ((m + Z.of_nat k) * tabLength).
Proof.
  intros Htab. revert m. induction k as [|k IH]; intros m Hm.
  - simpl. f_equal. lia.
  - cbn [repeated String.append]. simpl.
    replace (m * tabLength + (tabLength - Z.rem (m * tabLength) tabLength))
      with ((m + 1) * tabLength).
    + rewrite IH by lia. f_equal. lia.
    + rewrite Z.rem_mul by lia. lia.
Qed.

(** X5. With a positive tab length, a line that starts with [k] tabs,
    then [n] spaces, then a character that is neither, has the indent
    length [k * tabLength + n]: its level is that over [tabLength]. *)
Theorem indentLevelForLine_tabs_then_spaces (tabLength : Z) (k n : nat)
    (c : ascii) (rest : string) :
  0 < tabLength →
  isWhitespace c = false →
  indentLevelForLine
    (Some (repeated "009"%char k +:+ repeated " "%char n +:+ String c rest))
    tabLength
  = Normal (inject_Z (Z.of_nat k * tabLength + Z.of_nat n) / inject_Z tabLength)%Q.
Proof.
  intros Htab Hc. unfold indentLevelForLine. do 3 f_equal.
  change 0 with (0 * tabLength).
  rewrite indentLengthOf_tabs by lia.
  rewrite indentLengthOf_spaces. simpl.
  unfold isWhitespace in Hc. apply orb_false_iff in Hc as [-> ->]. lia.
Qed.

(** X6. With a positive tab length, the indent length of a line is at
    least the number of tabs and spaces it starts with and at most
    that number times the tab length: a tab counts for one column at
    least and [tabLength] columns at most. *)
Theorem indentLengthOf_bounds (tabLength : Z) (chars : string) (indentLength : Z) :
  0 < tabLength → 0 <= indentLength →
  indentLength + Z.of_nat (leadingWhitespace chars)
    <= indentLengthOf tabLength chars indentLength
    <= indentLength + Z.of_nat (leadingWhitespace chars) * tabLength.
Proof.
  intros Htab. revert indentLength.
  induction chars as [|c chars IH]; intros indentLength Hlen;
    cbn [indentLengthOf leadingWhitespace]; [lia|].
  unfold isWhitespace.
  destruct (Ascii.eqb c "009"%char); cbn [orb].
  - assert (0 <= Z.rem indentLength tabLength < tabLength)
      by (apply Z.rem_bound_pos; lia).
    specialize (IH (indentLength + (tabLength - Z.rem indentLength tabLength))).
    nia.
  - destruct (Ascii.eqb c " "%char).
    + specialize (IH (indentLength + 1)). nia.
    + simpl. lia.
Qed.

Lemma indentLevelForLine_of_text chars tabLength :
  ∃ level, indentLevelForLine (Some chars) tabLength = Normal level.
Proof. by eexists. Qed.

Lemma lineForRow_out_of_range (b : TextBuffer.t) (row : Z) :
  row < 0 ∨ TextBuffer.getLastRow b < row → TextBuffer.lineForRow b row = None.
Proof.
  intros Hout. unfold TextBuffer.lineForRow.
  destruct (Z.ltb_spec row 0); [done|].
  apply lookup_ge_None.
  unfold TextBuffer.getLastRow, TextBuffer.getLineCount in Hout. lia.
Qed.

Lemma indentOfNextLine_returns turns : ∀ nextRow (st : State) indentLevel,
  0 <= nextRow → nextRow + Z.of_nat turns <= getLineCount st →
  ∃ level, indentOfNextLine turns nextRow st indentLevel = Normal level.
Proof.
  induction turns as [|turns IH]; intros nextRow st level Hlow Hhigh;
    [by eexists|].
  cbn [indentOfNextLine].
  destruct (lineForRow_in_range (buffer st) nextRow) as [chars ->].
  { unfold getLineCount, TextBuffer.getLastRow in *. lia. }
  destruct (negb (isEmptyLine (Some chars))); [by eexists|].
  apply IH; lia.
Qed.

Lemma indentOfPreviousLine_returns turns : ∀ previousRow (st : State) indentLevel,
  previousRow <= getLastRow st → Z.of_nat turns <= previousRow + 1 →
  ∃ level, indentOfPreviousLine turns previousRow st indentLevel = Normal level.
Proof.
  induction turns as [|turns IH]; intros previousRow st level Hhigh Hlow;
    [by eexists|].
  cbn [indentOfPreviousLine].
  destruct (lineForRow_in_range (buffer st) previousRow) as [chars ->].
  { unfold getLastRow in *. lia. }
  destruct (negb (isEmptyLine (Some chars))); [by eexists|].
  apply IH; lia.
Qed.

Lemma indentLevelForRow_in_or_out (bufferRow : Z) (st : State) :
  (0 <= bufferRow <= getLastRow st →
   ∃ level, indentLevelForRow bufferRow st = Normal level)
  ∧ (bufferRow < 0 ∨ getLastRow st < bufferRow →
     indentLevelForRow bufferRow st = Throw TypeError).
Proof.
  unfold indentLevelForRow. split.
  - intros Hrange.
    destruct (lineForRow_in_range (buffer st) bufferRow Hrange) as [chars ->].
    destruct (isEmptyLine (Some chars)); [|by eexists].
    destruct (indentOfNextLine_returns
                (Z.to_nat (getLineCount st - (bufferRow + 1)))
                (bufferRow + 1) st 0%Q) as [level ->].
    + lia.
    + unfold getLastRow, getLineCount, TextBuffer.getLastRow in *. lia.
    + simpl. apply indentOfPreviousLine_returns; lia.
  - intros Hout. by rewrite lineForRow_out_of_range.
Qed.

(** X7. [indentLevelForRow] returns a level for every row of the
    buffer, empty or not, and raises a [TypeError] for every other
    row. *)
Theorem indentLevelForRow_raises_out_of_range (bufferRow : Z) (st : State) :
  (0 <= bufferRow <= getLastRow st →
   ∃ level, indentLevelForRow bufferRow st = Normal level)
  ∧ (bufferRow < 0 ∨ getLastRow st < bufferRow →
     indentLevelForRow bufferRow st = Throw TypeError).
Proof. apply indentLevelForRow_in_or_out. Qed.

End Indentation.

(** ** Lines on demand *)
Section LinesOnDemand.
Context `{LineMethods}.

Lemma cacheGrows_refl (st : State) : cacheGrows st st.
Proof. by repeat split. Qed.

Lemma cacheGrows_trans (st1 st2 st3 : State) :
  cacheGrows st1 st2 → cacheGrows st2 st3 → cacheGrows st1 st3.
Proof.
  intros (Hb1 & Hg1 & Hl1) (Hb2 & Hg2 & Hl2).
  split; [congruence|]. split; [congruence|]. auto.
Qed.

Lemma inBuffer_spec (st : State) (row : Z) :
  inBuffer st row = true ↔ 0 <= row <= getLastRow st.
Proof.
  unfold inBuffer, getLastRow.
  destruct (Z.geb_spec row 0), (Z.leb_spec row (TextBuffer.getLastRow (buffer st)));
    simpl; split; first [done | lia].
Qed.

Lemma cacheGrows_inBuffer (st st' : State) row :
  cacheGrows st st' → inBuffer st' row = inBuffer st row.
Proof. intros (Hb & _). unfold inBuffer. by rewrite Hb. Qed.

Lemma tokenizedLineForRow_result (bufferRow : Z) (st : State) :
  ∃ line st',
    tokenizedLineForRow bufferRow st = (Normal line, st')
    ∧ line = (if inBuffer st bufferRow
              then JsArray.get (tokenizedLines st') bufferRow else None)
    ∧ (is_Some line ↔ 0 <= bufferRow <= getLastRow st)
    ∧ cacheGrows st st'
    ∧ schedule st' = schedule st
    ∧ assertions st' = assertions st
    ∧ tokenizeCalls st' = tokenizeCalls st.
Proof.
  unfold tokenizedLineForRow. fold (inBuffer st bufferRow).
  pose proof (inBuffer_spec st bufferRow) as Hin.
  destruct (inBuffer st bufferRow) eqn:Hrange.
  - assert (Hyes : 0 <= bufferRow <= getLastRow st) by (by apply Hin).
    destruct (JsArray.get (tokenizedLines st) bufferRow) as [cached|] eqn:Hslot.
    + exists (Some cached), st.
      split; [done|]. split; [done|]. split; [done|].
      split; [apply cacheGrows_refl|done].
    + destruct (lineForRow_in_range (buffer st) bufferRow Hyes) as [chars Hchars].
      rewrite Hchars. eexists _, _. split; [done|].
      split; [simpl; by rewrite JsArray_get_set, decide_True|].
      split; [done|]. split; [|done].
      split; [done|]. split; [done|].
      intros row line Hline. simpl. rewrite JsArray_get_set.
      destruct (decide (bufferRow = row)) as [->|]; [congruence|done].
  - exists None, st. split; [done|]. split; [done|].
    split; [|split; [apply cacheGrows_refl|done]].
    split; [intros []; done|].
    intros Hyes. apply Hin in Hyes. done.
Qed.

(** X8. [tokenizedLineForRow] raises for no row. It returns a line
    exactly for the rows of the buffer; that line is then in the cache
    at the row, the lines that were in the cache are still there, and
    the invalid rows, the flags and the logs are as before. *)
Theorem tokenizedLineForRow_returns (bufferRow : Z) (st : State) :
  ∃ line st',
    tokenizedLineForRow bufferRow st = (Normal line, st')
    ∧ line = (if inBuffer st bufferRow
              then JsArray.get (tokenizedLines st') bufferRow else None)
    ∧ (is_Some line ↔ 0 <= bufferRow <= getLastRow st)
    ∧ cacheGrows st st'
    ∧ schedule st' = schedule st
    ∧ assertions st' = assertions st
    ∧ tokenizeCalls st' = tokenizeCalls st.
Proof. apply tokenizedLineForRow_result. Qed.

Lemma tokenizedLineForRow_cached (bufferRow : Z) (st : State) :
  (inBuffer st bufferRow = true →
   is_Some (JsArray.get (tokenizedLines st) bufferRow)) →
  tokenizedLineForRow bufferRow st =
  (Normal (if inBuffer st bufferRow
           then JsArray.get (tokenizedLines st) bufferRow else None), st).
Proof.
  intros Hcached. unfold tokenizedLineForRow. fold (inBuffer st bufferRow).
  destruct (inBuffer st bufferRow); [|done].
  destruct (Hcached eq_refl) as [line ->]. done.
Qed.

Lemma pushLinesForRows_returns rows : ∀ result (st : State),
  ∃ st',
    pushLinesForRows rows result st =
      (Normal (result ++
               ((λ row, if inBuffer st row
                        then JsArray.get (tokenizedLines st') row else None)
                <$> rows)), st')
    ∧ cacheGrows st st'
    ∧ schedule st' = schedule st
    ∧ (∀ row, row ∈ rows → inBuffer st row = true →
         is_Some (JsArray.get (tokenizedLines st') row)).
Proof.
  induction rows as [|row rows IH]; intros result st.
  - exists st. simpl. rewrite app_nil_r.
    split; [done|]. split; [apply cacheGrows_refl|]. split; [done|].
    intros ? Hin. by apply elem_of_nil in Hin.
  - cbn [pushLinesForRows].
    destruct (tokenizedLineForRow_result row st)
      as (line & st1 & -> & Hline & Hsome & Hgrows1 & Hs1 & _).
    destruct (IH (result ++ [line]) st1) as (st' & -> & Hgrows & Hs & Hcached).
    exists st'.
    assert (Hcached1 : inBuffer st row = true →
                       is_Some (JsArray.get (tokenizedLines st1) row)).
    { intros Hin. rewrite Hin in Hline. rewrite <- Hline.
      apply Hsome. by apply inBuffer_spec. }
    assert (Hline' : line = if inBuffer st row
                            then JsArray.get (tokenizedLines st') row else None).
    { rewrite Hline. destruct (inBuffer st row); [|done].
      destruct (Hcached1 eq_refl) as [l Hl]. rewrite Hl.
      symmetry. by apply Hgrows. }
    split; [|split; [by eapply cacheGrows_trans|split; [congruence|]]].
    + rewrite <- app_assoc. simpl. rewrite <- Hline'. do 4 f_equal.
      apply list_fmap_ext. intros _ r _.
      by rewrite (cacheGrows_inBuffer st st1).
    + intros r Hr Hin. apply elem_of_cons in Hr as [->|Hr].
      * destruct (Hcached1 Hin) as [l Hl]. exists l. by apply Hgrows.
      * apply Hcached; [done|]. by rewrite (cacheGrows_inBuffer st st1).
Qed.

Lemma pushLinesForRows_cached rows : ∀ result (st : State),
  (∀ row, row ∈ rows → inBuffer st row = true →
     is_Some (JsArray.get (tokenizedLines st) row)) →
  pushLinesForRows rows result st =
  (Normal (result ++
           ((λ row, if inBuffer st row
                    then JsArray.get (tokenizedLines st) row else None)
            <$> rows)), st).
Proof.
  induction rows as [|row rows IH]; intros result st Hcached.
  - simpl. by rewrite app_nil_r.
  - cbn [pushLinesForRows].
    rewrite tokenizedLineForRow_cached
      by (apply Hcached; apply elem_of_cons; by left).
    rewrite IH by (intros; apply Hcached; [apply elem_of_cons; by right|done]).
    by rewrite <- app_assoc.
Qed.

(** X9. [tokenizedLinesForRows] raises for no rows and returns one
    entry for each row from [startRow] to [endRow]: the line now in
    the cache for a row of the buffer, nothing for another row. It
    only adds lines to the cache, and a second call returns the same
    lines and changes nothing. *)
Theorem tokenizedLinesForRows_settles (startRow endRow : Z) (st : State) :
  ∃ lines st',
    tokenizedLinesForRows startRow endRow st = (Normal lines, st')
    ∧ lines =
      ((λ row, if inBuffer st row
               then JsArray.get (tokenizedLines st') row else None)
       <$> seqZ startRow (endRow - startRow + 1))
    ∧ length lines = Z.to_nat (endRow - startRow + 1)
    ∧ (∀ row, startRow <= row <= endRow → 0 <= row <= getLastRow st →
         is_Some (JsArray.get (tokenizedLines st') row))
    ∧ cacheGrows st st'
    ∧ schedule st' = schedule st
    ∧ tokenizedLinesForRows startRow endRow st' = (Normal lines, st').
Proof.
  unfold tokenizedLinesForRows.
  destruct (pushLinesForRows_returns
              (seqZ startRow (endRow - startRow + 1)) [] st)
    as (st' & Hrun & Hgrows & Hs & Hcached).
  eexists _, st'. split; [exact Hrun|]. simpl.
  split; [done|]. split; [by rewrite length_fmap, length_seqZ|].
  split; [|split; [done|split; [done|]]].
  - intros row Hrows Hrange. apply Hcached.
    + apply elem_of_seqZ. lia.
    + by apply inBuffer_spec.
  - rewrite pushLinesForRows_cached.
    + simpl. do 2 f_equal. apply list_fmap_ext. intros _ row _.
      by rewrite (cacheGrows_inBuffer st st').
    + intros row Hrow Hin. apply Hcached; [done|].
      by rewrite <- (cacheGrows_inBuffer st st').
Qed.

(** X10. A fold of comments starts at the first line of a block of
    comment lines only: when [isFoldableCommentAtRow] is true at a
    row, it is false at the next row and not true at the row before;
    and it is true exactly when the row and the next row have comment
    lines in the cache and the row before has none. *)
Theorem isFoldableCommentAtRow_starts_block (row : Z) (st : State) :
  (isFoldableCommentAtRow row st = Some true ↔
   commentAt st row = Some true ∧ commentAt st (row + 1) = Some true
   ∧ commentAt st (row - 1) ≠ Some true)
  ∧ (isFoldableCommentAtRow row st = Some true →
     isFoldableCommentAtRow (row + 1) st = Some false
     ∧ isFoldableCommentAtRow (row - 1) st ≠ Some true).
Proof.
  assert (Hiff : isFoldableCommentAtRow row st = Some true ↔
    commentAt st row = Some true ∧ commentAt st (row + 1) = Some true
    ∧ commentAt st (row - 1) ≠ Some true).
  { unfold isFoldableCommentAtRow.
    destruct (commentAt st (row - 1)) as [[|]|];
      destruct (commentAt st row) as [[|]|];
      destruct (commentAt st (row + 1)) as [[|]|]; simpl;
      split; first [done | intros (? & ? & ?); done]. }
  split; [exact Hiff|].
  intros Hfold. apply Hiff in Hfold as (Hrow & Hnext & Hprevious).
  unfold isFoldableCommentAtRow.
  replace (row + 1 - 1) with row by lia.
  replace (row - 1 + 1) with row by lia.
  rewrite Hrow. simpl. split; [done|].
  destruct (commentAt st (row - 1 - 1)) as [[|]|];
    destruct (commentAt st (row - 1)) as [[|]|]; simpl; done.
Qed.

(** X11. When [nextNonBlankRow] of the buffer gives rows of the
    buffer, [isFoldableAtRow] raises for no row; for a row that is not
    in the buffer its value is the value of [isFoldableCommentAtRow]. *)
Theorem isFoldableAtRow_returns (row : Z) (st : State) :
  (∀ next, TextBuffer.nextNonBlankRow (buffer st) row = Some next →
     0 <= next <= getLastRow st) →
  ∃ value,
    isFoldableAtRow row st = Normal value
    ∧ (row < 0 ∨ getLastRow st < row →
       isFoldableCodeAtRow row st = Normal false
       ∧ value = isFoldableCommentAtRow row st).
Proof.
  intros Hnext. unfold isFoldableAtRow, isFoldableCodeAtRow.
  fold (inBuffer st row). pose proof (inBuffer_spec st row) as Hin.
  destruct (inBuffer st row) eqn:Hrange.
  - assert (Hyes : 0 <= row <= getLastRow st) by (by apply Hin).
    destruct (TextBuffer.nextNonBlankRow (buffer st) row) as [next|] eqn:Hn.
    + destruct (_ || _).
      * simpl. eexists. split; [done|]. lia.
      * destruct (proj1 (indentLevelForRow_in_or_out next st)
                    (Hnext next eq_refl)) as [ofNext ->].
        destruct (proj1 (indentLevelForRow_in_or_out row st) Hyes)
          as [ofRow ->].
        simpl. eexists. split; [done|]. lia.
    + simpl. eexists. split; [done|]. lia.
  - simpl. eexists. split; [done|]. done.
Qed.

End LinesOnDemand.

(** ** Selectors and the range of a scope *)
Section Selectors.
Context `{LineMethods}.

Lemma isSubset_spec (possibleSubset superset : list string) :
  isSubset possibleSubset superset = true ↔
  ∀ element, element ∈ possibleSubset → element ∈ superset.
Proof.
  unfold isSubset. rewrite forallb_forall. split.
  - intros Hall element Hin. apply list_elem_of_In in Hin.
    apply Hall, existsb_exists in Hin as (x & Hx & Heq).
    apply String.eqb_eq in Heq as ->. by apply list_elem_of_In.
  - intros Hall element Hin. apply existsb_exists. exists element.
    split; [|apply String.eqb_refl].
    apply list_elem_of_In, Hall. by apply list_elem_of_In.
Qed.

Lemma someScopeMatches_true targetClasses scopes :
  someScopeMatches targetClasses scopes = Normal true ↔
  ∃ (i : nat) scope,
    scopes !! i = Some (Some scope)
    ∧ isSubset targetClasses (split "."%char scope) = true
    ∧ ∀ j, (j < i)%nat → ∃ earlier, scopes !! j = Some (Some earlier).
Proof.
  induction scopes as [|[scope|] scopes IH]; simpl.
  - split; [done|]. intros (i & scope & Hi & _). by destruct i.
  - destruct (isSubset targetClasses (split "."%char scope)) eqn:Hsub.
    + split; [|done]. intros _. exists 0%nat, scope.
      split; [done|]. split; [done|]. intros; lia.
    + rewrite IH. split.
      * intros (i & s & Hi & Hs & Hearlier). exists (S i), s.
        split; [done|]. split; [done|].
        intros [|j] Hj; [by eexists|]. apply Hearlier. lia.
      * intros ([|i] & s & Hi & Hs & Hearlier).
        -- simpl in Hi. congruence.
        -- exists i, s. split; [done|]. split; [done|].
           intros j Hj. apply (Hearlier (S j)). lia.
  - split; [done|]. intros ([|i] & s & Hi & Hs & Hearlier); [done|].
    destruct (Hearlier 0%nat) as [earlier He]; [lia|]. done.
Qed.

Lemma someScopeMatches_raises targetClasses scopes e :
  someScopeMatches targetClasses scopes = Throw e ↔
  ∃ (i : nat),
    scopes !! i = Some None
    ∧ ∀ j, (j < i)%nat →
        ∃ earlier, scopes !! j = Some (Some earlier)
          ∧ isSubset targetClasses (split "."%char earlier) = false.
Proof.
  induction scopes as [|[scope|] scopes IH]; simpl.
  - split; [done|]. intros (i & Hi & _). by destruct i.
  - destruct (isSubset targetClasses (split "."%char scope)) eqn:Hsub.
    + split; [done|]. intros ([|i] & Hi & Hearlier); [done|].
      destruct (Hearlier 0%nat) as (earlier & He & Hno); [lia|].
      simpl in He. congruence.
    + rewrite IH. split.
      * intros (i & Hi & Hearlier). exists (S i). split; [done|].
        intros [|j] Hj; [by eexists|]. apply Hearlier. lia.
      * intros ([|i] & Hi & Hearlier); [done|].
        exists i. split; [done|].
        intros j Hj. apply (Hearlier (S j)). lia.
  - destruct e. split; [|done]. intros _. exists 0%nat.
    split; [done|]. intros; lia.
Qed.

(** X12. A selector matches a list of scopes exactly when some scope
    of the list has, among its classes (the pieces between its dots),
    every class of the selector, and no scope before it in the list is
    [null]; a leading dot of the selector does not count. The test
    raises exactly when a [null] scope comes before any scope that
    matches. *)
Theorem selectorMatchesAnyScope_characterized (selector : string)
    (scopes : list (option string)) :
  (selectorMatchesAnyScope selector scopes = Normal true ↔
   ∃ (i : nat) scope,
     scopes !! i = Some (Some scope)
     ∧ (∀ class, class ∈ split "."%char (withoutLeadingDot selector) →
          class ∈ split "."%char scope)
     ∧ ∀ j, (j < i)%nat → ∃ earlier, scopes !! j = Some (Some earlier))
  ∧ (selectorMatchesAnyScope selector scopes = Throw TypeError ↔
     ∃ (i : nat),
       scopes !! i = Some None
       ∧ ∀ j, (j < i)%nat →
           ∃ earlier, scopes !! j = Some (Some earlier)
             ∧ ¬ (∀ class, class ∈ split "."%char (withoutLeadingDot selector) →
                    class ∈ split "."%char earlier))
  ∧ selectorMatchesAnyScope (String "."%char selector) scopes
    = someScopeMatches (split "."%char selector) scopes.
Proof.
  unfold selectorMatchesAnyScope. split; [|split; [|done]].
  - rewrite someScopeMatches_true.
    by setoid_rewrite isSubset_spec.
  - rewrite someScopeMatches_raises.
    split; intros (i & Hi & Hearlier); exists i; (split; [done|]);
      intros j Hj; destruct (Hearlier j Hj) as (earlier & He & Hno);
      exists earlier; (split; [done|]).
    + rewrite <- isSubset_spec. by rewrite Hno.
    + rewrite <- isSubset_spec in Hno. by apply not_true_is_false.
Qed.

Lemma spanTotal_nonneg tags : 0 <= spanTotal tags.
Proof.
  induction tags as [|tag tags IH]; simpl; [done|].
  destruct (Z.ltb_spec tag 0); lia.
Qed.

Lemma spanTotal_app tags1 tags2 :
  spanTotal (tags1 ++ tags2) = spanTotal tags1 + spanTotal tags2.
Proof.
  induction tags1 as [|tag tags1 IH]; simpl; [done|].
  destruct (tag <? 0); lia.
Qed.

Lemma spanTotal_reverse tags : spanTotal (reverse tags) = spanTotal tags.
Proof.
  induction tags as [|tag tags IH]; simpl; [done|].
  rewrite reverse_cons, spanTotal_app, IH. simpl.
  destruct (tag <? 0); lia.
Qed.

Lemma spanTotal_no_span tags :
  (∀ tag, tag ∈ tags → tag < 0) → spanTotal tags = 0.
Proof.
  induction tags as [|tag tags IH]; intros Hall; simpl; [done|].
  destruct (Z.ltb_spec tag 0).
  - apply IH. intros. apply Hall. by right.
  - specialize (Hall tag ltac:(by left)). lia.
Qed.

(** The first loop: where it stops, and the columns there. *)
Lemma findSpan_stops g positionColumn tags : ∀ tokenIndex scopes startColumn endColumn,
  ∃ (k : nat) scopes' startColumn' endColumn',
    findSpan g positionColumn tags tokenIndex scopes startColumn endColumn
    = ((tokenIndex + k)%nat, scopes', startColumn', endColumn')
    ∧ (k <= length tags)%nat
    ∧ startColumn' = startColumn + spanTotal (take k tags)
    ∧ (startColumn' = startColumn ∨ startColumn' < positionColumn)
    ∧ ((∃ span, tags !! k = Some span ∧ 0 <= span
                ∧ endColumn' = Some (startColumn' + span)
                ∧ positionColumn <= startColumn' + span)
       ∨ (k = length tags
          ∧ ((∀ tag, tag ∈ tags → tag < 0)
             ∨ startColumn + spanTotal tags < positionColumn))).
Proof.
  induction tags as [|tag tags IH]; intros tokenIndex scopes startColumn endColumn.
  - exists 0%nat, scopes, startColumn, endColumn. simpl.
    rewrite Nat.add_0_r. split; [done|]. split; [done|]. split; [lia|].
    split; [by left|]. right. split; [done|]. left.
    intros tag Htag. by apply elem_of_nil in Htag.
  - cbn [findSpan].
    destruct (Z.ltb_spec tag 0) as [Hneg|Hspan].
    + assert (Hstep : ∀ scopes0,
        ∃ (k : nat) scopes' startColumn' endColumn',
          findSpan g positionColumn tags (S tokenIndex) scopes0
            startColumn endColumn
          = ((tokenIndex + k)%nat, scopes', startColumn', endColumn')
          ∧ (k <= length (tag :: tags))%nat
          ∧ startColumn' = startColumn + spanTotal (take k (tag :: tags))
          ∧ (startColumn' = startColumn ∨ startColumn' < positionColumn)
          ∧ ((∃ span, (tag :: tags) !! k = Some span ∧ 0 <= span
                      ∧ endColumn' = Some (startColumn' + span)
                      ∧ positionColumn <= startColumn' + span)
             ∨ (k = length (tag :: tags)
                ∧ ((∀ tag0, tag0 ∈ tag :: tags → tag0 < 0)
                   ∨ startColumn + spanTotal (tag :: tags) < positionColumn)))).
      { intros scopes0.
        destruct (IH (S tokenIndex) scopes0 startColumn endColumn)
          as (k & scopes' & sc' & ec' & Hrun & Hk & Hsc & Hle & Hcases).
        exists (S k), scopes', sc', ec'.
        split; [rewrite Hrun; do 3 f_equal; lia|].
        split; [simpl; lia|].
        split; [simpl; by destruct (Z.ltb_spec tag 0); [|lia]|].
        split; [done|].
        destruct Hcases as [Hbreak|(-> & Hend)]; [by left|].
        right. split; [done|].
        destruct Hend as [Hall|Hless].
        - left. intros tag0 Htag0.
          apply elem_of_cons in Htag0 as [->|?]; [done|by apply Hall].
        - right. simpl. by destruct (Z.ltb_spec tag 0); [|lia]. }
      destruct (Z.rem tag 2 =? -1); apply Hstep.
    + destruct (Z.geb_spec (startColumn + tag) positionColumn) as [Hreach|Hshort].
      * exists 0%nat, scopes, startColumn, (Some (startColumn + tag)).
        rewrite Nat.add_0_r. split; [done|]. split; [simpl; lia|].
        split; [simpl; lia|]. split; [by left|]. left.
        exists tag. repeat split; first [done | lia].
      * destruct (IH (S tokenIndex) scopes (startColumn + tag)
                    (Some (startColumn + tag)))
          as (k & scopes' & sc' & ec' & Hrun & Hk & Hsc & Hle & Hcases).
        exists (S k), scopes', sc', ec'.
        split; [rewrite Hrun; do 3 f_equal; lia|].
        split; [simpl; lia|].
        split; [simpl; destruct (Z.ltb_spec tag 0); lia|].
        split; [right; lia|].
        destruct Hcases as [Hbreak|(-> & Hend)]; [by left|].
        right. split; [done|]. right. simpl.
        destruct (Z.ltb_spec tag 0); [lia|].
        destruct Hend as [Hall|Hless]; [|lia].
        rewrite (spanTotal_no_span tags Hall). lia.
Qed.

Lemma expandLeft_bounds g selector tagsBefore : ∀ startScopes startColumn result,
  expandLeft g selector tagsBefore startScopes startColumn = Normal result →
  startColumn - spanTotal tagsBefore <= result <= startColumn.
Proof.
  induction tagsBefore as [|tag tags IH]; intros scopes sc result Hrun;
    cbn [expandLeft spanTotal] in *.
  - injection Hrun as <-. lia.
  - destruct (Z.ltb_spec tag 0).
    + destruct (Z.rem tag 2 =? -1); by apply IH in Hrun.
    + pose proof (spanTotal_nonneg tags).
      destruct (selectorMatchesAnyScope selector scopes) as [[|]|]; simpl in Hrun.
      * apply IH in Hrun. lia.
      * injection Hrun as <-. lia.
      * done.
Qed.

Lemma expandRight_bounds g selector tagsAfter : ∀ endScopes endColumn result,
  expandRight g selector tagsAfter endScopes (Some endColumn) = Normal result →
  ∃ column, result = Some column
            ∧ endColumn <= column <= endColumn + spanTotal tagsAfter.
Proof.
  induction tagsAfter as [|tag tags IH]; intros scopes ec result Hrun;
    cbn [expandRight spanTotal] in *.
  - injection Hrun as <-. exists ec. split; [done|lia].
  - destruct (Z.ltb_spec tag 0).
    + destruct (Z.rem tag 2 =? -1); by apply IH in Hrun.
    + pose proof (spanTotal_nonneg tags).
      destruct (selectorMatchesAnyScope selector scopes) as [[|]|]; simpl in Hrun.
      * apply IH in Hrun as (column & -> & Hbounds).
        exists column. split; [done|lia].
      * injection Hrun as <-. exists ec. split; [done|lia].
      * done.
Qed.

(** X13. A range that [bufferRangeForScopeAtPosition] returns is on
    the row of the position. When the position is a column of the line
    (from 0 to the sum of the spans of its tags, and the line has a
    span), the range starts at or before the column, ends at or after
    it, and lies within the columns of the line. *)
Theorem bufferRangeForScopeAtPosition_contains_position (selector : string)
    (position : Point) (st st' : State) (range : NewRange) :
  bufferRangeForScopeAtPosition selector position st
  = (Normal (Some range), st') →
  ∃ line,
    tokenizedLineForRow (row position) st = (Normal (Some line), st')
    ∧ (∃ startColumn endColumn,
         range = MkNewRange (row position) startColumn (row position) endColumn)
    ∧ (0 <= column position <= spanTotal (tags line) →
       (∃ span, span ∈ tags line ∧ 0 <= span) →
       ∃ startColumn endColumn,
         range = MkNewRange (row position) startColumn
                   (row position) (Some endColumn)
         ∧ 0 <= startColumn <= column position
         ∧ column position <= endColumn <= spanTotal (tags line)).
Proof.
  unfold bufferRangeForScopeAtPosition, onLineForRow.
  destruct (tokenizedLineForRow (row position) st) as [[[line|]|e] st1];
    [|done|done].
  destruct (findSpan_stops (grammar st1) (column position) (tags line) 0
              (scopeForId (grammar st1) <$> openScopes line) 0 None)
    as (k & scopes & sc & ec & Hfind & Hk & Hsc & Hle & Hcases).
  rewrite Hfind. simpl Nat.add.
  destruct (selectorMatchesAnyScope selector scopes) as [[|]|]; simpl;
    [|done|done].
  destruct (expandLeft _ _ _ _ _) as [startColumn|] eqn:Hleft; simpl; [|done].
  destruct (expandRight _ _ _ _ _) as [endColumn|] eqn:Hright; simpl; [|done].
  intros Hrun. injection Hrun as <- <-.
  exists line. split; [done|]. split; [by eexists _, _|].
  intros Hcolumn (span0 & Hspan0 & Hpos0).
  apply expandLeft_bounds in Hleft.
  rewrite spanTotal_reverse in Hleft.
  pose proof (spanTotal_nonneg (take k (tags line))).
  destruct Hcases as [(span & Hspan & Hpos & -> & Hreach)|(-> & Hend)].
  - apply expandRight_bounds in Hright as (column' & -> & Hbounds).
    exists startColumn, column'. split; [done|].
    assert (Htotal : spanTotal (tags line) =
              spanTotal (take k (tags line)) + span
              + spanTotal (drop (S k) (tags line))).
    { rewrite <- (take_drop_middle (tags line) k span Hspan) at 1.
      rewrite spanTotal_app. simpl.
      destruct (Z.ltb_spec span 0); lia. }
    pose proof (spanTotal_nonneg (drop (S k) (tags line))).
    lia.
  - exfalso. destruct Hend as [Hall|Hless]; [|lia].
    specialize (Hall span0 Hspan0). lia.
Qed.

End Selectors.

(** ** The cache under an edit *)
Section Splice.
Context {A : Type}.
Implicit Types (a : JsArray.t A) (items : list (option A)).

Lemma store_lookup items : ∀ (i k : Z) (m : gmap Z A),
  JsArray.store i items m !! k =
  match (if decide (i <= k) then items !! Z.to_nat (k - i) else None) with
  | Some (Some v) => Some v
  | _ => m !! k
  end.
Proof.
  induction items as [|[v|] items IH]; intros i k m; simpl.
  - by destruct (decide (i <= k)).
  - destruct (decide (i = k)) as [->|Hne].
    + rewrite lookup_insert_eq, decide_True by lia.
      by replace (k - k) with 0 by lia.
    + rewrite lookup_insert_ne, IH by done.
      destruct (decide (i <= k)).
      * rewrite decide_True by lia.
        replace (Z.to_nat (k - i)) with (S (Z.to_nat (k - (i + 1)))) by lia.
        done.
      * by rewrite decide_False by lia.
  - rewrite IH. destruct (decide (i <= k)).
    + destruct (decide (i = k)) as [->|Hne].
      * rewrite decide_False by lia. by replace (k - k) with 0 by lia.
      * rewrite decide_True by lia.
        replace (Z.to_nat (k - i)) with (S (Z.to_nat (k - (i + 1)))) by lia.
        done.
    + by rewrite decide_False by lia.
Qed.

Lemma named_lookup a (k : Z) :
  JsArray.named a !! k = if decide (k < 0) then JsArray.props a !! k else None.
Proof.
  unfold JsArray.named. rewrite map_lookup_filter.
  destruct (JsArray.props a !! k) as [v|]; simpl.
  - destruct (decide (k < 0)).
    + by rewrite option_guard_True.
    + by rewrite option_guard_False.
  - by destruct (decide (k < 0)).
Qed.

Lemma get_ofElements a items (k : Z) :
  JsArray.get (JsArray.ofElements (JsArray.named a) items) k =
  if decide (k < 0) then JsArray.get a k
  else mjoin (items !! Z.to_nat k).
Proof.
  unfold JsArray.get, JsArray.ofElements. simpl.
  rewrite store_lookup, named_lookup.
  destruct (decide (k < 0)).
  - by rewrite decide_False by lia.
  - rewrite decide_True by lia. replace (k - 0) with k by lia.
    by destruct (items !! Z.to_nat k) as [[v|]|].
Qed.

Lemma elements_lookup a (n : nat) :
  Z.of_nat n < JsArray.len a →
  JsArray.elements a !! n = Some (JsArray.get a (Z.of_nat n)).
Proof.
  intros Hn. unfold JsArray.elements.
  rewrite list_lookup_fmap, lookup_seqZ_lt by done. done.
Qed.

Lemma elements_length a : length (JsArray.elements a) = Z.to_nat (JsArray.len a).
Proof. unfold JsArray.elements. by rewrite length_fmap, length_seqZ. Qed.

(** What [splice] does to an array, for a start and a count of
    elements to delete that are within the array. *)
Lemma splice_within a (start deleteCount : Z) items :
  0 <= start → 0 <= deleteCount → start + deleteCount <= JsArray.len a →
  let a' := JsArray.splice a start deleteCount items in
  let added := Z.of_nat (length items) in
  JsArray.len a' = JsArray.len a - deleteCount + added
  ∧ (∀ k, k < start → JsArray.get a' k = JsArray.get a k)
  ∧ (∀ k, start <= k < start + added →
       JsArray.get a' k = mjoin (items !! Z.to_nat (k - start)))
  ∧ (∀ k, start + added <= k < JsArray.len a - deleteCount + added →
       JsArray.get a' k = JsArray.get a (k - added + deleteCount)).
Proof.
  intros Hstart Hdelete Hlen. cbv zeta. unfold JsArray.splice.
  destruct (Z.ltb_spec start 0); [lia|].
  rewrite Z.min_l, Z.max_l, Z.min_l by lia.
  assert (Htake : length (take (Z.to_nat start) (JsArray.elements a))
                  = Z.to_nat start).
  { rewrite length_take, elements_length. lia. }
  split; [|split; [|split]].
  - simpl. rewrite !length_app, Htake, length_drop, elements_length. lia.
  - intros k Hk. rewrite get_ofElements.
    destruct (decide (k < 0)); [done|].
    rewrite lookup_app_l by lia.
    rewrite lookup_take_lt by lia.
    rewrite elements_lookup by lia. simpl. f_equal. lia.
  - intros k Hk. rewrite get_ofElements, decide_False by lia.
    rewrite lookup_app_r by lia. rewrite Htake.
    rewrite lookup_app_l by lia. do 2 f_equal. lia.
  - intros k Hk. rewrite get_ofElements, decide_False by lia.
    rewrite lookup_app_r by lia. rewrite Htake.
    rewrite lookup_app_r by lia. rewrite lookup_drop.
    replace (Z.to_nat (start + deleteCount) +
             (Z.to_nat k - Z.to_nat start - length items))%nat
      with (Z.to_nat (k - Z.of_nat (length items) + deleteCount)) by lia.
    rewrite elements_lookup by lia. simpl. f_equal. lia.
Qed.

End Splice.

Section CacheUnderEdit.
Context `{Platform}.

Lemma buildSteps_length stopTokenizingAt rows : ∀ acc,
  length (foldl (buildStep stopTokenizingAt) acc rows).1.2
  = (length acc.1.2 + length rows)%nat.
Proof.
  induction rows as [|row rows IH]; intros acc; cbn [foldl length]; [lia|].
  rewrite IH. destruct acc as [[[stack scopes] built] st]. unfold buildStep.
  destruct (_ && _).
  - destruct (buildTokenizedLineForRow _ _ _ _) as [line st1].
    destruct (scopesFromTags _ _ _) as [scopes' st2]. simpl.
    rewrite length_app. simpl. lia.
  - simpl. rewrite length_app. simpl. lia.
Qed.

Lemma buildTokenizedLinesForRows_length startRow endRow stack scopes (st : State) :
  length (buildTokenizedLinesForRows startRow endRow stack scopes st).1
  = Z.to_nat (endRow - startRow + 1).
Proof.
  unfold buildTokenizedLinesForRows.
  pose proof (buildSteps_length (startRow + chunkSize st)
                (seqZ startRow (endRow - startRow + 1))
                (stack, scopes, [], st)) as Hlen.
  destruct (foldl _ _ _) as [[[stack' scopes'] built] st1].
  simpl in *. by rewrite Hlen, length_seqZ.
Qed.

(** The cache after [bufferDidChange]: the cache before, with the rows
    of the old range replaced by the new lines. *)
Lemma bufferDidChange_cache (e : ChangeEvent) (st : State) :
  ∃ items,
    tokenizedLines (bufferDidChange e st) =
      JsArray.splice (tokenizedLines st) (row (start (oldRange e)))
        (row (end' (oldRange e)) - row (start (oldRange e)) + 1) items
    ∧ (largeFileMode st || isNullGrammar st = true →
       items = replicate
                 (Z.to_nat (row (end' (newRange e)) - row (start (newRange e)) + 1))
                 None)
    ∧ (largeFileMode st || isNullGrammar st = false →
       length items =
         Z.to_nat (row (end' (newRange e)) - row (start (oldRange e)) + 1)).
Proof.
  unfold bufferDidChange. cbv zeta.
  set (st0 := with_changeCount _ st).
  set (st1 := updateInvalidRows _ _ _ st0).
  change (largeFileMode st1 || isNullGrammar st1)
    with (largeFileMode st || isNullGrammar st).
  destruct (largeFileMode st || isNullGrammar st) eqn:Hmode.
  - eexists. split; [done|]. split; [done|]. done.
  - destruct (openScopesForRow _ st1) as [scopes st2] eqn:Hopen.
    destruct (openScopesForRow_schedule (row (start (oldRange e))) st1)
      as (_ & Hl2 & _).
    rewrite Hopen in Hl2. cbn [snd] in Hl2.
    destruct (buildTokenizedLinesForRows _ _ _ _ st2)
      as [newTokenizedLines st3] eqn:Hbuild.
    pose proof (buildTokenizedLinesForRows_fields (row (start (oldRange e)))
      (row (end' (oldRange e)) +
       (row (end' (newRange e)) - row (end' (oldRange e))))
      (stackForRow st1 (row (start (oldRange e)) - 1)) scopes st2) as Hst3.
    pose proof (buildTokenizedLinesForRows_length (row (start (oldRange e)))
      (row (end' (oldRange e)) +
       (row (end' (newRange e)) - row (end' (oldRange e))))
      (stackForRow st1 (row (start (oldRange e)) - 1)) scopes st2) as Hlen.
    rewrite Hbuild in Hst3, Hlen. cbn [fst snd] in Hst3, Hlen.
    destruct Hst3 as (Hl3 & _).
    exists newTokenizedLines. split; [|split; [done|]].
    + assert (Hcache : ∀ b : bool,
        tokenizedLines
          (if b then invalidateRow
                      (row (end' (oldRange e)) +
                       (row (end' (newRange e)) - row (end' (oldRange e))) + 1)
                      (with_tokenizedLines
                         (spliceWithArray (tokenizedLines st3)
                            (row (start (oldRange e)))
                            (row (end' (oldRange e)) - row (start (oldRange e)) + 1)
                            newTokenizedLines) st3)
           else with_tokenizedLines
                  (spliceWithArray (tokenizedLines st3)
                     (row (start (oldRange e)))
                     (row (end' (oldRange e)) - row (start (oldRange e)) + 1)
                     newTokenizedLines) st3)
        = JsArray.splice (tokenizedLines st) (row (start (oldRange e)))
            (row (end' (oldRange e)) - row (start (oldRange e)) + 1)
            newTokenizedLines).
      { intros [|].
        - destruct (invalidateRow_fields
            (row (end' (oldRange e)) +
             (row (end' (newRange e)) - row (end' (oldRange e))) + 1)
            (with_tokenizedLines
               (spliceWithArray (tokenizedLines st3)
                  (row (start (oldRange e)))
                  (row (end' (oldRange e)) - row (start (oldRange e)) + 1)
                  newTokenizedLines) st3)) as (_ & _ & _ & _ & -> & _).
          simpl. unfold spliceWithArray. by rewrite Hl3, Hl2.
        - simpl. unfold spliceWithArray. by rewrite Hl3, Hl2. }
      apply Hcache.
    + intros _. rewrite Hlen. f_equal. lia.
Qed.

(** X14. Take an edit whose old rows [start..end] are rows of the
    cache and whose new range starts on the same row. After
    [bufferDidChange] the cache is longer by [delta]; the rows before
    [start] have the lines they had, the rows after the new range have
    the lines that were [delta] rows before, and in large-file mode or
    with the null grammar the rows of the new range are empty. *)
Theorem bufferDidChange_moves_cached_lines (e : ChangeEvent) (st : State) :
  let startRow := row (start (oldRange e)) in
  let endRow := row (end' (oldRange e)) in
  let delta := row (end' (newRange e)) - row (end' (oldRange e)) in
  let cache := tokenizedLines st in
  let cache' := tokenizedLines (bufferDidChange e st) in
  0 <= startRow → endRow < JsArray.len cache →
  row (start (newRange e)) = startRow →
  JsArray.len cache' = JsArray.len cache + delta
  ∧ (∀ r, r < startRow → JsArray.get cache' r = JsArray.get cache r)
  ∧ (∀ r, endRow + delta < r < JsArray.len cache + delta →
       JsArray.get cache' r = JsArray.get cache (r - delta))
  ∧ (largeFileMode st || isNullGrammar st = true →
     ∀ r, startRow <= r <= endRow + delta → JsArray.get cache' r = None).
Proof.
  intros startRow endRow delta cache cache' Hstart Hend Hsame.
  pose proof (ordered (oldRange e)) as Hold. apply Z.leb_le in Hold.
  pose proof (ordered (newRange e)) as Hnew. apply Z.leb_le in Hnew.
  fold startRow endRow in Hold. rewrite Hsame in Hnew.
  destruct (bufferDidChange_cache e st) as (items & Hcache & Hlarge & Hnormal).
  fold startRow endRow in Hcache, Hnormal. rewrite Hsame in Hlarge.
  assert (Hitems : Z.of_nat (length items) = endRow + delta - startRow + 1).
  { destruct (largeFileMode st || isNullGrammar st).
    - rewrite Hlarge by done. rewrite length_replicate. unfold delta, endRow. lia.
    - rewrite Hnormal by done. unfold delta, endRow. lia. }
  destruct (splice_within cache startRow (endRow - startRow + 1) items)
    as (Hlen & Hbefore & Hitem & Hafter); [lia|lia|lia|].
  unfold cache'. rewrite Hcache. fold cache.
  split; [lia|]. split; [done|]. split.
  - intros r Hr. rewrite Hafter by lia. f_equal. lia.
  - intros Hmode r Hr. rewrite Hitem by lia.
    rewrite Hlarge by done.
    destruct (replicate _ _ !! _) as [item|] eqn:Hlookup; [|done].
    apply lookup_replicate in Hlookup as [-> _]. done.
Qed.

End CacheUnderEdit.

Section BuildingLines.
Context `{Platform}.

Lemma seqZ_succ (m : Z) (n : nat) :
  seqZ m (Z.of_nat (S n)) = m :: seqZ (m + 1) (Z.of_nat n).
Proof.
  rewrite seqZ_cons by lia. f_equal. f_equal; lia.
Qed.

(** Once the loop of [buildTokenizedLinesForRows] has left a row
    after row 0 without a line, it leaves every later row without. *)
Lemma buildSteps_stopped stopTokenizingAt (n : nat) :
  ∀ row stack scopes built (st : State),
  0 < row → truthy stack = false ∨ stopTokenizingAt <= row →
  foldl (buildStep stopTokenizingAt) (stack, scopes, built, st)
    (seqZ row (Z.of_nat n))
  = (stack, scopes, built ++ replicate n None, st).
Proof.
  induction n as [|n IH]; intros row stack scopes built st Hrow Hstop.
  - simpl. by rewrite app_nil_r.
  - rewrite seqZ_succ. cbn [foldl]. unfold buildStep at 2.
    assert ((truthy stack || (row =? 0)) && (row <? stopTokenizingAt) = false)
      as ->.
    { destruct Hstop as [-> | Hstop].
      - by replace (row =? 0) with false by lia.
      - replace (row <? stopTokenizingAt) with false by lia.
        apply andb_false_r. }
    rewrite IH; [|lia|].
    + by rewrite <- app_assoc.
    + destruct Hstop; [by left | right; lia].
Qed.

Lemma buildSteps_prefix stopTokenizingAt (n : nat) :
  ∀ row stack scopes built (st : State),
  0 <= row →
  ∃ (lines : list TokenizedLine) stack' scopes' st',
    foldl (buildStep stopTokenizingAt) (stack, scopes, built, st)
      (seqZ row (Z.of_nat n))
    = (stack', scopes',
       built ++ (Some <$> lines) ++ replicate (n - length lines) None, st')
    ∧ (length lines ≤ n)%nat
    ∧ row + Z.of_nat (length lines) <= Z.max row stopTokenizingAt
    ∧ tokenizeCalls st' =
      tokenizeCalls st ++ seqZ row (Z.of_nat (length lines)).
Proof.
  induction n as [|n IH]; intros row stack scopes built st Hrow.
  - exists [], stack, scopes, st. simpl. rewrite !app_nil_r.
    repeat split; lia.
  - rewrite seqZ_succ. cbn [foldl]. unfold buildStep at 2.
    destruct ((truthy stack || (row =? 0)) && (row <? stopTokenizingAt))
      eqn:Hcond.
    + apply andb_prop in Hcond as [_ Hbefore]. apply Z.ltb_lt in Hbefore.
      destruct (buildTokenizedLineForRow row stack scopes st)
        as [line st1] eqn:Hbuild.
      pose proof (buildTokenizedLineForRow_state row stack scopes st) as Hst1.
      rewrite Hbuild in Hst1. cbn [snd] in Hst1.
      destruct (scopesFromTags scopes (tags line) st1) as [scopes1 st2] eqn:Hfold.
      destruct (scopesFromTags_schedule scopes (tags line) st1) as (_ & _ & Hc2).
      rewrite Hfold in Hc2. cbn [snd] in Hc2.
      destruct (IH (row + 1) (ruleStack line) scopes1 (built ++ [Some line]) st2)
        as (lines & stack' & scopes' & st' & Hrun & Hlen & Hstop & Hcalls);
        [lia|].
      exists (line :: lines), stack', scopes', st'.
      rewrite Hrun. cbn [length fmap list_fmap].
      split; [by rewrite <- app_assoc|]. split; [lia|]. split; [lia|].
      rewrite Hcalls, Hc2, Hst1. simpl.
      rewrite seqZ_succ. by rewrite <- app_assoc.
    + exists [], stack, scopes, st.
      rewrite buildSteps_stopped; [| lia |].
      * simpl. rewrite app_nil_r, <- app_assoc.
        repeat split; lia.
      * apply andb_false_iff in Hcond as [Hcond | Hcond].
        -- apply orb_false_iff in Hcond as [Hstack _]. by left.
        -- right. lia.
Qed.

(** X15. [buildTokenizedLinesForRows] from a row of the buffer
    ([0 <= startRow]) gives one entry for each row of
    [startRow..endRow]: lines for the first rows, nothing for all the
    rows after them. It builds at most [chunkSize] lines, and the
    grammar is given exactly the rows that got a line, in order. *)
Theorem buildTokenizedLinesForRows_builds_first_rows
    startRow endRow stack scopes (st : State) :
  0 <= startRow →
  ∃ lines : list TokenizedLine,
    (buildTokenizedLinesForRows startRow endRow stack scopes st).1
    = (Some <$> lines)
      ++ replicate (Z.to_nat (endRow - startRow + 1) - length lines) None
    ∧ (length lines ≤ Z.to_nat (endRow - startRow + 1))%nat
    ∧ Z.of_nat (length lines) <= Z.max 0 (chunkSize st)
    ∧ tokenizeCalls
        (buildTokenizedLinesForRows startRow endRow stack scopes st).2
      = tokenizeCalls st ++ seqZ startRow (Z.of_nat (length lines)).
Proof.
  intros Hstart. unfold buildTokenizedLinesForRows.
  destruct (buildSteps_prefix (startRow + chunkSize st)
              (Z.to_nat (endRow - startRow + 1)) startRow stack scopes [] st)
    as (lines & stack' & scopes' & st' & Hrun & Hlen & Hstop & Hcalls); [done|].
  assert (Hrows : seqZ startRow (endRow - startRow + 1)
                  = seqZ startRow (Z.of_nat (Z.to_nat (endRow - startRow + 1)))).
  { destruct (decide (0 <= endRow - startRow + 1)).
    - by rewrite Z2Nat.id.
    - rewrite Z2Nat.nonpos by lia. simpl.
      unfold seqZ. by rewrite Z2Nat.nonpos by lia. }
  rewrite Hrows, Hrun. exists lines. cbn [fst snd].
  split; [done|]. split; [done|]. split; [lia|].
  destruct (endRow >=? startRow + chunkSize st); [|done].
  destruct (tokenizeInBackground_fields
              (invalidateRow (startRow + chunkSize st) st'))
    as (_ & _ & _ & _ & _ & _ & _ & _ & _ & ->).
  by destruct (invalidateRow_fields (startRow + chunkSize st) st')
    as (_ & _ & _ & _ & _ & _ & _ & _ & ->).
Qed.

End BuildingLines.

Section OnePass.
Context `{Platform}.

(** The scopes that a fold gives do not depend on the instance. *)
Lemma foldTags_scopes tags : ∀ scopes (st st' : State),
  (foldTags tags scopes st).1 = (foldTags tags scopes st').1.
Proof.
  induction tags as [|tag tags IH]; intros scopes st st'; simpl; [done|].
  destruct (tag <? 0); [|apply IH].
  destruct (Z.rem tag 2 =? -1); [apply IH|].
  destruct (popUntil (tag + 1) scopes) as [scopes' unmatched].
  apply IH.
Qed.

Lemma tokenizedUpTo_succ (ref : State) n :
  ∃ line, tokenizedUpTo ref (S n) = line :: tokenizedUpTo ref n.
Proof. simpl. destruct (tokenizedUpTo ref n); eauto. Qed.

Lemma tokenizedUpTo_le (ref : State) m n line :
  (m ≤ n)%nat → line ∈ tokenizedUpTo ref m → line ∈ tokenizedUpTo ref n.
Proof.
  induction 1 as [|n _ IH]; [done|]. intros Hin.
  destruct (tokenizedUpTo_succ ref n) as (line' & ->). right. auto.
Qed.

Lemma onePassLine_some (ref : State) row :
  0 <= row → ∃ line, onePassLine ref row = Some line.
Proof.
  intros Hrow. unfold onePassLine. replace (row <? 0) with false by lia.
  destruct (tokenizedUpTo_succ ref (Z.to_nat row)) as (line & ->). eauto.
Qed.

Lemma onePassLine_elem (ref : State) row line :
  0 <= row → onePassLine ref row = Some line →
  line ∈ tokenizedUpTo ref (S (Z.to_nat row)).
Proof.
  intros Hrow. unfold onePassLine. replace (row <? 0) with false by lia.
  destruct (tokenizedUpTo ref (S (Z.to_nat row))); simpl; [done|].
  intros [= ->]. by left.
Qed.

Lemma head_tokenizedUpTo_next (ref : State) m previous :
  head (tokenizedUpTo ref m) = Some previous →
  head (tokenizedUpTo ref (S m))
  = Some (lineAfter ref (Z.of_nat m) (ruleStack previous)
            (scopesFromTags (openScopes previous) (tags previous) ref).1).
Proof.
  intros Hprevious. simpl.
  destruct (tokenizedUpTo ref m) as [|line earlier]; [done|].
  simpl in Hprevious. by injection Hprevious as ->.
Qed.

Lemma onePassLine_next (ref : State) row previous :
  0 <= row → onePassLine ref row = Some previous →
  onePassLine ref (row + 1)
  = Some (lineAfter ref (row + 1) (ruleStack previous)
            (scopesFromTags (openScopes previous) (tags previous) ref).1).
Proof.
  unfold onePassLine. intros Hrow.
  replace (row <? 0) with false by lia.
  replace (row + 1 <? 0) with false by lia.
  replace (Z.to_nat (row + 1)) with (S (Z.to_nat row)) by lia.
  intros Hprevious.
  rewrite (head_tokenizedUpTo_next ref _ previous Hprevious).
  do 3 f_equal. lia.
Qed.

(** The line that the inner loop of [tokenizeNextChunk] builds for a
    row after a line of the one pass is the next line of the one
    pass. *)
Lemma buildTokenizedLineForRow_next (ref st : State) row :
  0 <= row →
  buffer st = buffer ref → grammar st = grammar ref →
  (row = 0 → JsArray.get (tokenizedLines st) (-1) = None) →
  (0 < row →
   JsArray.get (tokenizedLines st) (row - 1) = onePassLine ref (row - 1)) →
  onePassLine ref row =
  Some (buildTokenizedLineForRow row (stackForRow st (row - 1))
          (openScopesForRow row st).1 (openScopesForRow row st).2).1.
Proof.
  intros Hrow Hbuffer Hgrammar Hfirst Hprevious.
  destruct (openScopesForRow_schedule row st) as (Hs1 & Hl1 & _).
  fields_of Hs1.
  destruct (decide (row = 0)) as [->|Hnot0].
  - unfold openScopesForRow, stackForRow in *.
    change (0 - 1) with (-1). rewrite (Hfirst eq_refl). simpl.
    unfold buildTokenizedLineForRow, buildTokenizedLineForRowWithText, stackForRow.
    change (0 - 1) with (-1). rewrite (Hfirst eq_refl).
    unfold onePassLine. simpl. unfold lineAfter.
    rewrite Hbuffer, Hgrammar.
    by destruct (tokenizeLine _ _ _ _).
  - destruct (onePassLine_some ref (row - 1)) as (previous & Hline); [lia|].
    pose proof (onePassLine_next ref (row - 1) previous ltac:(lia) Hline)
      as Hnext.
    replace (row - 1 + 1) with row in Hnext by lia. rewrite Hnext.
    assert (Hget : JsArray.get (tokenizedLines st) (row - 1) = Some previous).
    { rewrite Hprevious by lia. done. }
    assert (Hstack : stackForRow st (row - 1) = ruleStack previous).
    { unfold stackForRow. by rewrite Hget. }
    assert (Hstack1 : stackForRow (openScopesForRow row st).2 (row - 1)
                      = ruleStack previous).
    { unfold stackForRow. by rewrite Hl1, Hget. }
    assert (Hscopes : (openScopesForRow row st).1
                      = (scopesFromTags (openScopes previous) (tags previous) ref).1).
    { unfold openScopesForRow. rewrite Hget. apply foldTags_scopes. }
    rewrite Hstack, Hscopes.
    unfold buildTokenizedLineForRow, buildTokenizedLineForRowWithText.
    rewrite Hstack1.
    assert (Hdefault : match ruleStack previous with
                       | StackUndefined => ruleStack previous
                       | _ => ruleStack previous
                       end = ruleStack previous) by (by destruct (ruleStack previous)).
    rewrite Hdefault. unfold lineAfter.
    replace (buffer (openScopesForRow row st).2) with (buffer ref) by congruence.
    replace (grammar (openScopesForRow row st).2) with (grammar ref) by congruence.
    by destruct (tokenizeLine _ _ _ _).
Qed.

Lemma buildTokenizedLineForRow_onePass (ref st : State) row :
  0 <= row → tokenizedThrough ref st row →
  onePassLine ref row =
  Some (buildTokenizedLineForRow row (stackForRow st (row - 1))
          (openScopesForRow row st).1 (openScopesForRow row st).2).1.
Proof.
  intros Hrow (Hbuffer & Hgrammar & Hdone & Hleft).
  apply buildTokenizedLineForRow_next; try done.
  - intros _. apply Hleft. lia.
  - intros Hpositive. apply Hdone. lia.
Qed.

Lemma tokenizeRows_onePass (ref : State) fuel :
  ∀ lastRow row rowsRemaining (st : State)
    endRow filledRegion rowsRemaining' st2,
  (∀ r line, 0 <= r <= lastRow → onePassLine ref r = Some line →
             ruleStack line ≠ StackUndefined) →
  0 <= row <= lastRow →
  tokenizedThrough ref st row →
  tokenizeRows fuel lastRow row rowsRemaining st
  = Some (endRow, filledRegion, rowsRemaining', st2) →
  tokenizedThrough ref st2 (endRow + 1)
  ∧ (filledRegion = true → endRow = lastRow).
Proof.
  induction fuel as [|fuel IH];
    intros lastRow row rr st endRow filled rr' st2 Hstacks Hrow Hthrough Hrun;
    [done|].
  cbn [tokenizeRows] in Hrun.
  pose proof (buildTokenizedLineForRow_onePass ref st row ltac:(lia) Hthrough)
    as Hline.
  destruct (openScopesForRow_schedule row st) as (Hs1 & Hl1 & _).
  destruct (openScopesForRow row st) as [scopes st1] eqn:Hopen.
  cbn [fst snd] in Hline, Hs1, Hl1.
  pose proof (buildTokenizedLineForRow_state row (stackForRow st (row - 1))
                scopes st1) as Hst2.
  destruct (buildTokenizedLineForRow row (stackForRow st (row - 1)) scopes st1)
    as [line st2'] eqn:Hbuild.
  cbn [fst snd] in Hline, Hst2. subst st2'.
  set (st3 := with_tokenizedLines _ _) in Hrun.
  destruct Hthrough as (Hbuffer & Hgrammar & Hdone & Hleft).
  fields_of Hs1.
  assert (Hthrough3 : tokenizedThrough ref st3 (row + 1)).
  { split; [simpl; congruence|]. split; [simpl; congruence|].
    split; intros r Hr; unfold st3; simpl; rewrite JsArray_get_set, Hl1.
    - destruct (decide (row = r)) as [<-|?]; [done|]. apply Hdone. lia.
    - destruct (decide (row = r)); [lia|]. apply Hleft. lia. }
  destruct (rr - 1 =? 0).
  { injection Hrun as <- <- <- <-. done. }
  assert (Hprevious : stackForRow st row = StackUndefined).
  { unfold stackForRow. by rewrite Hleft by lia. }
  assert (Hnew : stackForRow st3 row = ruleStack line).
  { unfold stackForRow, st3. simpl. rewrite JsArray_get_set.
    by destruct (decide (row = row)). }
  assert (Hdiffer : isEqual (stackForRow st3 row) (stackForRow st row) = false).
  { rewrite Hnew, Hprevious.
    pose proof (Hstacks row line Hrow (eq_sym (eq_sym Hline))) as Hdefined.
    by destruct (ruleStack line). }
  rewrite Hdiffer, orb_false_r in Hrun.
  destruct (Z.eqb_spec row lastRow) as [->|Hmore].
  { injection Hrun as <- <- <- <-. done. }
  eapply IH; [done| |done|done]. lia.
Qed.

Lemma merge_sort_one (r : Z) : merge_sort Z.le [r] = [r].
Proof. done. Qed.

Lemma firstPass_emit (ref st : State) e :
  firstPass ref st → firstPass ref (emit e st).
Proof.
  intros (k & Hk & (Hb & Hg & Hdone & Hleft) & Hrows & Hcalls).
  exists k. done.
Qed.

(** The outer loop of [tokenizeNextChunk] keeps a first pass one. *)
Lemma regions_firstPass (ref : State) rowsRemaining (st st' : State) :
  stacksDefined ref →
  regions rowsRemaining st st' → firstPass ref st → firstPass ref st'.
Proof.
  intros Hstacks.
  assert (Hdefined : ∀ r line, 0 <= r <= getLastRow ref →
            onePassLine ref r = Some line → ruleStack line ≠ StackUndefined).
  { intros r line Hr Hline.
    eapply (proj1 (Forall_forall _ _) Hstacks).
    eapply tokenizedUpTo_le; [|by apply (onePassLine_elem ref r line); [lia|]].
    unfold getLastRow, getLineCount, TextBuffer.getLastRow in *. lia. }
  induction 1 as [rr st _
                 |rr st startRow rest st' Hrows Hrr Hskip _ IH
                 |rr st startRow rest endRow filled rr' st2 st'
                    Hrows Hrr Hin Hrun _ IH]; [done| |].
  - intros (k & Hk & Hthrough & Hleft & Hcalls). apply IH.
    destruct Hleft as [Hleft | [Hleft _]]; [|congruence].
    rewrite Hrows in Hleft. injection Hleft as -> ->.
    assert (Hbuffer : buffer st = buffer ref) by apply Hthrough.
    exists k. split; [done|]. split; [done|]. split; [|done].
    right. split; [done|].
    unfold getLastRow, getLineCount, TextBuffer.getLastRow in *.
    rewrite Hbuffer in Hskip. lia.
  - intros (k & Hk & Hthrough & Hleft & Hcalls). apply IH. clear IH.
    destruct Hleft as [Hleft | [Hleft _]]; [|congruence].
    rewrite Hrows in Hleft. injection Hleft as -> ->.
    assert (Hbuffer : buffer st = buffer ref) by apply Hthrough.
    assert (Hlast : getLastRow st = getLastRow ref).
    { unfold getLastRow. by rewrite Hbuffer. }
    destruct (tokenizeRows_facts _ _ _ _ _ _ _ _ Hin Hrun)
      as (Hend & _ & _ & _ & Hs & Hcalls2).
    destruct (tokenizeRows_onePass ref (S (Z.to_nat (getLastRow st - k)))
                (getLastRow st) k rr
                (with_invalidRows [] st) endRow filled rr' st2)
      as (Hthrough2 & Hfilled);
      [by rewrite Hlast | lia | exact Hthrough | exact Hrun |].
    fields_of Hs. simpl in *.
    destruct Hthrough2 as (Hb2 & Hg2 & Hdone2 & Hleft2).
    assert (Hcount : getLineCount ref = getLastRow ref + 1).
    { unfold getLastRow, getLineCount, TextBuffer.getLastRow. lia. }
    assert (Hcalls' : tokenizeCalls st2 = tokenizeCalls ref ++ seqZ 0 (endRow + 1)).
    { assert (seqZ 0 (endRow + 1) = seqZ 0 k ++ seqZ k (endRow - k + 1)) as ->.
      { replace (endRow + 1) with (k + (endRow - k + 1)) at 1 by lia.
        apply seqZ_app; lia. }
      by rewrite Hcalls2, Hcalls, <- app_assoc. }
    apply firstPass_emit.
    exists (endRow + 1). split; [lia|].
    destruct filled; cbn [negb].
    + split; [done|]. split; [|done]. right.
      unfold validateRow. simpl.
      replace (invalidRows st2) with (@nil Z) by congruence. simpl.
      split; [done|]. rewrite Hfilled by done. lia.
    + destruct (invalidateRow_fields (endRow + 1) (validateRow endRow st2))
        as (Hb & _ & Hg & _ & Hl & _ & _ & _ & Hc).
      split.
      { split; [by rewrite Hb|]. split; [by rewrite Hg|].
        rewrite Hl. done. }
      split; [|by rewrite Hc].
      left. rewrite invalidateRow_invalidRows. unfold validateRow. simpl.
      replace (invalidRows st2) with (@nil Z) by congruence. done.
Qed.

Lemma tokenizeNextChunk_firstPass (ref st st' : State) :
  stacksDefined ref →
  tokenizeNextChunk st = Some st' → firstPass ref st → firstPass ref st'.
Proof.
  intros Hstacks Hrun Hpass.
  destruct (tokenizeNextChunk_total st) as (st1 & Hreg & Heq).
  rewrite Heq in Hrun. injection Hrun as <-.
  destruct (regions_firstPass ref _ _ _ Hstacks Hreg Hpass)
    as (k & Hk & (Hb & Hg & Hdone & Hleft) & Hrows & Hcalls).
  exists k. split; [done|]. unfold tokenizedThrough.
  destruct (firstInvalidRow st1).
  - destruct (tokenizeInBackground_fields st1)
      as (-> & _ & -> & _ & -> & -> & _ & _ & _ & ->). done.
  - destruct (markTokenizationComplete_fields st1)
      as (-> & _ & -> & _ & -> & -> & _ & -> & _). done.
Qed.

Lemma tokenizeChunks_firstPass (ref : State) n : ∀ (st st' : State),
  stacksDefined ref →
  tokenizeChunks n st = Some st' → firstPass ref st → firstPass ref st'.
Proof.
  induction n as [|n IH]; intros st st' Hstacks Hrun Hpass; simpl in Hrun.
  - by injection Hrun as <-.
  - destruct (tokenizeNextChunk st) as [st1|] eqn:Hone; [|done].
    simpl in Hrun. eapply IH; [done|done|].
    by eapply tokenizeNextChunk_firstPass.
Qed.

(** [retokenizeLines] of a live instance with a grammar starts a
    first pass. *)
Lemma retokenizeLines_firstPass (st : State) :
  alive st = true → largeFileMode st || isNullGrammar st = false →
  0 <= getLineCount st ∧ firstPass st (retokenizeLines st)
  ∧ chunkSize (retokenizeLines st) = chunkSize st
  ∧ pending (retokenizeLines st) = Z.to_nat (getLineCount st + 1).
Proof.
  intros Halive Hmode. unfold retokenizeLines. rewrite Halive. simpl.
  change (largeFileMode _ || isNullGrammar _)
    with (largeFileMode st || isNullGrammar st).
  rewrite Hmode.
  set (st3 := with_invalidRows [] _).
  destruct (invalidateRow_fields 0 st3)
    as (Hb & Hc & Hg & _ & Hl & _ & _ & _ & Hcalls).
  assert (Hcount : 0 <= getLineCount st).
  { unfold getLineCount, TextBuffer.getLineCount. lia. }
  split; [done|]. split; [|split; [done|]].
  - exists 0. split; [done|]. split.
    + split; [by rewrite Hb|]. split; [by rewrite Hg|].
      rewrite Hl. split; [intros; lia|]. intros r _. done.
    + split; [left; by rewrite invalidateRow_invalidRows|].
      rewrite Hcalls. simpl. by rewrite app_nil_r.
  - unfold pending. rewrite invalidateRow_invalidRows. simpl.
    unfold getLastRow. rewrite Hb. simpl. unfold rowWeight.
    unfold getLineCount, TextBuffer.getLastRow in *. lia.
Qed.

(** X16. Take a live instance with a grammar (not large-file mode,
    not the null grammar), a positive [chunkSize], and a grammar that
    gives no [undefined] rule stack on the lines of the buffer. After
    [retokenizeLines], more than [lineCount + 1] runs of
    [tokenizeNextChunk] leave the instance fully tokenized, with every
    row of the buffer holding the line of a tokenization in one pass
    from the first row (each line built from the rule stack and the
    open scopes that the line before it leaves), whatever the chunk
    size; the grammar was given each row once, in order. *)
Theorem background_tokenization_is_one_pass (st : State) (n : nat) :
  alive st = true →
  largeFileMode st || isNullGrammar st = false →
  0 < chunkSize st →
  stacksDefined st →
  (Z.to_nat (getLineCount st + 1) < n)%nat →
  ∃ st', tokenizeChunks n (retokenizeLines st) = Some st'
    ∧ fullyTokenized st' = true
    ∧ invalidRows st' = []
    ∧ (∀ r, 0 <= r <= getLastRow st →
         JsArray.get (tokenizedLines st') r = onePassLine st r)
    ∧ tokenizeCalls st' = tokenizeCalls st ++ seqZ 0 (getLineCount st).
Proof.
  intros Halive Hmode Hsize Hstacks Hn.
  destruct (retokenizeLines_firstPass st Halive Hmode)
    as (Hcount & Hpass & Hchunk & Hpending).
  destruct (tokenizeChunks_drain n (retokenizeLines st))
    as (st' & Hrun & Hrows & Hflag); [lia|lia|].
  exists st'. split; [done|]. split; [done|]. split; [done|].
  destruct (tokenizeChunks_firstPass _ n _ _ Hstacks Hrun Hpass)
    as (k & Hk & (_ & _ & Hdone & _) & Hleft & Hcalls).
  destruct Hleft as [Hleft | [_ ->]]; [congruence|].
  split; [|done].
  intros r Hr. rewrite Hdone; [done|].
  unfold getLastRow, getLineCount, TextBuffer.getLastRow in *. simpl. lia.
Qed.

End OnePass.

Section Deferral.
Context `{Platform}.

Lemma debounced_same (st st' : State) :
  pendingChunk st' = pendingChunk st → deferred st' = deferred st →
  debounced st → debounced st'.
Proof. unfold debounced. by intros -> ->. Qed.

Lemma tokenizeInBackground_live (st : State) :
  alive (tokenizeInBackground st) = alive st
  ∧ visible (tokenizeInBackground st) = visible st.
Proof. unfold tokenizeInBackground. by destruct (negb _ || _ || negb _). Qed.

Lemma tokenizeInBackground_debounced (st : State) :
  debounced st → debounced (tokenizeInBackground st).
Proof.
  unfold debounced, tokenizeInBackground.
  destruct (visible st), (pendingChunk st) eqn:Hpending, (alive st); simpl;
    rewrite ?Hpending; try done.
  by intros ->.
Qed.

(** With the instance visible and alive, [tokenizeInBackground] leaves
    exactly one callback queued. *)
Lemma tokenizeInBackground_queues (st : State) :
  alive st = true → visible st = true → debounced st →
  pendingChunk (tokenizeInBackground st) = true
  ∧ deferred (tokenizeInBackground st) = 1%nat.
Proof.
  unfold debounced, tokenizeInBackground. intros -> ->.
  destruct (pendingChunk st) eqn:Hpending; simpl; [done|].
  by intros ->.
Qed.

Lemma invalidateRow_live row (st : State) :
  alive (invalidateRow row st) = alive st
  ∧ visible (invalidateRow row st) = visible st.
Proof.
  unfold invalidateRow, tokenizeInBackground.
  by destruct (negb _ || _ || negb _).
Qed.

Lemma invalidateRow_debounced row (st : State) :
  debounced st → debounced (invalidateRow row st).
Proof. intros Hst. unfold invalidateRow. by apply tokenizeInBackground_debounced. Qed.

Lemma invalidateRow_rows row (st : State) : invalidRows (invalidateRow row st) ≠ [].
Proof.
  rewrite invalidateRow_invalidRows. intros Hnil.
  pose proof (merge_sort_Permutation Z.le (invalidRows st ++ [row])) as Hperm.
  rewrite Hnil in Hperm. apply Permutation_length in Hperm.
  rewrite length_app in Hperm. simpl in Hperm. lia.
Qed.

Lemma regions_debounced rowsRemaining (st st' : State) :
  regions rowsRemaining st st' →
  alive st' = alive st ∧ visible st' = visible st
  ∧ (debounced st → debounced st').
Proof.
  induction 1 as [rr st _
                 |rr st startRow rest st' _ _ _ _ IH
                 |rr st startRow rest endRow filled rr' st2 st'
                    _ _ Hin Hrun _ IH]; [done|apply IH|].
  destruct (tokenizeRows_facts _ _ _ _ _ _ _ _ Hin Hrun)
    as (_ & _ & _ & _ & Hs & _).
  fields_of Hs. simpl in *.
  destruct IH as (Ha' & Hv' & IH).
  assert (Hst2 : debounced st → debounced (validateRow endRow st2)).
  { apply debounced_same; simpl; congruence. }
  destruct filled; cbn [negb] in *.
  - split; [simpl in *; congruence|]. split; [simpl in *; congruence|].
    intros Hst. apply IH.
    apply (debounced_same (validateRow endRow st2)); [done|done|].
    by apply Hst2.
  - destruct (invalidateRow_live (endRow + 1) (validateRow endRow st2))
      as [Ha Hv].
    split; [simpl in *; congruence|]. split; [simpl in *; congruence|].
    intros Hst. apply IH.
    apply (debounced_same (invalidateRow (endRow + 1) (validateRow endRow st2)));
      [done|done|].
    apply invalidateRow_debounced. by apply Hst2.
Qed.

(** A chunk that leaves no invalid row has queued nothing. *)
Lemma regions_quiet rowsRemaining (st st' : State) :
  regions rowsRemaining st st' → invalidRows st' = [] →
  pendingChunk st' = pendingChunk st ∧ deferred st' = deferred st.
Proof.
  induction 1 as [rr st _
                 |rr st startRow rest st' _ _ _ _ IH
                 |rr st startRow rest endRow filled rr' st2 st'
                    _ Hrr Hin Hrun Hrest IH]; [done|apply IH|].
  intros Hnone.
  destruct (tokenizeRows_facts _ _ _ _ _ _ _ _ Hin Hrun)
    as (_ & _ & Hfilled & _ & Hs & _).
  fields_of Hs. simpl in *.
  destruct filled; cbn [negb] in *.
  - destruct (IH Hnone) as [-> ->]. simpl. done.
  - assert (rr' = 0) by (by apply Hfilled). subst rr'.
    inversion Hrest; subst; try lia.
    exfalso. revert Hnone. simpl.
    apply invalidateRow_rows.
Qed.

Lemma tokenizeNextChunk_debounced (st st' : State) :
  tokenizeNextChunk st = Some st' → debounced st → debounced st'.
Proof.
  intros Hrun Hst.
  destruct (tokenizeNextChunk_total st) as (st1 & Hreg & Heq).
  rewrite Heq in Hrun. injection Hrun as <-.
  destruct (regions_debounced _ _ _ Hreg) as (_ & _ & Hst1).
  destruct (firstInvalidRow st1).
  - apply tokenizeInBackground_debounced. auto.
  - destruct (markTokenizationComplete_fields st1)
      as (_ & _ & _ & _ & _ & _ & _ & _ & Hd & Hp).
    eapply debounced_same; [exact Hp|exact Hd|auto].
Qed.

Lemma deferredChunk_debounced (st st' : State) :
  deferredChunk st = Some st' → debounced st → debounced st'.
Proof.
  unfold deferredChunk. intros Hrun Hst.
  assert (Hst1 : debounced (with_deferred (Init.Nat.pred (deferred st))
                             (with_pendingChunk false st))).
  { unfold debounced in *. simpl. rewrite Hst. by destruct (pendingChunk st). }
  destruct (_ && _); [|by injection Hrun as <-].
  by eapply tokenizeNextChunk_debounced.
Qed.

Lemma retokenizeLines_debounced (st : State) :
  debounced st → debounced (retokenizeLines st).
Proof.
  intros Hst. unfold retokenizeLines.
  destruct (negb (alive st)); [done|].
  match goal with
  | |- context [if ?c then _ else _] => destruct c
  end.
  - match goal with
    | |- debounced (markTokenizationComplete ?s) =>
        destruct (markTokenizationComplete_fields s)
          as (_ & _ & _ & _ & _ & _ & _ & _ & Hd & Hp)
    end.
    eapply debounced_same; [exact Hp|exact Hd|done].
  - by apply invalidateRow_debounced.
Qed.

Lemma buildTokenizedLinesForRows_debounced
    startRow endRow stack scopes (st : State) :
  debounced st →
  debounced (buildTokenizedLinesForRows startRow endRow stack scopes st).2.
Proof.
  intros Hst. unfold buildTokenizedLinesForRows.
  pose proof (buildSteps_fields (startRow + chunkSize st)
                (seqZ startRow (endRow - startRow + 1))
                (stack, scopes, [], st)) as Hfold.
  destruct (foldl _ _ _) as [[[stack' scopes'] built] st1].
  simpl in Hfold. destruct Hfold as [Hs _]. fields_of Hs.
  assert (debounced st1) by (eapply debounced_same; [| |exact Hst]; done).
  destruct (endRow >=? startRow + chunkSize st); simpl; [|done].
  apply tokenizeInBackground_debounced. by apply invalidateRow_debounced.
Qed.

Lemma bufferDidChange_debounced (e : ChangeEvent) (st : State) :
  debounced st → debounced (bufferDidChange e st).
Proof.
  intros Hst. unfold bufferDidChange. cbv zeta.
  set (st0 := with_changeCount _ st).
  set (st1 := updateInvalidRows _ _ _ st0).
  assert (Hst1 : debounced st1) by done.
  destruct (largeFileMode st1 || isNullGrammar st1); [done|].
  destruct (openScopesForRow_schedule (row (start (oldRange e))) st1)
    as (Hs2 & _ & _).
  destruct (openScopesForRow _ st1) as [scopes st2].
  cbn [snd] in Hs2. fields_of Hs2.
  assert (Hst2 : debounced st2) by (eapply debounced_same; [| |exact Hst1]; done).
  pose proof (buildTokenizedLinesForRows_debounced (row (start (oldRange e)))
    (row (end' (oldRange e)) +
     (row (end' (newRange e)) - row (end' (oldRange e))))
    (stackForRow st1 (row (start (oldRange e)) - 1)) scopes st2 Hst2) as Hst3.
  destruct (buildTokenizedLinesForRows _ _ _ _ st2) as [newTokenizedLines st3].
  cbn [snd] in Hst3.
  match goal with
  | |- context [if ?c then _ else _] => destruct c
  end; [apply invalidateRow_debounced|]; done.
Qed.

Lemma perform_debounced (c : Call) (st st' : State) :
  perform c st = Some st' → debounced st → debounced st'.
Proof.
  destruct c as [g| |v| | | |e|bufferRow| |[row|row|start end' delta|]];
    simpl; intros Hrun Hst; try (injection Hrun as <-).
  - unfold setGrammar.
    apply (debounced_same (retokenizeLines (with_grammar g st))); [done|done|].
    by apply retokenizeLines_debounced.
  - by apply retokenizeLines_debounced.
  - unfold setVisible.
    destruct (_ && _ && _); [by apply tokenizeInBackground_debounced|done].
  - by apply tokenizeInBackground_debounced.
  - by eapply deferredChunk_debounced.
  - destruct (markTokenizationComplete_fields st)
      as (_ & _ & _ & _ & _ & _ & _ & _ & Hd & Hp).
    eapply debounced_same; [exact Hp|exact Hd|done].
  - by apply bufferDidChange_debounced.
  - unfold tokenizedLineForRow.
    destruct (_ && _); [|done].
    destruct (JsArray.get _ _); [done|].
    by destruct (TextBuffer.lineForRow _ _).
  - unfold destroy. by destruct (negb _).
  - by apply invalidateRow_debounced.
  - done.
  - done.
  - by eapply tokenizeNextChunk_debounced.
Qed.

(** X17. At most one chunk is queued at a time. On an instance whose
    flag [pendingChunk] says whether a callback is queued (and none
    is queued twice), every sequence of operations of the class,
    the callback of [_.defer] among them, returns and leaves it so:
    at most one callback is queued, and [pendingChunk] is true exactly
    when one is. *)
Theorem at_most_one_chunk_is_queued (cs : list Call) (st : State) :
  debounced st →
  ∃ st', performAll cs st = Some st'
    ∧ (deferred st' ≤ 1)%nat
    ∧ (pendingChunk st' = true ↔ deferred st' = 1%nat).
Proof.
  revert st. induction cs as [|c cs IH]; intros st Hst.
  - exists st. split; [done|]. unfold debounced in Hst. rewrite Hst.
    destruct (pendingChunk st); split; (lia || done).
  - destruct (perform_returns c st) as [st1 Hrun].
    simpl. rewrite Hrun. simpl. apply IH.
    by eapply perform_debounced.
Qed.

Lemma runDeferred_idle n (st : State) :
  deferred st = 0%nat → runDeferred n st = Some st.
Proof. intros Hnone. destruct n; simpl; [done|]. by rewrite Hnone. Qed.

(** The chain of deferred chunks, with an invariant [P] of the
    callback carried to its end. *)
Lemma runDeferred_drains (P : State → Prop) n : ∀ (st : State),
  (∀ s s', P s → deferredChunk s = Some s' → P s') →
  P st →
  alive st = true → TextBuffer.isAlive (buffer st) = true →
  visible st = true → 0 < chunkSize st →
  pendingChunk st = true → deferred st = 1%nat →
  (pending st < n)%nat →
  ∃ st', runDeferred n st = Some st' ∧ P st'
    ∧ deferred st' = 0%nat ∧ pendingChunk st' = false
    ∧ invalidRows st' = [] ∧ fullyTokenized st' = true.
Proof.
  induction n as [|n IH];
    intros st Hkeeps HP Halive Hbuffer Hvisible Hsize Hpending Hqueued Hn; [lia|].
  cbn [runDeferred]. rewrite Hqueued.
  pose proof (Hkeeps st) as Hkeep.
  unfold deferredChunk in Hkeep |- *. rewrite Hqueued in Hkeep |- *.
  set (st1 := with_deferred _ (with_pendingChunk false st)) in *.
  assert (Hlive : alive st1 && TextBuffer.isAlive (buffer st1) = true).
  { simpl. by rewrite Halive, Hbuffer. }
  rewrite Hlive in Hkeep |- *.
  destruct (tokenizeNextChunk_total st1) as (st2 & Hreg & Heq).
  rewrite Heq in Hkeep |- *. simpl.
  specialize (Hkeep _ HP eq_refl).
  destruct (regions_fields _ _ _ Hreg) as (Hb2 & Hc2 & _).
  destruct (regions_debounced _ _ _ Hreg) as (Ha2 & Hv2 & Hd2).
  specialize (Hd2 eq_refl).
  unfold firstInvalidRow in *.
  destruct (invalidRows st2) as [|r rest] eqn:Hrows2; simpl in *.
  - destruct (regions_quiet _ _ _ Hreg Hrows2) as [Hp2 Hq2]. simpl in *.
    destruct (markTokenizationComplete_fields st2)
      as (_ & _ & _ & _ & Hrows' & _ & Hflag' & _ & Hd' & Hp').
    rewrite runDeferred_idle by congruence.
    eexists. split; [done|]. split; [done|].
    repeat split; congruence.
  - destruct (tokenizeInBackground_queues st2) as [Hp3 Hq3];
      [congruence|congruence|done|].
    destruct (tokenizeInBackground_live st2) as [Ha3 Hv3].
    destruct (tokenizeInBackground_fields st2)
      as (Hb3 & Hc3 & _ & _ & Hr3 & _).
    apply IH; try congruence; [done|].
    assert (invalidRows st1 ≠ []).
    { intros Hnil. apply regions_of_no_rows in Hreg; [|done]. congruence. }
    destruct (regions_pending _ _ _ Hreg) as [_ Hless].
    specialize (Hless Hsize ltac:(done)).
    unfold pending, getLastRow in *. rewrite Hb3, Hr3.
    simpl in Hless. lia.
Qed.

(** X18. The chain of deferred chunks ends. Take a live, visible
    instance on a live buffer, with a positive [chunkSize] and one
    chunk queued. Running the queued callbacks one after the other,
    each queueing the next while an invalid row is left, returns
    after at most [pending st + 1] of them, with nothing queued, no
    invalid row and [fullyTokenized] true. *)
Theorem deferred_chunks_drain (st : State) (n : nat) :
  alive st = true → TextBuffer.isAlive (buffer st) = true →
  visible st = true → 0 < chunkSize st →
  pendingChunk st = true → deferred st = 1%nat →
  (pending st < n)%nat →
  ∃ st', runDeferred n st = Some st'
    ∧ deferred st' = 0%nat ∧ pendingChunk st' = false
    ∧ invalidRows st' = [] ∧ fullyTokenized st' = true.
Proof.
  intros Halive Hbuffer Hvisible Hsize Hpending Hqueued Hn.
  destruct (runDeferred_drains (λ _, True) n st) as (st' & Hrun & _ & Hrest);
    try done.
  by exists st'.
Qed.

End Deferral.

Section Lifecycle.
Context `{Platform}.

(** The fields of a new instance with a grammar, once it is visible. *)
Lemma construct_with_grammar (b : TextBuffer.t) (t : Z) (g : Grammar) (c : Z) :
  String.eqb (name g) "Null Grammar" = false →
  setVisible true (construct b t false g c)
  = {| alive := true;
       buffer := b;
       tabLength := t;
       largeFileMode := false;
       grammar := g;
       tokenizedLines := JsArray.create (TextBuffer.getLineCount b);
       invalidRows := [0];
       fullyTokenized := false;
       visible := true;
       pendingChunk := true;
       chunkSize := c;
       changeCount := 0;
       emitted := [DidChangeGrammar];
       assertions := [];
       deferred := 1;
       tokenizeCalls := [];
       fullyTokenizedWrites := [false] |}
  ∧ deferred (construct b t false g c) = 0%nat
  ∧ tokenizeCalls (construct b t false g c) = []
  ∧ buffer (construct b t false g c) = b
  ∧ grammar (construct b t false g c) = g.
Proof.
  intros Hname.
  unfold setVisible, construct, setGrammar, retokenizeLines, isNullGrammar,
    invalidateRow, tokenizeInBackground, emit, getLineCount.
  simpl. rewrite !Hname. simpl. rewrite ?Hname. done.
Qed.

Lemma markTokenizationComplete_count (st : State) :
  didTokenizeCount st = (if fullyTokenized st then 1 else 0)%nat →
  didTokenizeCount (markTokenizationComplete st) = 1%nat.
Proof.
  unfold markTokenizationComplete, didTokenizeCount.
  destruct (fullyTokenized st); simpl; [done|].
  rewrite count_occ_app. simpl. lia.
Qed.

(** What the callback of [_.defer] keeps during a first pass. *)
Lemma deferredChunk_firstPass (ref s s' : State) :
  stacksDefined ref →
  firstPass ref s
  ∧ didTokenizeCount s = (if fullyTokenized s then 1 else 0)%nat →
  deferredChunk s = Some s' →
  firstPass ref s'
  ∧ didTokenizeCount s' = (if fullyTokenized s' then 1 else 0)%nat.
Proof.
  intros Hstacks [Hpass Hcount]. unfold deferredChunk.
  set (s1 := with_deferred _ (with_pendingChunk false s)).
  assert (Hpass1 : firstPass ref s1).
  { destruct Hpass as (k & Hk & (Hb & Hg & Hdone & Hleft) & Hrows & Hcalls).
    by exists k. }
  destruct (_ && _); [|by intros [= <-]].
  intros Hrun. split; [by eapply tokenizeNextChunk_firstPass|].
  destruct (tokenizeNextChunk_total s1) as (s2 & Hreg & Heq).
  rewrite Heq in Hrun. injection Hrun as <-.
  destruct (regions_fields _ _ _ Hreg) as (_ & _ & _ & _ & Hflag & _ & Hsame).
  fold (didTokenizeCount s2) in Hsame. fold (didTokenizeCount s1) in Hsame.
  assert (Hcount2 : didTokenizeCount s2 = (if fullyTokenized s2 then 1 else 0)%nat).
  { rewrite Hsame, Hflag. done. }
  destruct (firstInvalidRow s2).
  - destruct (tokenizeInBackground_fields s2)
      as (_ & _ & _ & _ & _ & _ & Hf & _ & He & _).
    unfold didTokenizeCount in *. by rewrite He, Hf.
  - rewrite (markTokenizationComplete_count s2 Hcount2).
    by destruct (markTokenizationComplete_fields s2)
      as (_ & _ & _ & _ & _ & _ & -> & _).
Qed.

(** X19. A new instance with a grammar (not large-file mode, not the
    null grammar) on a live buffer has given no line to the grammar
    and queued nothing while it is not visible. Made visible, it
    queues one chunk; running the queued callbacks, each queueing the
    next, ends with nothing queued, the instance fully tokenized,
    [did-tokenize] emitted exactly once, and every row of the buffer
    holding the line of the one-pass tokenization, each row given to
    the grammar once, in order. The grammar is taken to give no
    [undefined] rule stack on the lines of the buffer, and
    [chunkSize] to be positive. *)
Theorem new_instance_is_tokenized_once_visible
    (b : TextBuffer.t) (t : Z) (g : Grammar) (c : Z) (n : nat) :
  TextBuffer.isAlive b = true →
  String.eqb (name g) "Null Grammar" = false →
  0 < c →
  stacksDefined (construct b t false g c) →
  (Z.to_nat (TextBuffer.getLineCount b + 1) < n)%nat →
  tokenizeCalls (construct b t false g c) = []
  ∧ deferred (construct b t false g c) = 0%nat
  ∧ deferred (setVisible true (construct b t false g c)) = 1%nat
  ∧ ∃ st', runDeferred n (setVisible true (construct b t false g c)) = Some st'
      ∧ deferred st' = 0%nat
      ∧ fullyTokenized st' = true
      ∧ invalidRows st' = []
      ∧ didTokenizeCount st' = 1%nat
      ∧ (∀ r, 0 <= r <= TextBuffer.getLastRow b →
           JsArray.get (tokenizedLines st') r
           = onePassLine (construct b t false g c) r)
      ∧ tokenizeCalls st' = seqZ 0 (TextBuffer.getLineCount b).
Proof.
  intros Hbuffer Hname Hsize Hstacks Hn.
  destruct (construct_with_grammar b t g c Hname)
    as (Hvisible & Hnone & Hcalls0 & Hb0 & Hg0).
  split; [done|]. split; [done|]. rewrite Hvisible. split; [done|].
  set (ref := construct b t false g c) in *.
  set (st := MkState _ _ _ _ _ _ _ _ _ _ _ _ _ _ _ _ _ _) in *.
  assert (Hcount : 0 <= TextBuffer.getLineCount b).
  { unfold TextBuffer.getLineCount. lia. }
  destruct (runDeferred_drains
              (λ s, firstPass ref s
                    ∧ didTokenizeCount s = (if fullyTokenized s then 1 else 0)%nat)
              n st)
    as (st' & Hrun & [Hpass Hdid] & Hd & _ & Hrows & Hflag); try done.
  - intros s s'. by apply deferredChunk_firstPass.
  - split; [|done]. exists 0.
    split; [unfold getLineCount; rewrite Hb0; lia|].
    split; [|split; [by left|]].
    + split; [done|]. split; [done|]. split; [intros; lia|done].
    + by rewrite Hcalls0.
  - unfold pending, st, getLastRow, rowWeight, TextBuffer.getLastRow. simpl. lia.
  - exists st'. split; [done|]. split; [done|]. split; [done|]. split; [done|].
    split; [by rewrite Hdid, Hflag|].
    destruct Hpass as (k & Hk & (_ & _ & Hdone & _) & Hleft & Hcalls).
    destruct Hleft as [Hleft | [_ ->]]; [congruence|].
    unfold getLineCount in *. rewrite Hb0 in *.
    split; [|by rewrite Hcalls, Hcalls0].
    intros r Hr. apply Hdone. unfold TextBuffer.getLastRow in Hr. lia.
Qed.

End Lifecycle.

Section Announced.
Context `{Platform}.

Lemma regions_announced rowsRemaining (st st' : State) :
  regions rowsRemaining st st' →
  ∃ events,
    emitted st' = emitted st ++ events
    ∧ tokenizeCalls st' = tokenizeCalls st ++ rowsAnnounced events
    ∧ Forall (announcesRows st) events.
Proof.
  induction 1 as [rr st _
                 |rr st startRow rest st' _ _ _ _ IH
                 |rr st startRow rest endRow filled rr' st2 st'
                    _ _ Hin Hrun Hrest IH].
  - exists []. by rewrite !app_nil_r.
  - apply IH.
  - destruct IH as (events & Hemitted & Hcalls & Hranges).
    destruct (tokenizeRows_facts _ _ _ _ _ _ _ _ Hin Hrun)
      as (Hend & _ & _ & _ & Hs & Hcalls2).
    fields_of Hs. simpl in *.
    exists (DidInvalidateRange startRow (endRow + 1) :: events).
    assert (Hfields :
      emitted (if negb filled
               then invalidateRow (endRow + 1) (validateRow endRow st2)
               else validateRow endRow st2) = emitted st
      ∧ tokenizeCalls (if negb filled
               then invalidateRow (endRow + 1) (validateRow endRow st2)
               else validateRow endRow st2) = tokenizeCalls st2
      ∧ buffer (if negb filled
               then invalidateRow (endRow + 1) (validateRow endRow st2)
               else validateRow endRow st2) = buffer st).
    { destruct filled; cbn [negb]; [simpl; by repeat split|].
      destruct (invalidateRow_fields (endRow + 1) (validateRow endRow st2))
        as (-> & _ & _ & _ & _ & _ & _ & -> & ->).
      simpl. by repeat split. }
    destruct Hfields as (He & Hc & Hb).
    rewrite He in Hemitted. rewrite Hc, Hcalls2 in Hcalls.
    split; [by rewrite Hemitted, <- app_assoc|].
    split.
    + rewrite Hcalls, <- app_assoc. unfold rowsAnnounced. simpl.
      do 3 f_equal. lia.
    + constructor.
      * simpl. unfold getLineCount, getLastRow, TextBuffer.getLastRow in *. lia.
      * eapply Forall_impl; [exact Hranges|].
        intros [| |s e]; cbn [announcesRows]; try done.
        unfold getLineCount, emit. cbn [buffer with_emitted]. by rewrite Hb.
Qed.

(** X20. The rows that a chunk gives to the grammar are the rows
    that it announces. Every run of [tokenizeNextChunk] returns; what
    it emits is [did-invalidate-range] events, each for a range of
    rows of the buffer that is not empty, and at most one
    [did-tokenize]; the rows of the ranges, in the order emitted, are
    the rows given to the grammar, in the order given. *)
Theorem tokenizeNextChunk_announces_its_rows (st : State) :
  ∃ st' events,
    tokenizeNextChunk st = Some st'
    ∧ emitted st' = emitted st ++ events
    ∧ tokenizeCalls st' = tokenizeCalls st ++ rowsAnnounced events
    ∧ Forall (announcesRows st) events
    ∧ (count_occ Event_eq_dec events DidTokenize ≤ 1)%nat.
Proof.
  destruct (tokenizeNextChunk_total st) as (st1 & Hreg & Heq).
  destruct (regions_announced _ _ _ Hreg) as (events & Hemitted & Hcalls & Hranges).
  destruct (regions_fields _ _ _ Hreg) as (_ & _ & _ & _ & _ & _ & Hcount).
  rewrite Hemitted, count_occ_app in Hcount.
  assert (Hnone : count_occ Event_eq_dec events DidTokenize = 0%nat) by lia.
  rewrite Heq. destruct (firstInvalidRow st1).
  - exists (tokenizeInBackground st1), events. split; [done|].
    destruct (tokenizeInBackground_fields st1)
      as (_ & _ & _ & _ & _ & _ & _ & _ & -> & ->).
    repeat split; try done. lia.
  - unfold markTokenizationComplete.
    destruct (fullyTokenized st1); cbn [negb].
    + exists (with_fullyTokenized true st1), events. simpl.
      repeat split; try done. lia.
    + exists (with_fullyTokenized true (emit DidTokenize st1)),
        (events ++ [DidTokenize]). simpl.
      split; [done|]. split; [by rewrite Hemitted, app_assoc|].
      split.
      { rewrite Hcalls. unfold rowsAnnounced.
        rewrite bind_app. simpl. by rewrite app_nil_r. }
      split; [apply Forall_app; split; [done|by repeat constructor]|].
      rewrite count_occ_app, Hnone. simpl. lia.
Qed.

End Announced.

Section LargeFileMode.
Context `{LineMethods}.

(** In large-file mode with no invalid row, a chunk tokenizes
    nothing. *)
Lemma tokenizeNextChunk_of_no_rows (st : State) :
  invalidRows st = [] →
  tokenizeNextChunk st = Some (markTokenizationComplete st).
Proof.
  intros Hnone.
  destruct (tokenizeNextChunk_total st) as (st1 & Hreg & ->).
  apply regions_of_no_rows in Hreg as ->; [|done].
  unfold firstInvalidRow. by rewrite Hnone.
Qed.

Lemma perform_large (c : Call) (st st' : State) :
  invalidatesDirectly c = false →
  perform c st = Some st' →
  largeFileMode st = true → invalidRows st = [] →
  largeFileMode st' = true ∧ invalidRows st' = []
  ∧ tokenizeCalls st' = tokenizeCalls st.
Proof.
  intros Hcall Hrun Hlarge Hnone.
  assert (Hmark : ∀ s : State,
    largeFileMode s = true → invalidRows s = [] →
    largeFileMode (markTokenizationComplete s) = true
    ∧ invalidRows (markTokenizationComplete s) = []
    ∧ tokenizeCalls (markTokenizationComplete s) = tokenizeCalls s).
  { intros s Hl Hn.
    destruct (markTokenizationComplete_fields s)
      as (_ & _ & _ & -> & -> & _ & _ & -> & _). done. }
  assert (Hback : ∀ s : State,
    largeFileMode s = true → invalidRows s = [] →
    largeFileMode (tokenizeInBackground s) = true
    ∧ invalidRows (tokenizeInBackground s) = []
    ∧ tokenizeCalls (tokenizeInBackground s) = tokenizeCalls s).
  { intros s Hl Hn.
    destruct (tokenizeInBackground_fields s)
      as (_ & _ & _ & -> & -> & _ & _ & _ & _ & ->). done. }
  assert (Hreset : ∀ s : State,
    largeFileMode s = true →
    largeFileMode (retokenizeLines s) = true
    ∧ (invalidRows s = [] → invalidRows (retokenizeLines s) = [])
    ∧ tokenizeCalls (retokenizeLines s) = tokenizeCalls s).
  { intros s Hl. unfold retokenizeLines.
    destruct (negb (alive s)); [done|]. cbv zeta.
    match goal with
    | |- context [if ?c then _ else _] =>
        assert (c = true) as -> by (simpl; by rewrite Hl)
    end.
    match goal with
    | |- context [markTokenizationComplete ?x] =>
        destruct (Hmark x) as (-> & -> & ->); done
    end. }
  destruct c as [g| |v| | | |e|bufferRow| |[row|row|start end' delta|]];
    simpl in Hrun, Hcall; try (injection Hrun as <-); try done.
  - unfold setGrammar.
    destruct (Hreset (with_grammar g st) Hlarge) as (Hl & Hn & Hc).
    simpl. split; [done|]. split; [by apply Hn|done].
  - destruct (Hreset st Hlarge) as (Hl & Hn & Hc). auto.
  - unfold setVisible.
    destruct (_ && _ && _); [|done].
    by destruct (Hback (with_visible v st)) as (? & ? & ?).
  - by apply Hback.
  - unfold deferredChunk in Hrun.
    destruct (_ && _); [|by injection Hrun as <-].
    rewrite tokenizeNextChunk_of_no_rows in Hrun by done.
    injection Hrun as <-.
    by destruct (Hmark (with_deferred (Init.Nat.pred (deferred st))
                          (with_pendingChunk false st))) as (? & ? & ?).
  - by apply Hmark.
  - unfold bufferDidChange. cbv zeta.
    set (st0 := with_changeCount _ st).
    set (st1 := updateInvalidRows _ _ _ st0).
    assert (largeFileMode st1 || isNullGrammar st1 = true) as ->
      by (simpl; by rewrite Hlarge).
    simpl. by rewrite Hnone.
  - unfold tokenizedLineForRow.
    destruct (_ && _); [|done].
    destruct (JsArray.get _ _); [done|].
    by destruct (TextBuffer.lineForRow _ _).
  - unfold destroy. by destruct (negb _).
  - unfold validateRow. simpl. by rewrite Hnone.
  - unfold updateInvalidRows. simpl. by rewrite Hnone.
  - rewrite tokenizeNextChunk_of_no_rows in Hrun by done.
    injection Hrun as <-. by apply Hmark.
Qed.

(** X21. In large-file mode the grammar is never asked to tokenize
    a line. On an instance in large-file mode with no invalid row,
    whatever operations of the class are called, in whatever order
    (a direct call of [invalidateRow] apart, which the class makes from
    its own methods only), all return, no line is given to the
    grammar and no row becomes invalid. *)
Theorem large_file_mode_never_tokenizes (cs : list Call) (st : State) :
  largeFileMode st = true → invalidRows st = [] →
  Forall (λ c, invalidatesDirectly c = false) cs →
  ∃ st', performAll cs st = Some st'
    ∧ tokenizeCalls st' = tokenizeCalls st
    ∧ invalidRows st' = []
    ∧ largeFileMode st' = true.
Proof.
  revert st. induction cs as [|c cs IH]; intros st Hlarge Hnone Hcalls.
  - by exists st.
  - apply Forall_cons in Hcalls as [Hcall Hcalls].
    destruct (perform_returns c st) as [st1 Hrun].
    simpl. rewrite Hrun. simpl.
    destruct (perform_large c st st1 Hcall Hrun Hlarge Hnone)
      as (Hlarge1 & Hnone1 & <-).
    by apply IH.
Qed.

End LargeFileMode.

Section Destroyed.
Context `{Platform}.

Lemma runDeferred_dead n : ∀ (st : State),
  alive st = false →
  ∃ st', runDeferred n st = Some st'
    ∧ alive st' = false
    ∧ tokenizedLines st' = tokenizedLines st
    ∧ invalidRows st' = invalidRows st
    ∧ fullyTokenized st' = fullyTokenized st
    ∧ emitted st' = emitted st
    ∧ tokenizeCalls st' = tokenizeCalls st
    ∧ (deferred st' ≤ deferred st)%nat.
Proof.
  induction n as [|n IH]; intros st Hdead; [by exists st|].
  cbn [runDeferred]. destruct (deferred st) as [|queued] eqn:Hqueued.
  { exists st. rewrite Hqueued. by repeat split. }
  unfold deferredChunk. rewrite Hqueued. simpl. rewrite Hdead. simpl.
  destruct (IH (with_deferred queued (with_pendingChunk false st)))
    as (st' & -> & ? & ? & ? & ? & ? & ? & Hless); [done|].
  exists st'. simpl in *. repeat split; try done. lia.
Qed.

(** X22. A chunk queued before [destroy] tokenizes nothing. After
    [destroy] of a live instance the cache has length 0 and no line at
    any row; the callbacks that were queued return without giving a
    line to the grammar, emitting an event or changing the invalid
    rows, and queue nothing; [retokenizeLines] and
    [tokenizeInBackground] do nothing, and a second [destroy] does
    nothing. *)
Theorem destroyed_instance_runs_no_chunk (st : State) (n : nat) :
  alive st = true →
  ∃ st', runDeferred n (destroy st) = Some st'
    ∧ JsArray.len (tokenizedLines st') = 0
    ∧ (∀ r, 0 <= r → JsArray.get (tokenizedLines st') r = None)
    ∧ tokenizeCalls st' = tokenizeCalls st
    ∧ emitted st' = emitted st
    ∧ invalidRows st' = invalidRows st
    ∧ (deferred st' ≤ deferred st)%nat
    ∧ retokenizeLines st' = st'
    ∧ tokenizeInBackground st' = st'
    ∧ destroy st' = st'.
Proof.
  intros Halive.
  destruct (runDeferred_dead n (destroy st))
    as (st' & Hrun & Hdead & Hcache & Hrows & _ & Hemitted & Hcalls & Hless).
  { unfold destroy. by rewrite Halive. }
  exists st'. split; [done|].
  unfold destroy in Hcache, Hrows, Hemitted, Hcalls, Hless.
  rewrite Halive in Hcache, Hrows, Hemitted, Hcalls, Hless. simpl in *.
  rewrite Hcache. split; [done|]. split.
  { intros r Hr. unfold JsArray.get, JsArray.clear, JsArray.named. simpl.
    rewrite map_lookup_filter.
    destruct (JsArray.props (tokenizedLines st) !! r); simpl; [|done].
    rewrite option_guard_False; [done|simpl; lia]. }
  repeat split; try done.
  - unfold retokenizeLines. by rewrite Hdead.
  - unfold tokenizeInBackground. rewrite Hdead. simpl.
    by rewrite !orb_true_r.
  - unfold destroy. by rewrite Hdead.
Qed.

End Destroyed.

Section ClassNameCache.
Context `{Platform}.
Variable toFirstMateScopeId : Z → Z.

Lemma nonEmpty_prefixed scope : nonEmpty (prefixed scope) = true.
Proof. done. Qed.

(** X23. The map of class names does not change what
    [classNameForScopeId] returns. When every entry of the map is the
    class name of its scope, the call returns what it returns with an
    empty map: nothing for an id with no scope or an empty one, the
    class name of the scope otherwise. The map it leaves has the
    entries it had, the entry of the scope when there is one, and
    again every entry is the class name of its scope. *)
Theorem classNameForScopeId_cache_is_transparent
    (id : Z) (st : State) (prefixedScopes : gmap string string) :
  prefixesCached prefixedScopes →
  let result := classNameForScopeId toFirstMateScopeId id st prefixedScopes in
  result.1 = (classNameForScopeId toFirstMateScopeId id st ∅).1
  ∧ prefixesCached result.2
  ∧ prefixedScopes ⊆ result.2
  ∧ (∀ scope, result.1 = Some scope →
       ∃ name, scopeForId (grammar st) (toFirstMateScopeId id) = Some name
               ∧ scope = prefixed name
               ∧ result.2 !! name = Some scope).
Proof.
  intros Hcached. cbv zeta. unfold classNameForScopeId.
  destruct (scopeForId (grammar st) (toFirstMateScopeId id)) as [name|];
    [|by repeat split].
  destruct (nonEmpty name); [|by repeat split].
  rewrite lookup_empty.
  assert (Hadds : prefixesCached (<[name := prefixed name]> prefixedScopes)).
  { intros scope p. destruct (decide (name = scope)) as [<-|Hother].
    - rewrite lookup_insert_eq. by intros [= <-].
    - rewrite lookup_insert_ne by done. apply Hcached. }
  destruct (prefixedScopes !! name) as [p|] eqn:Hlookup.
  - pose proof (Hcached name p Hlookup) as ->.
    rewrite nonEmpty_prefixed. simpl.
    split; [done|]. split; [done|]. split; [done|].
    intros scope [= <-]. by exists name.
  - simpl. split; [done|]. split; [done|].
    split; [by apply insert_subseteq|].
    intros scope [= <-]. exists name. by rewrite lookup_insert_eq.
Qed.

End ClassNameCache.

Section ClassNameSegments.

Lemma string_app_assoc (a b c : string) : (a +:+ b) +:+ c = a +:+ (b +:+ c).
Proof.
  induction a as [|x a IH]; [done|].
  change (String x ((a +:+ b) +:+ c) = String x (a +:+ (b +:+ c))).
  by rewrite IH.
Qed.

Lemma string_app_nil_r (a : string) : a +:+ EmptyString = a.
Proof.
  induction a as [|x a IH]; [done|].
  change (String x (a +:+ EmptyString) = String x a). by rewrite IH.
Qed.

Lemma concat_cons_cons (sep x y : string) (l : list string) :
  String.concat sep (x :: y :: l) = x +:+ sep +:+ String.concat sep (y :: l).
Proof. done. Qed.

Lemma split_replaceDots (scope : string) : ∀ before : string,
  ∃ piece pieces,
    split "."%char scope = piece :: pieces
    ∧ before +:+ replaceDots scope
      = String.concat " "
          ((before +:+ piece) :: (String.append "syntax--" <$> pieces)).
Proof.
  induction scope as [|c scope IH]; intros before.
  - exists EmptyString, []. done.
  - cbn [split replaceDots]. destruct (Ascii.eqb c ".").
    + destruct (IH "syntax--"%string) as (piece & pieces & -> & Hrest).
      exists EmptyString, (piece :: pieces). split; [done|].
      cbn [fmap list_fmap] in Hrest |- *.
      rewrite concat_cons_cons, <- Hrest.
      by rewrite string_app_nil_r.
    + destruct (IH (before +:+ String c EmptyString)) as (piece & pieces & -> & Hrest).
      exists (String c piece), pieces. split; [done|].
      rewrite !string_app_assoc in Hrest. exact Hrest.
Qed.

(** X24. The class name of a scope is the list of its segments
    (the parts between dots), each with the prefix [syntax--], joined
    by spaces: it has one class for every segment of the scope. *)
Theorem prefixed_is_one_class_per_segment (scope : string) :
  prefixed scope
  = String.concat " " (String.append "syntax--" <$> split "."%char scope).
Proof.
  unfold prefixed.
  destruct (split_replaceDots scope "syntax--") as (piece & pieces & -> & ->).
  done.
Qed.

End ClassNameSegments.

Section UpToDate.
Context `{Platform}.

Lemma sameLines_refl (st : State) : sameLines st st.
Proof. done. Qed.

Lemma sameLines_trans (st1 st2 st3 : State) :
  sameLines st1 st2 → sameLines st2 st3 → sameLines st1 st3.
Proof. intros H12 H23 r. by rewrite H23, H12. Qed.

Lemma sameLines_cache (st st' : State) :
  tokenizedLines st' = tokenizedLines st → sameLines st st'.
Proof. intros Hsame r. by rewrite Hsame. Qed.

Lemma upToDate_sameLines (ref st st' : State) :
  buffer st' = buffer st → grammar st' = grammar st →
  sameLines st st' → upToDate ref st → upToDate ref st'.
Proof.
  intros Hb Hg Hsame (Hbuffer & Hgrammar & Hfirst & Hrows).
  split; [congruence|]. split; [congruence|].
  split; [by rewrite Hsame|]. intros r Hr. rewrite Hsame. by apply Hrows.
Qed.

(** One turn of the inner loop of [tokenizeNextChunk] on a cache
    that is up to date builds the line that the row has. *)
Lemma tokenizeRows_turn (ref st : State) row :
  0 <= row <= getLastRow ref → upToDate ref st →
  JsArray.get (tokenizedLines st) row =
  Some (buildTokenizedLineForRow row (stackForRow st (row - 1))
          (openScopesForRow row st).1 (openScopesForRow row st).2).1.
Proof.
  intros Hrow (Hbuffer & Hgrammar & Hfirst & Hrows).
  rewrite Hrows by done.
  apply buildTokenizedLineForRow_next; try done; [lia|].
  intros Hpositive. apply Hrows. lia.
Qed.

(** On a cache that is up to date the inner loop leaves after one
    row: the line it builds is the line that the row had, so the rule
    stack of the row is the one before. *)
Lemma tokenizeRows_upToDate (ref : State) fuel lastRow row rowsRemaining
    (st : State) endRow filledRegion rowsRemaining' st2 :
  0 <= row <= getLastRow ref →
  upToDate ref st →
  tokenizeRows fuel lastRow row rowsRemaining st
  = Some (endRow, filledRegion, rowsRemaining', st2) →
  sameLines st st2 ∧ upToDate ref st2 ∧ endRow = row
  ∧ (rowsRemaining ≠ 1 → filledRegion = true).
Proof.
  intros Hrow Hdate Hrun. destruct fuel as [|fuel]; [done|].
  cbn [tokenizeRows] in Hrun.
  pose proof (tokenizeRows_turn ref st row Hrow Hdate) as Hline.
  destruct (openScopesForRow_schedule row st) as (Hs1 & Hl1 & _).
  destruct (openScopesForRow row st) as [scopes st1] eqn:Hopen.
  cbn [fst snd] in Hline, Hs1, Hl1.
  pose proof (buildTokenizedLineForRow_state row (stackForRow st (row - 1))
                scopes st1) as Hst2.
  destruct (buildTokenizedLineForRow row (stackForRow st (row - 1)) scopes st1)
    as [line st2'] eqn:Hbuild.
  cbn [fst snd] in Hline, Hst2. subst st2'.
  set (st3 := with_tokenizedLines _ _) in Hrun.
  fields_of Hs1.
  assert (Hsame3 : sameLines st st3).
  { intros r. unfold st3. simpl. rewrite JsArray_get_set, Hl1.
    by destruct (decide (row = r)) as [<-|?]. }
  assert (Hdate3 : upToDate ref st3).
  { eapply upToDate_sameLines; [| |exact Hsame3|exact Hdate]; simpl; congruence. }
  destruct (Z.eqb_spec (rowsRemaining - 1) 0) as [Hlast1|Hmore].
  { injection Hrun as <- <- <- <-.
    split; [done|]. split; [done|]. split; [done|]. intros ?. lia. }
  assert (Hequal : isEqual (stackForRow st3 row) (stackForRow st row) = true).
  { apply isEqual_eq. unfold stackForRow. by rewrite Hsame3. }
  rewrite Hequal, orb_true_r in Hrun.
  injection Hrun as <- <- <- <-. done.
Qed.

Lemma regions_upToDate (ref : State) rowsRemaining (st st' : State) :
  regions rowsRemaining st st' →
  Forall (λ r, 0 <= r) (invalidRows st) → upToDate ref st →
  sameLines st st' ∧ upToDate ref st'
  ∧ Forall (λ r, 0 <= r) (invalidRows st').
Proof.
  induction 1 as [rr st _
                 |rr st startRow rest st' Hrows Hrr Hskip _ IH
                 |rr st startRow rest endRow filled rr' st2 st'
                    Hrows Hrr Hin Hrun _ IH]; intros Hnonneg Hdate; [done| |].
  - rewrite Hrows in Hnonneg. apply Forall_cons in Hnonneg as [_ Hrest].
    destruct IH as (Hsame & Hdate' & Hnonneg'); [done|done|].
    done.
  - rewrite Hrows in Hnonneg. apply Forall_cons in Hnonneg as [Hstart Hrest].
    assert (Hlast : getLastRow st = getLastRow ref).
    { unfold getLastRow. by destruct Hdate as (-> & _). }
    destruct (tokenizeRows_facts _ _ _ _ _ _ _ _ Hin Hrun)
      as (Hend & _ & _ & _ & Hs & _).
    destruct (tokenizeRows_upToDate ref (S (Z.to_nat (getLastRow st - startRow)))
                (getLastRow st) startRow rr (with_invalidRows rest st)
                endRow filled rr' st2)
      as (Hsame2 & Hdate2 & _ & _); [lia|exact Hdate|exact Hrun|].
    fields_of Hs. simpl in *.
    assert (Hshift : Forall (λ r, 0 <= r) (shiftUpTo endRow (invalidRows st2))).
    { replace (invalidRows st2) with rest by done.
      destruct (shiftUpTo_suffix endRow rest) as [dropped Hsuffix].
      rewrite Hsuffix in Hrest.
      by apply Forall_app in Hrest as [_ ?]. }
    destruct IH as (Hsame & Hdate' & Hnonneg').
    + destruct filled; cbn [negb]; [done|].
      simpl. rewrite invalidateRow_invalidRows.
      rewrite merge_sort_Permutation. apply Forall_app. split; [done|].
      repeat constructor. lia.
    + apply (upToDate_sameLines ref st2); [| | |done].
      * destruct filled; cbn [negb]; [done|].
        simpl. by destruct (invalidateRow_fields (endRow + 1) (validateRow endRow st2))
          as (-> & _).
      * destruct filled; cbn [negb]; [done|].
        simpl. by destruct (invalidateRow_fields (endRow + 1) (validateRow endRow st2))
          as (_ & _ & -> & _).
      * apply sameLines_cache.
        destruct filled; cbn [negb]; [done|].
        simpl. by destruct (invalidateRow_fields (endRow + 1) (validateRow endRow st2))
          as (_ & _ & _ & _ & -> & _).
    + split; [|done]. eapply sameLines_trans; [exact Hsame2|].
      eapply sameLines_trans; [|exact Hsame].
      apply sameLines_cache.
      destruct filled; cbn [negb]; [done|].
      simpl. by destruct (invalidateRow_fields (endRow + 1) (validateRow endRow st2))
        as (_ & _ & _ & _ & -> & _).
Qed.

Lemma tokenizeNextChunk_upToDate (ref st st' : State) :
  tokenizeNextChunk st = Some st' →
  Forall (λ r, 0 <= r) (invalidRows st) → upToDate ref st →
  sameLines st st' ∧ upToDate ref st'
  ∧ Forall (λ r, 0 <= r) (invalidRows st').
Proof.
  intros Hrun Hnonneg Hdate.
  destruct (tokenizeNextChunk_total st) as (st1 & Hreg & Heq).
  rewrite Heq in Hrun. injection Hrun as <-.
  destruct (regions_upToDate ref _ _ _ Hreg Hnonneg Hdate)
    as (Hsame & Hdate1 & Hnonneg1).
  destruct (firstInvalidRow st1).
  - destruct (tokenizeInBackground_fields st1)
      as (Hb & _ & Hg & _ & Hr & Hl & _).
    split; [|split; [|by rewrite Hr]].
    + intros r. rewrite Hl. apply Hsame.
    + eapply upToDate_sameLines; [exact Hb|exact Hg| |exact Hdate1].
      by apply sameLines_cache.
  - destruct (markTokenizationComplete_fields st1)
      as (Hb & _ & Hg & _ & Hr & Hl & _).
    split; [|split; [|by rewrite Hr]].
    + intros r. rewrite Hl. apply Hsame.
    + eapply upToDate_sameLines; [exact Hb|exact Hg| |exact Hdate1].
      by apply sameLines_cache.
Qed.

(** X25. Tokenizing again a buffer that is tokenized changes no
    line. When every row of the buffer holds its line of the one-pass
    tokenization, runs of [tokenizeNextChunk] return and leave every
    line of the cache as it was, whatever rows (none negative) are
    invalid. *)
Theorem retokenizing_changes_no_line (ref st : State) (n : nat) :
  upToDate ref st →
  Forall (λ r, 0 <= r) (invalidRows st) →
  ∃ st', tokenizeChunks n st = Some st'
    ∧ sameLines st st' ∧ upToDate ref st'.
Proof.
  revert st. induction n as [|n IH]; intros st Hdate Hnonneg.
  - by exists st.
  - simpl.
    destruct (tokenizeNextChunk_total st) as (st1 & _ & Heq).
    destruct (tokenizeNextChunk_upToDate ref st _ Heq Hnonneg Hdate)
      as (Hsame & Hdate1 & Hnonneg1).
    rewrite Heq. simpl.
    destruct (IH _ Hdate1 Hnonneg1) as (st' & Hrun & Hsame' & Hdate').
    exists st'. split; [done|]. split; [|done].
    by eapply sameLines_trans.
Qed.

(** X26. Tokenizing a row whose line is up to date stops at that
    row. When every row of the buffer holds its line of the one-pass
    tokenization, a row [k] of the buffer is the one invalid row, and
    [chunkSize] is more than 1, [tokenizeNextChunk] gives row [k]
    alone to the grammar, finds the rule stack of the row unchanged,
    announces the range from [k] to [k + 1], and leaves no invalid
    row, [fullyTokenized] true and every line as it was. *)
Theorem tokenizeNextChunk_stops_at_unchanged_row (ref st : State) (k : Z) :
  upToDate ref st →
  invalidRows st = [k] → 0 <= k <= getLastRow st → 1 < chunkSize st →
  ∃ st', tokenizeNextChunk st = Some st'
    ∧ tokenizeCalls st' = tokenizeCalls st ++ [k]
    ∧ invalidRows st' = []
    ∧ fullyTokenized st' = true
    ∧ sameLines st st'
    ∧ DidInvalidateRange k (k + 1) ∈ emitted st'.
Proof.
  intros Hdate Hrows Hk Hsize.
  assert (Hlast : getLastRow st = getLastRow ref).
  { unfold getLastRow. by destruct Hdate as (-> & _). }
  destruct (tokenizeNextChunk_total st) as (st1 & Hreg & Heq).
  rewrite Heq. eexists. split; [done|].
  inversion Hreg as [rr s Hexit
                    |rr s startRow rest s' Hrows' Hrr Hskip Hrest
                    |rr s startRow rest endRow filled rr' st2 s'
                       Hrows' Hrr Hin Hrun Hrest]; subst.
  - destruct Hexit; [congruence|lia].
  - rewrite Hrows in Hrows'. injection Hrows' as <- <-. lia.
  - rewrite Hrows in Hrows'. injection Hrows' as <- <-.
    destruct (tokenizeRows_facts _ _ _ _ _ _ _ _ Hin Hrun)
      as (_ & _ & _ & _ & Hs & Hcalls).
    destruct (tokenizeRows_upToDate ref (S (Z.to_nat (getLastRow st - k)))
                (getLastRow st) k (chunkSize st) (with_invalidRows [] st)
                endRow filled rr' st2)
      as (Hsame2 & _ & -> & Hfilled); [lia|exact Hdate|exact Hrun|].
    rewrite Hfilled in Hrest by lia. cbn [negb] in Hrest.
    fields_of Hs. simpl in *.
    assert (Hnone : invalidRows (emit (DidInvalidateRange k (k + 1))
                                   (validateRow k st2)) = []).
    { simpl. by replace (invalidRows st2) with (@nil Z). }
    apply regions_of_no_rows in Hrest as ->; [|done].
    set (s5 := emit (DidInvalidateRange k (k + 1)) (validateRow k st2)) in *.
    unfold firstInvalidRow. rewrite Hnone. cbn [head].
    destruct (markTokenizationComplete_fields s5)
      as (_ & _ & _ & _ & Hr & Hl & Hf & Hc & _).
    split.
    { rewrite Hc. simpl. rewrite Hcalls. simpl. do 2 f_equal.
      replace (k - k + 1) with 1 by lia. done. }
    split; [by rewrite Hr|]. split; [done|]. split.
    { intros r. rewrite Hl. simpl. apply Hsame2. }
    unfold markTokenizationComplete.
    destruct (negb (fullyTokenized s5)); simpl;
      rewrite !elem_of_app, !list_elem_of_singleton; auto.
Qed.

End UpToDate.

(** * The properties on the concrete instance *)

#[local] Existing Instance Examples.platform.
#[local] Existing Instance Examples.lineMethods.

(** The first tag opens no scope that is on the stack; the tag after it
    is pushed all the same. *)
Lemma scopesFromTags_goes_on_after_unmatched_close :
  ¬ stopsAtUnmatchedClose.
Proof.
  intros Hstops.
  specialize (Hstops
    (Examples.stateOf Examples.exampleGrammar Examples.commentBuffer 2 [0])
    [] [] [-1] (-2)).
  assert (Hresult :
    (scopesFromTags [] ([] ++ -2 :: [-1])
       (Examples.stateOf Examples.exampleGrammar Examples.commentBuffer 2 [0])).1
    = [-1]) by (vm_compute; reflexivity).
  rewrite Hstops in Hresult.
  - discriminate.
  - lia.
  - vm_compute. discriminate.
  - vm_compute. apply not_elem_of_nil.
Qed.

Lemma scopesFromTags_unmatched_close_witness :
  let st := Examples.stateOf Examples.exampleGrammar Examples.commentBuffer 2 [0] in
  -2 < 0 ∧ Z.rem (-2) 2 ≠ -1
  ∧ ((-2 + 1) ∉ (scopesFromTags [-3] [-5] st).1)
  ∧ (scopesFromTags [-3] ([-5] ++ -2 :: [-1; 4]) st).1 = [-1]
  ∧ assertions (scopesFromTags [-3] ([-5] ++ -2 :: [-1; 4]) st).2
    = [unmatchedFailure st (-2)].
Proof.
  intros st.
  assert (H1 : -2 < 0) by reflexivity.
  assert (H2 : Z.rem (-2) 2 ≠ -1) by (vm_compute; discriminate).
  assert (H3 : (-2 + 1) ∉ (scopesFromTags [-3] [-5] st).1).
  { vm_compute. intros Hin. apply list_elem_of_In in Hin. simpl in Hin.
    destruct Hin as [|[|[]]]; discriminate. }
  split; [exact H1|]. split; [exact H2|]. split; [exact H3|].
  destruct (scopesFromTags_unmatched_close st [-3] [-5] [-1; 4] (-2) H1 H2 H3)
    as [_ Hrest].
  rewrite Hrest. split; vm_compute; reflexivity.
Defined.

Lemma updateInvalidRows_rebases_witness :
  let st := Examples.stateOf Examples.exampleGrammar Examples.commentBuffer 2 [0; 2; 5] in
  1 <= 2 ∧ invalidRows st !! 1%nat = Some 2
  ∧ ∃ r', invalidRows (updateInvalidRows 1 2 1 st) !! 1%nat = Some r'
          ∧ (2 < 1 → r' = 2)
          ∧ (1 <= 2 <= 2 → r' = 2 + 1 + 1)
          ∧ (2 > 2 → r' = 2 + 1).
Proof.
  intros st.
  assert (H1 : 1 <= 2) by discriminate.
  assert (H2 : invalidRows st !! 1%nat = Some 2) by reflexivity.
  split; [exact H1|]. split; [exact H2|].
  exact (updateInvalidRows_rebases 1 2 1 st 1 2 H1 H2).
Defined.

Lemma scopesFromTags_keeps_startingScopes_witness :
  let st := Examples.stateOf Examples.exampleGrammar Examples.commentBuffer 2 [0] in
  let σ : gmap Heap.loc (list Z) := {[1%positive := [-1; -3]]} in
  σ !! 1%positive = Some [-1; -3]
  ∧ ∃ scopes σ' st',
      Heap.scopesFromTags 1%positive [-4; -5; 7] σ st = Some (scopes, σ', st')
      ∧ σ' !! 1%positive = Some [-1; -3]
      ∧ σ !! scopes = None
      ∧ (∀ a, a ≠ scopes → σ' !! a = σ !! a)
      ∧ σ' !! scopes = Some (scopesFromTags [-1; -3] [-4; -5; 7] st).1
      ∧ st' = (scopesFromTags [-1; -3] [-4; -5; 7] st).2.
Proof.
  intros st σ.
  assert (H1 : σ !! 1%positive = Some [-1; -3]) by reflexivity.
  split; [exact H1|].
  exact (scopesFromTags_keeps_startingScopes σ 1%positive [-1; -3] [-4; -5; 7] st H1).
Defined.

(** An empty line is a row of the buffer; its placeholder has the span 0. *)
Lemma placeholder_of_empty_line_has_span_0 :
  ¬ placeholderSpanIsPositive.
Proof.
  intros Hpositive.
  destruct (Hpositive (Examples.stateOf Examples.exampleGrammar [EmptyString] 20 [0]) 0)
    as (line & st' & span & Hrun & Htags & Hspan).
  - vm_compute. split; discriminate.
  - reflexivity.
  - assert (Hline :
      (tokenizedLineForRow 0
         (Examples.stateOf Examples.exampleGrammar [EmptyString] 20 [0])).1
      = Normal (Some (placeholderLine
          (Examples.stateOf Examples.exampleGrammar [EmptyString] 20 [0])
          0 EmptyString))) by reflexivity.
    rewrite Hrun in Hline. simpl in Hline. injection Hline as ->.
    vm_compute in Htags. injection Htags as <-. lia.
Qed.

Lemma tokenizedLineForRow_placeholder_witness :
  let st := Examples.stateOf Examples.exampleGrammar Examples.commentBuffer 2 [0] in
  0 <= 3 <= getLastRow st
  ∧ ∃ line,
      (tokenizedLineForRow 3 st).1 = Normal (Some line)
      ∧ JsArray.get (tokenizedLines (tokenizedLineForRow 3 st).2) 3 = Some line
      ∧ openScopes line = [] ∧ tags line = [-1; 3; -2].
Proof.
  intros st.
  assert (H1 : 0 <= 3 <= getLastRow st) by (vm_compute; split; discriminate).
  split; [exact H1|].
  pose proof (tokenizedLineForRow_placeholder st 3 H1) as Hplaceholder.
  change (JsArray.get (tokenizedLines st) 3) with (@None TokenizedLine)
    in Hplaceholder.
  destruct Hplaceholder as (chars & Hchars & Hrun & Hstored & _ & Hopen & Htags & _).
  injection Hchars as <-.
  exists (placeholderLine st 3 "bar").
  rewrite Hrun. split; [reflexivity|]. split; [exact Hstored|].
  split; [exact Hopen|]. exact Htags.
Defined.

(** Row 7 is past the last row of the buffer; [tokenForPosition] raises. *)
Lemma tokenForPosition_raises_out_of_range :
  ¬ outOfRangeQueriesAreQuiet.
Proof.
  intros Hquiet.
  destruct (Hquiet
    (Examples.stateOf Examples.exampleGrammar Examples.commentBuffer 2 [0])
    ".source" {| row := 7; column := 0 |}) as (_ & Hquiet1 & _).
  - right. reflexivity.
  - apply Hquiet1. exists TypeError. reflexivity.
Qed.

Lemma queries_out_of_range_witness :
  let st := Examples.stateOf Examples.exampleGrammar Examples.commentBuffer 2 [0] in
  let position := {| row := 7; column := 0 |} in
  (row position < 0 ∨ getLastRow st < row position)
  ∧ tokenizedLineForRow (row position) st = (Normal None, st)
  ∧ isFoldableCodeAtRow (row position) st = Normal false
  ∧ tokenForPosition position st = (Throw TypeError, st)
  ∧ tokenStartPositionForPosition position st = (Throw TypeError, st)
  ∧ bufferRangeForScopeAtPosition ".source" position st = (Throw TypeError, st).
Proof.
  intros st position.
  assert (H1 : row position < 0 ∨ getLastRow st < row position)
    by (right; reflexivity).
  split; [exact H1|].
  exact (queries_out_of_range st ".source" position H1).
Defined.

(** A buffer of one line and chunks of one row. The first chunk
    tokenizes row 0 and leaves row 1 invalid; the second chunk finds an
    invalid row, drops it and tokenizes nothing. *)
Lemma chunk_of_rows_past_the_end_tokenizes_nothing :
  ¬ everyChunkTokenizesAnInvalidRow.
Proof.
  intros Hevery.
  pose (st := Examples.oneLineAfterFirstChunk).
  assert (Hrows : invalidRows st = [1]) by (vm_compute; reflexivity).
  destruct (tokenizeNextChunk st) as [st1|] eqn:Hrun.
  - destruct (Hevery st st1) as (r & rows & _ & Hcalls).
    + reflexivity.
    + rewrite Hrows. discriminate.
    + exact Hrun.
    + assert (Hnone : tokenizeCalls <$> tokenizeNextChunk st
                      = Some (tokenizeCalls st))
        by (vm_compute; reflexivity).
      rewrite Hrun in Hnone. injection Hnone as Hnone.
      unfold tokenizedBy in Hcalls. rewrite Hnone in Hcalls.
      apply (f_equal length) in Hcalls. rewrite length_app in Hcalls.
      simpl in Hcalls. lia.
  - assert (Hsome : is_Some (tokenizeNextChunk st))
      by (vm_compute; eexists; reflexivity).
    rewrite Hrun in Hsome. by destruct Hsome.
Qed.

Lemma tokenizeNextChunk_drains_witness :
  let st := Examples.stateOf Examples.exampleGrammar Examples.commentBuffer 2 [0] in
  0 < chunkSize st
  ∧ (∃ st', tokenizeChunks 6 st = Some st'
            ∧ invalidRows st' = [] ∧ fullyTokenized st' = true)
  ∧ (∃ st1 rows,
       tokenizeNextChunk st = Some st1
       ∧ tokenizedBy st st1 rows
       ∧ Z.of_nat (length rows) <= chunkSize st).
Proof.
  intros st.
  assert (H1 : 0 < chunkSize st) by reflexivity.
  split; [exact H1|].
  destruct (tokenizeNextChunk_drains st H1) as [Hdrain Heach].
  split.
  - apply (Hdrain 6%nat). vm_compute. lia.
  - destruct (Heach 0%nat st eq_refl) as (st1 & rows & Hrun & Hcalls & Hlen & _).
    exists st1, rows. split; [exact Hrun|]. split; [exact Hcalls|exact Hlen].
Defined.

(** A buffer of one row and chunks of one row: the chunk that tokenizes
    row 0 invalidates row 1, which is not a row of the buffer. *)
Lemma invalidRows_shape_is_not_kept :
  ¬ invalidRowsShapeIsKept.
Proof.
  intros Hkept.
  pose (st := Examples.stateOf Examples.exampleGrammar ["a"] 1 [0]).
  assert (Hshape : invalidRowsShape st).
  { split; [|split].
    - repeat constructor.
    - apply NoDup_singleton.
    - repeat constructor. }
  destruct (callsScheduler [CallTokenizeNextChunk] st) as [st'|] eqn:Hrun.
  - destruct (Hkept _ _ _ Hshape Hrun) as (_ & _ & Hbound).
    assert (Hrows : (λ st', (invalidRows st', getLineCount st')) <$>
                      callsScheduler [CallTokenizeNextChunk] st = Some ([1], 1))
      by (vm_compute; reflexivity).
    rewrite Hrun in Hrows. injection Hrows as Hrows Hcount.
    rewrite Hrows, Hcount in Hbound.
    apply Forall_cons in Hbound as [Hlt _]. lia.
  - assert (Hsome : is_Some (callsScheduler [CallTokenizeNextChunk] st))
      by (vm_compute; eexists; reflexivity).
    rewrite Hrun in Hsome. by destruct Hsome.
Qed.

(** A row invalidated twice is stored twice. *)
Example invalidateRow_stores_duplicates :
  invalidRows
    (invalidateRow 2
       (invalidateRow 2
          (Examples.stateOf Examples.exampleGrammar Examples.commentBuffer 2 [0])))
  = [0; 2; 2].
Proof. vm_compute. reflexivity. Qed.

Lemma invalidRows_stay_sorted_witness :
  let st := Examples.stateOf Examples.exampleGrammar Examples.commentBuffer 2 [0] in
  let cs := [CallInvalidateRow 3; CallUpdateInvalidRows 1 2 1;
             CallTokenizeNextChunk; CallValidateRow 0; CallInvalidateRow 3] in
  Sorted Z.le (invalidRows st)
  ∧ Forall rowsOfAnEdit cs
  ∧ ∃ st', callsScheduler cs st = Some st' ∧ Sorted Z.le (invalidRows st').
Proof.
  intros st cs.
  assert (H1 : Sorted Z.le (invalidRows st)) by repeat constructor.
  assert (H2 : Forall rowsOfAnEdit cs).
  { repeat constructor; simpl; discriminate. }
  split; [exact H1|]. split; [exact H2|].
  exact (invalidRows_stay_sorted cs st H1 H2).
Defined.

Lemma bufferDidChange_spill_witness :
  let st := Examples.firstLineReplaced in
  let e := Examples.editOfRow 0 in
  largeFileMode st = false
  ∧ isNullGrammar st = false
  ∧ stackForRow st 0 = StackOf 1%nat
  ∧ stackForRow (bufferDidChange e st) 0 = StackOf 0%nat
  ∧ invalidRows (bufferDidChange e st) = [1].
Proof.
  intros st e.
  assert (H1 : largeFileMode st = false) by reflexivity.
  assert (H2 : isNullGrammar st = false) by reflexivity.
  split; [exact H1|]. split; [exact H2|].
  split; [vm_compute; reflexivity|]. split; [vm_compute; reflexivity|].
  destruct (bufferDidChange_spill e st H1 H2) as [Hspill _].
  rewrite Hspill.
  - vm_compute. reflexivity.
  - repeat split; vm_compute; discriminate.
Defined.

(** An instance destroyed before it was tokenized, then given the null
    grammar: [retokenizeLines] returns at once. *)
Lemma retokenizeLines_of_destroyed_instance :
  ¬ retokenizeLinesCompletesAtOnce.
Proof.
  intros Hcompletes.
  destruct (Hcompletes
    (setGrammar Examples.nullGrammar
       (destroy (Examples.stateOf Examples.exampleGrammar
                   Examples.commentBuffer 2 [0])))) as [Hflag _].
  - right. reflexivity.
  - vm_compute in Hflag. discriminate.
Qed.

Lemma retokenizeLines_large_file_witness :
  let st := Examples.stateOf Examples.nullGrammar Examples.commentBuffer 2 [3] in
  let edits := [Examples.editOfRow 0; Examples.editOfRow 2] in
  (largeFileMode st = true ∨ isNullGrammar st = true)
  ∧ alive st = true
  ∧ fullyTokenized (retokenizeLines st) = true
  ∧ invalidRows (retokenizeLines st) = []
  ∧ invalidRows (bufferDidChanges edits (retokenizeLines st)) = []
  ∧ fullyTokenized (bufferDidChanges edits (retokenizeLines st)) = true.
Proof.
  intros st edits.
  assert (H1 : largeFileMode st = true ∨ isNullGrammar st = true)
    by (right; reflexivity).
  assert (H2 : alive st = true) by reflexivity.
  split; [exact H1|]. split; [exact H2|].
  destruct (retokenizeLines_large_file st edits H1) as [Halive _].
  destruct (Halive H2) as (Hflag & Hrows & _ & _ & Hrows' & Hflag' & _).
  split; [exact Hflag|]. split; [exact Hrows|].
  split; [exact Hrows'|exact Hflag'].
Defined.

Lemma did_tokenize_once_per_transition_witness :
  let st := Examples.newInstance in
  let cs := [CallSetGrammar Examples.exampleGrammar; CallSetVisible true;
             CallDeferredChunk; CallDeferredChunk; CallDeferredChunk;
             CallMarkTokenizationComplete;
             CallBufferDidChange (Examples.editOfRow 0);
             CallRetokenizeLines; CallDeferredChunk; CallDeferredChunk;
             CallDeferredChunk] in
  fullyTokenized st = false
  ∧ fullyTokenizedWrites st = []
  ∧ didTokenizeCount st = 0%nat
  ∧ ∃ st',
      performAll cs st = Some st'
      ∧ didTokenizeCount st' = risingEdges false (fullyTokenizedWrites st')
      ∧ (fullyTokenized st' = true →
         emitted (markTokenizationComplete st') = emitted st')
      ∧ (fullyTokenized st' = false →
         emitted (markTokenizationComplete st') = emitted st' ++ [DidTokenize]).
Proof.
  intros st cs.
  assert (H1 : fullyTokenized st = false) by reflexivity.
  assert (H2 : fullyTokenizedWrites st = []) by reflexivity.
  assert (H3 : didTokenizeCount st = 0%nat) by reflexivity.
  split; [exact H1|]. split; [exact H2|]. split; [exact H3|].
  exact (did_tokenize_once_per_transition cs st H1 H2 H3).
Defined.

(** ** The scenarios of the specification, by evaluation *)

(** Chunks of two rows over the comment buffer: the events, the calls of
    the grammar, and the scopes open at the start of each row. *)
Example chunks_over_the_comment_buffer :
  invalidRows Examples.tokenized = []
  ∧ fullyTokenized Examples.tokenized = true
  ∧ tokenizeCalls Examples.tokenized = [0; 1; 2; 3]
  ∧ emitted Examples.tokenized =
    [DidInvalidateRange 0 2; DidInvalidateRange 2 4; DidTokenize]
  ∧ (openScopes <$> JsArray.get (tokenizedLines Examples.tokenized) 1) = Some [-1; -3]
  ∧ (openScopes <$> JsArray.get (tokenizedLines Examples.tokenized) 2) = Some [-1; -3]
  ∧ (openScopes <$> JsArray.get (tokenizedLines Examples.tokenized) 3) = Some [-1].
Proof. vm_compute. repeat split; reflexivity. Qed.

(** An edit whose end stack is the one before: no row is invalidated. *)
Example edit_with_the_same_end_stack :
  invalidRows (bufferDidChange (Examples.editOfRow 1) Examples.tokenized) = []
  ∧ tokenizeCalls (bufferDidChange (Examples.editOfRow 1) Examples.tokenized)
    = [0; 1; 2; 3; 1].
Proof. vm_compute. split; reflexivity. Qed.

(** The range of a scope on one line with the tags
    [open A, 3, open B, 4, close B, 2, close A]. *)
Example range_of_scope_at_position :
  let line :=
    {| openScopes := []; text := Some "abcdefghi";
       tags := [-1; 3; -3; 4; -4; 2; -2];
       ruleStack := StackUndefined; lineEnding := Some EmptyString |} in
  let st :=
    with_tokenizedLines (JsArray.set (JsArray.create 1) 0 line)
      (Examples.stateOf Examples.exampleGrammar ["abcdefghi"] 20 []) in
  let position := {| row := 0; column := 5 |} in
  (bufferRangeForScopeAtPosition ".source" position st).1
    = Normal (Some (MkNewRange 0 0 0 (Some 9)))
  ∧ (bufferRangeForScopeAtPosition ".comment" position st).1
    = Normal (Some (MkNewRange 0 3 0 (Some 7)))
  ∧ (bufferRangeForScopeAtPosition ".string" position st).1 = Normal None.
Proof. vm_compute. repeat split; reflexivity. Qed.

(** Folds by indentation, with [tabLength] 2. *)
Example foldable_rows :
  let st :=
    Examples.stateOf Examples.exampleGrammar
      ["def f():"; "    a"; "    b"; "c"] 20 [0] in
  isFoldableCodeAtRow 0 st = Normal true
  ∧ isFoldableCodeAtRow 1 st = Normal false
  ∧ isFoldableCodeAtRow 3 st = Normal false.
Proof. vm_compute. repeat split; reflexivity. Qed.

(** [splice] on an array with a hole and a named property. *)
Example splice_replaces_rows :
  let a : JsArray.t Z :=
    JsArray.set (JsArray.set (JsArray.set (JsArray.create 4) 0 10) 3 13) (-1) 99 in
  let a' := JsArray.splice a 1 2 [Some 21; None; Some 23] in
  JsArray.len a' = 5
  ∧ (JsArray.get a' <$> [-1; 0; 1; 2; 3; 4; 5])
    = [Some 99; Some 10; Some 21; None; Some 23; Some 13; None].
Proof. vm_compute. split; reflexivity. Qed.

(** ** The further properties on the concrete instances *)

Lemma validateRow_keeps_rows_after_witness :
  let st := Examples.stateOf Examples.exampleGrammar Examples.commentBuffer 2
              [0; 2; 5] in
  let row := 2 in
  Sorted Z.le (invalidRows st)
  ∧ invalidRows (validateRow row st) = filter (λ r, row < r) (invalidRows st).
Proof.
  intros st row.
  assert (H1 : Sorted Z.le (invalidRows st)).
  { simpl. repeat first [lia | constructor]. }
  split; [exact H1|]. exact (validateRow_keeps_rows_after row st H1).
Defined.

Lemma scopesFromTags_well_nested_witness :
  let st := MoreExamples.fresh in
  wellNested MoreExamples.nestedTags
  ∧ scopesFromTags [-5] MoreExamples.nestedTags st = ([-5], st).
Proof.
  intros st.
  assert (H1 : wellNested MoreExamples.nestedTags).
  { apply (wellNested_scope (-1) [3; -3; 2; -4] []); [lia|reflexivity| |constructor].
    apply wellNested_span; [lia|].
    apply (wellNested_scope (-3) [2] []); [lia|reflexivity| |constructor].
    apply wellNested_span; [lia|constructor]. }
  split; [exact H1|].
  exact (scopesFromTags_well_nested MoreExamples.nestedTags H1 [-5] st).
Defined.

Lemma indentLevelForLine_leading_whitespace_witness :
  let tabLength := 2 in
  let leading := "  "%string in
  let rest := "yz"%string in
  let c := "x"%char in
  isWhitespace c = false
  ∧ indentLevelForLine (Some (leading +:+ String c rest)) tabLength =
    indentLevelForLine (Some leading) tabLength.
Proof.
  intros tabLength leading rest c.
  assert (H1 : isWhitespace c = false) by reflexivity.
  split; [exact H1|].
  exact (indentLevelForLine_leading_whitespace tabLength leading rest c H1).
Defined.

Lemma indentLevelForLine_tabs_then_spaces_witness :
  let tabLength := 2 in
  let k := 1%nat in
  let n := 3%nat in
  let c := "x"%char in
  let rest := "yz"%string in
  0 < tabLength
  ∧ isWhitespace c = false
  ∧ indentLevelForLine
      (Some (repeated "009"%char k +:+ repeated " "%char n +:+ String c rest))
      tabLength
    = Normal (inject_Z (Z.of_nat k * tabLength + Z.of_nat n) / inject_Z tabLength)%Q.
Proof.
  intros tabLength k n c rest.
  assert (H1 : 0 < tabLength) by reflexivity.
  assert (H2 : isWhitespace c = false) by reflexivity.
  split; [exact H1|]. split; [exact H2|].
  exact (indentLevelForLine_tabs_then_spaces tabLength k n c rest H1 H2).
Defined.

Lemma indentLengthOf_bounds_witness :
  let tabLength := 4 in
  let chars := String "009"%char "  x y"%string in
  let indentLength := 0 in
  0 < tabLength ∧ 0 <= indentLength
  ∧ indentLength + Z.of_nat (leadingWhitespace chars)
      <= indentLengthOf tabLength chars indentLength
      <= indentLength + Z.of_nat (leadingWhitespace chars) * tabLength.
Proof.
  intros tabLength chars indentLength.
  assert (H1 : 0 < tabLength) by reflexivity.
  assert (H2 : 0 <= indentLength) by (vm_compute; discriminate).
  split; [exact H1|]. split; [exact H2|].
  exact (indentLengthOf_bounds tabLength chars indentLength H1 H2).
Defined.

Lemma isFoldableAtRow_returns_witness :
  let st := Examples.tokenized in
  let row := 0 in
  (∀ next, TextBuffer.nextNonBlankRow (buffer st) row = Some next →
     0 <= next <= getLastRow st)
  ∧ ∃ value,
      isFoldableAtRow row st = Normal value
      ∧ (row < 0 ∨ getLastRow st < row →
         isFoldableCodeAtRow row st = Normal false
         ∧ value = isFoldableCommentAtRow row st).
Proof.
  intros st row.
  assert (H1 : ∀ next, TextBuffer.nextNonBlankRow (buffer st) row = Some next →
                 0 <= next <= getLastRow st).
  { intros next Hnext. vm_compute in Hnext. injection Hnext as <-.
    assert (getLastRow st = 3) as -> by (vm_compute; reflexivity). lia. }
  split; [exact H1|]. exact (isFoldableAtRow_returns row st H1).
Defined.

Lemma bufferRangeForScopeAtPosition_contains_position_witness :
  let st := Examples.tokenized in
  let selector := ".comment"%string in
  let position := {| row := 1; column := 1 |} in
  let range := MkNewRange 1 0 1 (Some 3) in
  let st' := (bufferRangeForScopeAtPosition selector position st).2 in
  bufferRangeForScopeAtPosition selector position st
  = (Normal (Some range), st')
  ∧ ∃ line,
      tokenizedLineForRow (row position) st = (Normal (Some line), st')
      ∧ (∃ startColumn endColumn,
           range = MkNewRange (row position) startColumn (row position) endColumn)
      ∧ (0 <= column position <= spanTotal (tags line) →
         (∃ span, span ∈ tags line ∧ 0 <= span) →
         ∃ startColumn endColumn,
           range = MkNewRange (row position) startColumn
                     (row position) (Some endColumn)
           ∧ 0 <= startColumn <= column position
           ∧ column position <= endColumn <= spanTotal (tags line)).
Proof.
  intros st selector position range st'.
  assert (H1 : bufferRangeForScopeAtPosition selector position st
               = (Normal (Some range), st')) by (vm_compute; reflexivity).
  split; [exact H1|].
  exact (bufferRangeForScopeAtPosition_contains_position
           selector position st st' range H1).
Defined.

Lemma bufferDidChange_moves_cached_lines_witness :
  let st := Examples.tokenized in
  let e := {| oldRange := Examples.rangeOf 1 0; newRange := Examples.rangeOf 1 1 |} in
  let startRow := row (start (oldRange e)) in
  let endRow := row (end' (oldRange e)) in
  let delta := row (end' (newRange e)) - row (end' (oldRange e)) in
  let cache := tokenizedLines st in
  let cache' := tokenizedLines (bufferDidChange e st) in
  0 <= startRow ∧ endRow < JsArray.len cache
  ∧ row (start (newRange e)) = startRow
  ∧ JsArray.len cache' = JsArray.len cache + delta
  ∧ (∀ r, r < startRow → JsArray.get cache' r = JsArray.get cache r)
  ∧ (∀ r, endRow + delta < r < JsArray.len cache + delta →
       JsArray.get cache' r = JsArray.get cache (r - delta))
  ∧ (largeFileMode st || isNullGrammar st = true →
     ∀ r, startRow <= r <= endRow + delta → JsArray.get cache' r = None).
Proof.
  intros st e startRow endRow delta cache cache'.
  assert (H1 : 0 <= startRow) by (vm_compute; discriminate).
  assert (H2 : endRow < JsArray.len cache) by (vm_compute; reflexivity).
  assert (H3 : row (start (newRange e)) = startRow) by reflexivity.
  split; [exact H1|]. split; [exact H2|]. split; [exact H3|].
  exact (bufferDidChange_moves_cached_lines e st H1 H2 H3).
Defined.

Lemma buildTokenizedLinesForRows_builds_first_rows_witness :
  let st := MoreExamples.fresh in
  let startRow := 0 in
  let endRow := 3 in
  let stack := StackUndefined in
  let scopes := [] in
  0 <= startRow
  ∧ ∃ lines : list TokenizedLine,
      (buildTokenizedLinesForRows startRow endRow stack scopes st).1
      = (Some <$> lines)
        ++ replicate (Z.to_nat (endRow - startRow + 1) - length lines) None
      ∧ (length lines ≤ Z.to_nat (endRow - startRow + 1))%nat
      ∧ Z.of_nat (length lines) <= Z.max 0 (chunkSize st)
      ∧ tokenizeCalls
          (buildTokenizedLinesForRows startRow endRow stack scopes st).2
        = tokenizeCalls st ++ seqZ startRow (Z.of_nat (length lines)).
Proof.
  intros st startRow endRow stack scopes.
  assert (H1 : 0 <= startRow) by (vm_compute; discriminate).
  split; [exact H1|].
  exact (buildTokenizedLinesForRows_builds_first_rows
           startRow endRow stack scopes st H1).
Defined.

Lemma background_tokenization_is_one_pass_witness :
  let st := MoreExamples.fresh in
  let n := 6%nat in
  alive st = true
  ∧ largeFileMode st || isNullGrammar st = false
  ∧ 0 < chunkSize st
  ∧ stacksDefined st
  ∧ (Z.to_nat (getLineCount st + 1) < n)%nat
  ∧ ∃ st', tokenizeChunks n (retokenizeLines st) = Some st'
      ∧ fullyTokenized st' = true
      ∧ invalidRows st' = []
      ∧ (∀ r, 0 <= r <= getLastRow st →
           JsArray.get (tokenizedLines st') r = onePassLine st r)
      ∧ tokenizeCalls st' = tokenizeCalls st ++ seqZ 0 (getLineCount st).
Proof.
  intros st n.
  assert (H1 : alive st = true) by reflexivity.
  assert (H2 : largeFileMode st || isNullGrammar st = false) by reflexivity.
  assert (H3 : 0 < chunkSize st) by reflexivity.
  assert (H4 : stacksDefined st).
  { unfold stacksDefined. vm_compute.
    repeat (constructor; [discriminate|]). constructor. }
  assert (H5 : (Z.to_nat (getLineCount st + 1) < n)%nat) by (vm_compute; lia).
  split; [exact H1|]. split; [exact H2|]. split; [exact H3|].
  split; [exact H4|]. split; [exact H5|].
  exact (background_tokenization_is_one_pass st n H1 H2 H3 H4 H5).
Defined.

Lemma at_most_one_chunk_is_queued_witness :
  let st := Examples.stateOf Examples.exampleGrammar Examples.commentBuffer 2 [0] in
  let cs := [CallSetVisible true; CallScheduler (CallInvalidateRow 1);
             CallTokenizeInBackground; CallDeferredChunk;
             CallBufferDidChange (Examples.editOfRow 1)] in
  debounced st
  ∧ ∃ st', performAll cs st = Some st'
      ∧ (deferred st' ≤ 1)%nat
      ∧ (pendingChunk st' = true ↔ deferred st' = 1%nat).
Proof.
  intros st cs.
  assert (H1 : debounced st) by reflexivity.
  split; [exact H1|]. exact (at_most_one_chunk_is_queued cs st H1).
Defined.

Lemma deferred_chunks_drain_witness :
  let st := MoreExamples.queued in
  let n := 6%nat in
  alive st = true ∧ TextBuffer.isAlive (buffer st) = true
  ∧ visible st = true ∧ 0 < chunkSize st
  ∧ pendingChunk st = true ∧ deferred st = 1%nat
  ∧ (pending st < n)%nat
  ∧ ∃ st', runDeferred n st = Some st'
      ∧ deferred st' = 0%nat ∧ pendingChunk st' = false
      ∧ invalidRows st' = [] ∧ fullyTokenized st' = true.
Proof.
  intros st n.
  assert (H1 : alive st = true) by reflexivity.
  assert (H2 : TextBuffer.isAlive (buffer st) = true) by reflexivity.
  assert (H3 : visible st = true) by reflexivity.
  assert (H4 : 0 < chunkSize st) by reflexivity.
  assert (H5 : pendingChunk st = true) by reflexivity.
  assert (H6 : deferred st = 1%nat) by reflexivity.
  assert (H7 : (pending st < n)%nat) by (vm_compute; lia).
  split; [exact H1|]. split; [exact H2|]. split; [exact H3|].
  split; [exact H4|]. split; [exact H5|]. split; [exact H6|].
  split; [exact H7|].
  exact (deferred_chunks_drain st n H1 H2 H3 H4 H5 H6 H7).
Defined.

Lemma new_instance_is_tokenized_once_visible_witness :
  let b := Examples.bufferOf Examples.commentBuffer in
  let t := 2 in
  let g := Examples.exampleGrammar in
  let c := 2 in
  let n := 6%nat in
  TextBuffer.isAlive b = true
  ∧ String.eqb (name g) "Null Grammar" = false
  ∧ 0 < c
  ∧ stacksDefined (construct b t false g c)
  ∧ (Z.to_nat (TextBuffer.getLineCount b + 1) < n)%nat
  ∧ tokenizeCalls (construct b t false g c) = []
  ∧ deferred (construct b t false g c) = 0%nat
  ∧ deferred (setVisible true (construct b t false g c)) = 1%nat
  ∧ ∃ st', runDeferred n (setVisible true (construct b t false g c)) = Some st'
      ∧ deferred st' = 0%nat
      ∧ fullyTokenized st' = true
      ∧ invalidRows st' = []
      ∧ didTokenizeCount st' = 1%nat
      ∧ (∀ r, 0 <= r <= TextBuffer.getLastRow b →
           JsArray.get (tokenizedLines st') r
           = onePassLine (construct b t false g c) r)
      ∧ tokenizeCalls st' = seqZ 0 (TextBuffer.getLineCount b).
Proof.
  intros b t g c n.
  assert (H1 : TextBuffer.isAlive b = true) by reflexivity.
  assert (H2 : String.eqb (name g) "Null Grammar" = false) by reflexivity.
  assert (H3 : 0 < c) by reflexivity.
  assert (H4 : stacksDefined (construct b t false g c)).
  { unfold stacksDefined. vm_compute.
    repeat (constructor; [discriminate|]). constructor. }
  assert (H5 : (Z.to_nat (TextBuffer.getLineCount b + 1) < n)%nat)
    by (vm_compute; lia).
  split; [exact H1|]. split; [exact H2|]. split; [exact H3|].
  split; [exact H4|]. split; [exact H5|].
  exact (new_instance_is_tokenized_once_visible b t g c n H1 H2 H3 H4 H5).
Defined.

Lemma large_file_mode_never_tokenizes_witness :
  let st := MoreExamples.largeFile in
  let cs := [CallSetVisible true; CallBufferDidChange (Examples.editOfRow 1);
             CallTokenizeInBackground; CallDeferredChunk;
             CallTokenizedLineForRow 0; CallRetokenizeLines;
             CallScheduler CallTokenizeNextChunk] in
  largeFileMode st = true ∧ invalidRows st = []
  ∧ Forall (λ c, invalidatesDirectly c = false) cs
  ∧ ∃ st', performAll cs st = Some st'
      ∧ tokenizeCalls st' = tokenizeCalls st
      ∧ invalidRows st' = []
      ∧ largeFileMode st' = true.
Proof.
  intros st cs.
  assert (H1 : largeFileMode st = true) by reflexivity.
  assert (H2 : invalidRows st = []) by reflexivity.
  assert (H3 : Forall (λ c, invalidatesDirectly c = false) cs)
    by (repeat constructor).
  split; [exact H1|]. split; [exact H2|]. split; [exact H3|].
  exact (large_file_mode_never_tokenizes cs st H1 H2 H3).
Defined.

Lemma destroyed_instance_runs_no_chunk_witness :
  let st := MoreExamples.queued in
  let n := 2%nat in
  alive st = true
  ∧ ∃ st', runDeferred n (destroy st) = Some st'
      ∧ JsArray.len (tokenizedLines st') = 0
      ∧ (∀ r, 0 <= r → JsArray.get (tokenizedLines st') r = None)
      ∧ tokenizeCalls st' = tokenizeCalls st
      ∧ emitted st' = emitted st
      ∧ invalidRows st' = invalidRows st
      ∧ (deferred st' ≤ deferred st)%nat
      ∧ retokenizeLines st' = st'
      ∧ tokenizeInBackground st' = st'
      ∧ destroy st' = st'.
Proof.
  intros st n.
  assert (H1 : alive st = true) by reflexivity.
  split; [exact H1|]. exact (destroyed_instance_runs_no_chunk st n H1).
Defined.

Lemma classNameForScopeId_cache_is_transparent_witness :
  let toFirstMateScopeId := λ id : Z, id in
  let id := -1 in
  let st := Examples.tokenized in
  let prefixedScopes := MoreExamples.oneClassName in
  prefixesCached prefixedScopes
  ∧ let result := classNameForScopeId toFirstMateScopeId id st prefixedScopes in
    result.1 = (classNameForScopeId toFirstMateScopeId id st ∅).1
    ∧ prefixesCached result.2
    ∧ prefixedScopes ⊆ result.2
    ∧ (∀ scope, result.1 = Some scope →
         ∃ name, scopeForId (grammar st) (toFirstMateScopeId id) = Some name
                 ∧ scope = prefixed name
                 ∧ result.2 !! name = Some scope).
Proof.
  intros toFirstMateScopeId id st prefixedScopes.
  assert (H1 : prefixesCached prefixedScopes).
  { intros scope prefixedScope Hlookup.
    unfold prefixedScopes, MoreExamples.oneClassName in Hlookup.
    apply lookup_singleton_Some in Hlookup as [<- <-]. reflexivity. }
  split; [exact H1|].
  exact (classNameForScopeId_cache_is_transparent
           toFirstMateScopeId id st prefixedScopes H1).
Defined.

(** The cache of the tokenized comment buffer is up to date, also with
    rows made invalid. *)
Lemma tokenized_upToDate (rows : list Z) :
  upToDate Examples.tokenized (with_invalidRows rows Examples.tokenized).
Proof.
  split; [vm_compute; reflexivity|]. split; [vm_compute; reflexivity|].
  split; [vm_compute; reflexivity|].
  intros r Hr.
  assert (Hlast : getLastRow Examples.tokenized = 3) by (vm_compute; reflexivity).
  rewrite Hlast in Hr.
  assert (Hcases : r = 0 ∨ r = 1 ∨ r = 2 ∨ r = 3) by lia.
  destruct Hcases as [->|[->|[->| ->]]]; vm_compute; reflexivity.
Defined.

Lemma retokenizing_changes_no_line_witness :
  let ref := Examples.tokenized in
  let st := MoreExamples.rowsInvalidated in
  let n := 3%nat in
  upToDate ref st
  ∧ Forall (λ r, 0 <= r) (invalidRows st)
  ∧ ∃ st', tokenizeChunks n st = Some st'
      ∧ sameLines st st' ∧ upToDate ref st'.
Proof.
  intros ref st n.
  assert (H1 : upToDate ref st) by apply tokenized_upToDate.
  assert (H2 : Forall (λ r, 0 <= r) (invalidRows st)).
  { change (Forall (λ r, 0 <= r) [1; 3]). repeat (constructor; [lia|]). constructor. }
  split; [exact H1|]. split; [exact H2|].
  exact (retokenizing_changes_no_line ref st n H1 H2).
Defined.

Lemma tokenizeNextChunk_stops_at_unchanged_row_witness :
  let ref := Examples.tokenized in
  let st := MoreExamples.rowInvalidated in
  let k := 1 in
  upToDate ref st
  ∧ invalidRows st = [k] ∧ 0 <= k <= getLastRow st ∧ 1 < chunkSize st
  ∧ ∃ st', tokenizeNextChunk st = Some st'
      ∧ tokenizeCalls st' = tokenizeCalls st ++ [k]
      ∧ invalidRows st' = []
      ∧ fullyTokenized st' = true
      ∧ sameLines st st'
      ∧ DidInvalidateRange k (k + 1) ∈ emitted st'.
Proof.
  intros ref st k.
  assert (H1 : upToDate ref st) by apply tokenized_upToDate.
  assert (H2 : invalidRows st = [k]) by (vm_compute; reflexivity).
  assert (H3 : 0 <= k <= getLastRow st).
  { assert (getLastRow st = 3) as -> by (vm_compute; reflexivity). lia. }
  assert (H4 : 1 < chunkSize st) by (vm_compute; reflexivity).
  split; [exact H1|]. split; [exact H2|]. split; [exact H3|]. split; [exact H4|].
  exact (tokenizeNextChunk_stops_at_unchanged_row ref st k H1 H2 H3 H4).
Defined.
